(** * Units algebra of mp-units: canonical units, equality, convertibility,
      common units, powers and symbol formatting ([core/include/units/unit.h]).

    Unit types of the C++ library are compile-time values; they are embedded
    here as an inductive type whose structural equality plays the role of
    [is_same_v].  Compilation failures ([static_assert], unsatisfied
    [requires]) and violated run-time contracts are embedded as error
    results. *)

From Stdlib Require Import ZArith QArith Qcanon Lia Ascii String.
From stdpp Require Import base decidable option list strings gmap fin_maps numbers pretty.

Local Open Scope Z_scope.

(** ** Rationals: [ratio] *)

(** Modelled from the spec: [ratio] of [units/ratio.h], which is absent.  A
    ratio is a normalised fraction (positive denominator, numerator and
    denominator coprime); [Qc] is exactly that. *)
Abbreviation ratio := Qc (only parsing).

(** Modelled from the spec: the constructor [ratio{Num, Den}] of the absent
    [units/ratio.h], which normalises. *)
Definition mk_ratio (Num Den : Z) : ratio := Q2Qc (Qdiv (inject_Z Num) (inject_Z Den)).

(** Modelled from the spec: the member [num] of the absent [ratio]. *)
Definition ratio_num (r : ratio) : Z := Qnum (this r).

(** Modelled from the spec: the member [den] of the absent [ratio]. *)
Definition ratio_den (r : ratio) : Z := Zpos (Qden (this r)).

(** Modelled from the spec: the integral [ratio{n}] of the absent
    [units/ratio.h]. *)
Definition ratio_of_Z (n : Z) : ratio := Q2Qc (inject_Z n).

(** ** Magnitudes

    The magnitude engine of [units/magnitude.h] is absent; all of this
    section follows the data model of the spec: a magnitude is a finite
    mapping from basis to non-zero rational exponent, and two magnitudes are
    equal iff their mappings are. *)

(** Modelled from the spec: the basis of a magnitude of the absent
    [units/magnitude.h], a prime number or a tagged irrational constant. *)
Inductive basis : Type :=
| prime_base (p : positive)
| irrational_base (tag : string).

#[global] Instance basis_eq_dec : EqDecision basis.
Proof. solve_decision. Defined.

#[global] Instance basis_countable : Countable basis.
Proof.
  refine (inj_countable'
            (fun b => match b with
                      | prime_base p => inl p
                      | irrational_base t => inr t
                      end)
            (fun s => match s with
                      | inl p => prime_base p
                      | inr t => irrational_base t
                      end) _).
  by intros [].
Defined.

(** Modelled from the spec: [magnitude<...>] of the absent
    [units/magnitude.h], the mapping from basis to exponent. *)
Abbreviation magnitude := (gmap basis Qc) (only parsing).

(** Modelled from the spec: [mag<1>] of the absent [units/magnitude.h], the
    empty mapping. *)
Definition mag_one : magnitude := ∅.

(** Modelled from the spec: the invariant of the absent magnitude that no
    exponent is zero; a term with exponent zero is removed. *)
Definition nonzero (e : Qc) : option Qc :=
  if decide (e = 0%Qc) then None else Some e.

(** Modelled from the spec: the exponents of one basis in a product of
    magnitudes are added. *)
Definition add_exponents (x y : option Qc) : option Qc :=
  match x, y with
  | Some a, Some b => nonzero (a + b)%Qc
  | Some a, None => Some a
  | None, Some b => Some b
  | None, None => None
  end.

(** Modelled from the spec: [M1 * M2] of the absent [units/magnitude.h]:
    merge the mappings, adding exponents, dropping zeros. *)
Definition mag_mul (a b : magnitude) : magnitude := merge add_exponents a b.

(** Modelled from the spec: [pow<r>(M)] of the absent [units/magnitude.h]:
    every exponent is multiplied by [r]. *)
Definition mag_pow (r : ratio) (a : magnitude) : magnitude :=
  omap (fun e => nonzero (r * e)%Qc) a.

(** Modelled from the spec: [M1 / M2] of the absent [units/magnitude.h]:
    the exponents are subtracted. *)
Definition mag_div (a b : magnitude) : magnitude := mag_mul a (mag_pow (-1)%Qc b).

(** Modelled from the spec: [M1 == M2] of the absent [units/magnitude.h]:
    the mappings are equal. *)
Definition mag_eqb (a b : magnitude) : bool := bool_decide (a = b).

(** Modelled from the spec: the prime factorisation behind [mag<N>] of the
    absent [units/magnitude.h], by trial division from [d] on. *)
Fixpoint factorize (fuel : nat) (n d : positive) : magnitude :=
  match fuel with
  | O => ∅
  | S fuel' =>
      if (n =? 1)%positive then ∅
      else if (n <? d * d)%positive then {[ prime_base n := 1%Qc ]}
      else if (Zpos n mod Zpos d =? 0) then
             mag_mul {[ prime_base d := 1%Qc ]} (factorize fuel' (Z.to_pos (Zpos n / Zpos d)) d)
           else factorize fuel' n (d + 1)%positive
  end.

(** Modelled from the spec: [mag<N>] of the absent [units/magnitude.h]. *)
Definition mag_of (n : positive) : magnitude := factorize (Pos.to_nat n) n 2%positive.

(** Modelled from the spec: [mag<ratio{n, d}>] of the absent
    [units/magnitude.h]. *)
Definition mag_ratio (n d : positive) : magnitude := mag_div (mag_of n) (mag_of d).

(** Modelled from the spec: [mag_power<Base, Num, Den>] of the absent
    [units/magnitude.h]. *)
Definition mag_power (base : positive) (r : ratio) : magnitude := mag_pow r (mag_of base).

(** Modelled from the spec: [mag_pi] of the absent [units/magnitude.h], the
    irrational basis pi with exponent one. *)
Definition mag_pi : magnitude := {[ irrational_base "pi" := 1%Qc ]}.

(** Modelled from the spec: a term of a magnitude that is a positive
    integral power of a prime, the terms of which an integer is made. *)
Definition integral_base_power (b : basis) (e : Qc) : Prop :=
  (exists p, b = prime_base p) /\ ratio_den e = 1 /\ 0 < ratio_num e.

#[global] Instance integral_base_power_dec b e : Decision (integral_base_power b e).
Proof.
  unfold integral_base_power. destruct b as [p|t].
  - destruct (decide (ratio_den e = 1 /\ 0 < ratio_num e)) as [H|H].
    + left. split; [by exists p | exact H].
    + right. intros [_ H']. by apply H.
  - right. intros [[p Hp] _]. discriminate.
Defined.

(** Modelled from the spec: [is_integral(M)] of the absent
    [units/magnitude.h]: every basis is a prime with a positive integral
    exponent, so that the magnitude is a positive integer. *)
Definition is_integral (m : magnitude) : bool :=
  bool_decide (map_Forall integral_base_power m).

(** Modelled from the spec: the value of one term of an integral magnitude
    (exact integer arithmetic of the absent [get_value]). *)
Definition base_power_value (b : basis) (e : Qc) : positive :=
  match b with
  | prime_base p => Pos.pow p (Z.to_pos (ratio_num e))
  | irrational_base _ => 1%positive
  end.

(** Modelled from the spec: the integer an integral magnitude stands for,
    the product of its terms. *)
Definition int_value (m : magnitude) : positive :=
  map_fold (fun b e acc => (acc * base_power_value b e)%positive) 1%positive m.

(** Modelled from the spec: a basis present in one magnitude only enters
    the absent [common_magnitude] with its exponent when it is negative. *)
Definition remove_positive_power (e : Qc) : option Qc :=
  if decide (e < 0)%Qc then Some e else None.

(** Modelled from the spec: the exponent of one basis in the absent
    [common_magnitude], the smaller of the two. *)
Definition common_exponent (x y : option Qc) : option Qc :=
  match x, y with
  | Some a, Some b => Some (if decide (a < b)%Qc then a else b)
  | Some a, None => remove_positive_power a
  | None, Some b => remove_positive_power b
  | None, None => None
  end.

(** Modelled from the spec: [common_magnitude(M1, M2)] of the absent
    [units/magnitude.h]: the magnitude that divides both with a remainder
    of non-negative exponents (basis by basis the smaller exponent, an
    absent basis counting as exponent zero). *)
Definition common_magnitude (a b : magnitude) : magnitude := merge common_exponent a b.

(** Modelled from the spec: the integer part of a ratio in the absent
    [units/magnitude.h], truncating as C++ integer division does. *)
Definition ratio_integer_part (r : ratio) : Z := Z.quot (ratio_num r) (ratio_den r).

(** Modelled from the spec: the exponent of a basis in a magnitude, zero
    for a basis that is not in the mapping. *)
Definition get_power (b : basis) (m : magnitude) : ratio := default 0%Qc (m !! b).

(** Modelled from the spec: the absolute value of a ratio. *)
Definition ratio_abs (r : ratio) : ratio := if decide (r < 0)%Qc then (- r)%Qc else r.

(** Modelled from the spec: [extract_power_of_10(M)] of the absent
    [units/magnitude.h]: the largest power of ten that can be factored out
    of [M], from the exponents of 2 and 5. *)
Definition extract_power_of_10 (m : magnitude) : Z :=
  let power_of_2 := get_power (prime_base 2) m in
  let power_of_5 := get_power (prime_base 5) m in
  if decide (ratio_num (power_of_2 * power_of_5)%Qc <= 0) then 0
  else ratio_integer_part
         (if decide (ratio_abs power_of_2 < ratio_abs power_of_5)%Qc then power_of_2 else power_of_5).

(** Modelled from the spec: the integer part of one term of the absent
    magnitude, kept for a prime with exponent at least one. *)
Definition integer_part (b : basis) (e : Qc) : option Qc :=
  match b with
  | prime_base _ =>
      if decide (ratio_den e <= ratio_num e)
      then Some (ratio_of_Z (ratio_num e / ratio_den e))
      else None
  | irrational_base _ => None
  end.

(** Modelled from the spec: [numerator(M)] of the absent
    [units/magnitude.h], the integer part of every term. *)
Definition mag_numerator (m : magnitude) : magnitude := map_imap integer_part m.

(** Modelled from the spec: [denominator(M)] of the absent
    [units/magnitude.h], the numerator of the inverse. *)
Definition mag_denominator (m : magnitude) : magnitude := mag_numerator (mag_pow (-1)%Qc m).

(** Modelled from the spec: the largest [std::intmax_t], which the absent
    [get_value<std::intmax_t>] must not exceed. *)
Definition intmax_max : Z := 2 ^ 63 - 1.

(** Modelled from the spec: [get_value<std::intmax_t>(M)] of the absent
    [units/magnitude.h], for an integral magnitude that fits. *)
Definition get_value (m : magnitude) : option Z :=
  if is_integral m
  then (let v := Zpos (int_value m) in if decide (v <= intmax_max) then Some v else None)
  else None.

(** ** Symbols *)

(** The character types of C++: the types a text is made of, and the types
    [CharT] of the characters that the formatter writes. *)
Inductive char_type : Type := char | wchar_t | char8_t | char16_t | char32_t.

#[global] Instance char_type_eq_dec : EqDecision char_type.
Proof. solve_decision. Defined.

(** Modelled from the spec: [basic_symbol_text<UnicodeCharT, N, M>] of the
    absent [units/symbol_text.h], a text with a Unicode and an ASCII
    rendering.  The Unicode rendering is a text over [UnicodeCharT], the
    template parameter that [detail::copy] of [unit.h] compares with
    [CharT]; the ASCII rendering is a text over [char]. *)
Record basic_symbol_text : Type := {
  unicode_char : char_type;
  unicode : string;
  ascii : string
}.

#[global] Instance basic_symbol_text_eq_dec : EqDecision basic_symbol_text.
Proof. solve_decision. Defined.

(** Modelled from the spec: the symbol made of one text for both
    renderings, as [basic_symbol_text] of the absent header builds it from
    one string literal, a text over [char]. *)
Definition symbol_text_of (s : string) : basic_symbol_text :=
  {| unicode_char := char; unicode := s; ascii := s |}.

(** Modelled from the spec: [operator+] of [basic_symbol_text] in the
    absent [units/symbol_text.h]; the two texts are over one character
    type, that of the result. *)
Definition symbol_append (a b : basic_symbol_text) : basic_symbol_text :=
  {| unicode_char := unicode_char a;
     unicode := unicode a +:+ unicode b; ascii := ascii a +:+ ascii b |}.

(** ** Unit types *)

(** The unit types the library can form.  [named_unit name Symbol] is
    [struct name : named_unit<Symbol> {}], a base unit;
    [named_unit_of name Symbol U] is [struct name : named_unit<Symbol, U> {}];
    [prefixed_unit name Symbol M U] is the instance for [U] of a class
    template [name] deriving from [prefixed_unit<Symbol, M, U>];
    [derived_unit nums dens] is [derived_unit<nums..., per<dens...>>], the
    [per] being absent when [dens] is empty; [one] is [struct one].  A
    factor is a unit or [power<F, Num, Den...>], the denominator being
    optional as in the template ([power] and [per] themselves are declared
    in the absent [units/bits/expression_template.h]). *)
Inductive unit : Type :=
| named_unit (name : string) (Symbol : basic_symbol_text)
| named_unit_of (name : string) (Symbol : basic_symbol_text) (U : unit)
| prefixed_unit (name : string) (Symbol : basic_symbol_text) (M : magnitude) (U : unit)
| scaled_unit (M : magnitude) (U : unit)
| derived_unit (nums dens : list factor)
| one
with factor : Type :=
| bare (U : unit)
| power (F : unit) (Num : Z) (Den : option Z).

(** Modelled from the spec: [power<F, Num, Den...>::exponent] of the absent
    [units/bits/expression_template.h], the ratio [Num/Den]. *)
Definition power_exponent (Num : Z) (Den : option Z) : ratio :=
  mk_ratio Num (default 1 Den).

(** Modelled from the spec: [expr_type] of the absent
    [units/bits/expression_template.h], the unit of a factor. *)
Definition expr_type (f : factor) : unit :=
  match f with
  | bare U => U
  | power F _ _ => F
  end.

(** Modelled from the spec: the exponent of a factor, one for a unit stored
    bare. *)
Definition exponent_of (f : factor) : ratio :=
  match f with
  | bare _ => 1%Qc
  | power _ Num Den => power_exponent Num Den
  end.

(** [is_same_v] on unit types: the same template with the same arguments,
    the same struct. *)
Fixpoint unit_eqb (a b : unit) {struct a} : bool :=
  match a, b with
  | named_unit n1 s1, named_unit n2 s2 => bool_decide (n1 = n2) && bool_decide (s1 = s2)
  | named_unit_of n1 s1 U1, named_unit_of n2 s2 U2 =>
      bool_decide (n1 = n2) && bool_decide (s1 = s2) && unit_eqb U1 U2
  | prefixed_unit n1 s1 M1 U1, prefixed_unit n2 s2 M2 U2 =>
      bool_decide (n1 = n2) && bool_decide (s1 = s2) && mag_eqb M1 M2 && unit_eqb U1 U2
  | scaled_unit M1 U1, scaled_unit M2 U2 => mag_eqb M1 M2 && unit_eqb U1 U2
  | derived_unit n1 d1, derived_unit n2 d2 =>
      let fix go (l1 l2 : list factor) {struct l1} : bool :=
        match l1, l2 with
        | [], [] => true
        | f1 :: l1', f2 :: l2' => factor_eqb f1 f2 && go l1' l2'
        | _, _ => false
        end in
      go n1 n2 && go d1 d2
  | one, one => true
  | _, _ => false
  end
with factor_eqb (f g : factor) {struct f} : bool :=
  match f, g with
  | bare U1, bare U2 => unit_eqb U1 U2
  | power F1 n1 d1, power F2 n2 d2 =>
      unit_eqb F1 F2 && bool_decide (n1 = n2) && bool_decide (d1 = d2)
  | _, _ => false
  end.

(** [is_same_v] on two packs of factors. *)
Fixpoint factors_eqb (l1 l2 : list factor) : bool :=
  match l1, l2 with
  | [], [] => true
  | f1 :: l1', f2 :: l2' => factor_eqb f1 f2 && factors_eqb l1' l2'
  | _, _ => false
  end.

(** ** Results of operations that can fail *)

(** The ways in which an operation fails: at compile time (an ill-formed
    type, a failing [static_assert]) or at run time (a violated contract, an
    exception). *)
Inductive error : Type :=
| InvalidExponent      (* zero denominator of a rational power *)
| IllFormed            (* a constraint of a template is not satisfied *)
| ContractViolation    (* a [gsl_Expects] precondition does not hold *)
| NotConvertible       (* the units have different canonical references *)
| UnsupportedOption    (* [std::invalid_argument] of the formatter *)
| PrintingNotSupported (* the [static_assert] of [magnitude_text] *).

(** The result of an operation that can fail. *)
Inductive result (A : Type) : Type :=
| Ok (a : A)
| Err (e : error).
Arguments Ok {A} a.
Arguments Err {A} e.

(** Sequencing: the first failure is the failure of the whole. *)
Definition bind {A B : Type} (r : result A) (k : A -> result B) : result B :=
  match r with
  | Ok a => k a
  | Err e => Err e
  end.

Notation "x <- r ;; k" := (bind r (fun x => k))
  (at level 100, r at next level, right associativity).

(** ** Scaling a unit: [operator*(M, U)] *)

(** Multiplication by [1] returns the same unit, otherwise [scaled_unit] is
    being returned. *)
Definition mag_times (M : magnitude) (u : unit) : unit :=
  if mag_eqb M mag_one then u else scaled_unit M u.

(** ** Inheritance between unit types: [std::derived_from] *)

(** [std::derived_from<A, B>]: [A] is [B] or inherits from it.  A
    [named_unit<Symbol, U>] inherits from the type of [U], a prefixed unit
    from the type of [M * U], [one] from [derived_unit<>]. *)
Fixpoint derived_from (a b : unit) : bool :=
  unit_eqb a b ||
  match a with
  | named_unit_of _ _ U => derived_from U b
  | prefixed_unit _ _ M U =>
      if mag_eqb M mag_one then derived_from U b else unit_eqb (scaled_unit M U) b
  | one => unit_eqb (derived_unit [] []) b
  | _ => false
  end.

(** [requires { U::symbol; }] *)
Definition has_symbol (u : unit) : bool :=
  match u with
  | named_unit _ _ | named_unit_of _ _ _ | prefixed_unit _ _ _ _ => true
  | _ => false
  end.

(** [detail::is_specialization_of_scaled_unit] *)
Definition is_specialization_of_scaled_unit (u : unit) : bool :=
  match u with
  | scaled_unit _ _ => true
  | _ => false
  end.

(** [is_specialization_of<T, derived_unit>] *)
Definition is_specialization_of_derived_unit (u : unit) : bool :=
  match u with
  | derived_unit _ _ => true
  | _ => false
  end.

(** [is_specialization_of_power] *)
Definition is_specialization_of_power (f : factor) : bool :=
  match f with
  | power _ _ _ => true
  | bare _ => false
  end.

(** ** Expression templates

    [units/bits/expression_template.h] is absent; all of this section
    follows the unit expression model of the spec: a unit expression is a
    numerator and a denominator list of factors, a factor being a unit
    (exponent one, stored bare) or a unit with another positive exponent;
    the exponents of equal units are merged and the lists are kept sorted by
    the ordering on unit types. *)

(** Modelled from the spec: the constraint of [power<F, Num, Den...>] of the
    absent [units/bits/expression_template.h]: a positive exponent other
    than one. *)
Definition valid_power (Num : Z) (Den : option Z) : bool :=
  match Den with
  | None => bool_decide (0 < Num) && negb (bool_decide (Num = 1))
  | Some d => bool_decide (0 < Num) && bool_decide (0 < d) && negb (bool_decide (Num = d))
  end.

(** Modelled from the spec: a factor that the absent expression templates
    can hold. *)
Definition valid_factor (f : factor) : bool :=
  match f with
  | bare _ => true
  | power _ Num Den => valid_power Num Den
  end.

(** Modelled from the spec: [power_or_T<T, R>] of the absent
    [units/bits/expression_template.h]: the exponent [1] is stored bare, an
    integral one without denominator. *)
Definition power_or_T (T : unit) (R : ratio) : factor :=
  if decide (ratio_den R = 1)
  then (if decide (ratio_num R = 1) then bare T else power T (ratio_num R) None)
  else power T (ratio_num R) (Some (ratio_den R)).

(** Modelled from the spec: [power_or_T] of a factor that may already be a
    power, where the exponents multiply. *)
Definition factor_pow (R : ratio) (f : factor) : factor :=
  power_or_T (expr_type f) (exponent_of f * R)%Qc.

(** The name of a unit type, [type_name<T>()] of the absent
    [units/bits/external/type_name.h], by which the factors of an expression
    are ordered.  It depends on the compiler and is a parameter here. *)
Class TypeName := type_name : unit -> string.

Section expression_templates.
Context `{TypeName}.

(** [detail::unit_less] *)
Definition unit_less (lhs rhs : unit) : bool :=
  String.ltb (type_name lhs) (type_name rhs).

(** Modelled from the spec: [expr_less] of the absent
    [units/bits/expression_template.h]: factors are ordered by their units;
    a bare unit comes before its powers and these are ordered by
    exponent. *)
Definition expr_less (l r : factor) : bool :=
  if unit_eqb (expr_type l) (expr_type r) then
    match l, r with
    | bare _, power _ _ _ => true
    | power _ n1 d1, power _ n2 d2 =>
        bool_decide (power_exponent n1 d1 < power_exponent n2 d2)%Qc
    | _, _ => unit_less (expr_type l) (expr_type r)
    end
  else unit_less (expr_type l) (expr_type r).

(** Modelled from the spec: [type_list_merge_sorted] of the absent
    [units/bits/external/type_list.h], the merge of two sorted lists. *)
Fixpoint type_list_merge_sorted (l1 : list factor) : list factor -> list factor :=
  fix go (l2 : list factor) : list factor :=
    match l1, l2 with
    | [], _ => l2
    | _, [] => l1
    | a :: l1', b :: l2' =>
        if expr_less a b then a :: type_list_merge_sorted l1' l2 else b :: go l2'
    end.

(** Modelled from the spec: the recursion of [expr_consolidate] of the
    absent [units/bits/expression_template.h]: neighbours over the same unit
    are replaced by one factor carrying the sum of the exponents (and by
    nothing should the sum be zero).  [cur] is the factor at the head of the
    list being consolidated. *)
Fixpoint expr_consolidate_from (cur : option factor) (rest : list factor) : list factor :=
  match rest with
  | [] => match cur with
          | None => []
          | Some c => [c]
          end
  | f :: rest' =>
      match cur with
      | None => expr_consolidate_from (Some f) rest'
      | Some c =>
          if unit_eqb (expr_type c) (expr_type f)
          then (let r := (exponent_of c + exponent_of f)%Qc in
                if decide (r = 0%Qc)
                then expr_consolidate_from None rest'
                else expr_consolidate_from (Some (power_or_T (expr_type c) r)) rest')
          else c :: expr_consolidate_from (Some f) rest'
      end
  end.

(** Modelled from the spec: [expr_consolidate] of the absent
    [units/bits/expression_template.h]. *)
Definition expr_consolidate (l : list factor) : list factor :=
  expr_consolidate_from None l.

(** Modelled from the spec: [expr_simplify] of the absent
    [units/bits/expression_template.h]: a unit present in the numerator and
    in the denominator is kept on the side with the larger exponent
    only. *)
Fixpoint expr_simplify (nums : list factor) : list factor -> list factor * list factor :=
  fix go (dens : list factor) : list factor * list factor :=
    match nums, dens with
    | [], _ => (nums, dens)
    | _, [] => (nums, dens)
    | n :: nrest, d :: drest =>
        if unit_eqb (expr_type n) (expr_type d) then
          let r := (exponent_of n - exponent_of d)%Qc in
          let rest := expr_simplify nrest drest in
          if decide (0 < r)%Qc then (power_or_T (expr_type n) r :: rest.1, rest.2)
          else if decide (r < 0)%Qc then (rest.1, power_or_T (expr_type n) (- r)%Qc :: rest.2)
               else rest
        else if expr_less n d
             then (let rest := expr_simplify nrest dens in (n :: rest.1, rest.2))
             else (let rest := go drest in (rest.1, d :: rest.2))
    end.

(** Modelled from the spec: [expr_make_spec] of the absent
    [units/bits/expression_template.h], the type of an expression given by
    its two lists; a single bare unit stands for itself, the empty
    expression is [one], and a pure denominator gets [one] as numerator. *)
Definition expr_make_spec (nums dens : list factor) : unit :=
  match nums, dens with
  | [], [] => one
  | [], _ :: _ => derived_unit [bare one] dens
  | [bare U], [] => U
  | _, _ => derived_unit nums dens
  end.

(** Modelled from the spec: [get_optimized_expression] of the absent
    [units/bits/expression_template.h]: consolidate, simplify, form the
    type. *)
Definition get_optimized_expression (nums dens : list factor) : unit :=
  let s := expr_simplify (expr_consolidate nums) (expr_consolidate dens) in
  expr_make_spec s.1 s.2.

(** Modelled from the spec: [expr_fractions<derived_unit<>, Us...>::_num_]
    of the absent [units/bits/expression_template.h], the numerator of
    [derived_unit<Us...>] ([_den_] is the content of [per<...>]); a lone
    unit deriving from [derived_unit<>] in front of [per<...>] is a
    placeholder only. *)
Definition num_list (nums dens : list factor) : list factor :=
  match nums, dens with
  | [bare U], _ :: _ => if derived_from U (derived_unit [] []) then [] else nums
  | _, _ => nums
  end.

(** Modelled from the spec: [expr_multiply] of the absent
    [units/bits/expression_template.h]: [one] is neutral, the lists of
    derived units are merged, any other unit is a factor. *)
Definition expr_multiply (lhs rhs : unit) : unit :=
  if unit_eqb lhs one then rhs
  else if unit_eqb rhs one then lhs
  else match lhs, rhs with
       | derived_unit n1 d1, derived_unit n2 d2 =>
           get_optimized_expression
             (type_list_merge_sorted (num_list n1 d1) (num_list n2 d2))
             (type_list_merge_sorted d1 d2)
       | derived_unit n1 d1, _ =>
           get_optimized_expression (type_list_merge_sorted (num_list n1 d1) [bare rhs]) d1
       | _, derived_unit n2 d2 =>
           get_optimized_expression (type_list_merge_sorted (num_list n2 d2) [bare lhs]) d2
       | _, _ =>
           get_optimized_expression (type_list_merge_sorted [bare lhs] [bare rhs]) []
       end.

(** Modelled from the spec: [expr_divide] of the absent
    [units/bits/expression_template.h]: a unit over itself is [one], the
    numerator of the divisor goes to the denominator and back. *)
Definition expr_divide (lhs rhs : unit) : unit :=
  if unit_eqb lhs rhs then one
  else if unit_eqb rhs one then lhs
  else match lhs, rhs with
       | derived_unit n1 d1, derived_unit n2 d2 =>
           get_optimized_expression
             (type_list_merge_sorted (num_list n1 d1) d2)
             (type_list_merge_sorted d1 (num_list n2 d2))
       | derived_unit n1 d1, _ =>
           get_optimized_expression (num_list n1 d1) (type_list_merge_sorted d1 [bare rhs])
       | _, derived_unit n2 d2 =>
           get_optimized_expression (type_list_merge_sorted d2 [bare lhs]) (num_list n2 d2)
       | _, _ => derived_unit [bare lhs] [bare rhs]
       end.

(** Modelled from the spec: [expr_invert] of the absent
    [units/bits/expression_template.h]: numerator and denominator are
    swapped; a unit that is no derived unit becomes the denominator under
    the placeholder [one]. *)
Definition expr_invert (u : unit) : unit :=
  match u with
  | derived_unit nums dens => expr_make_spec dens (num_list nums dens)
  | _ => derived_unit [bare one] [bare u]
  end.

(** Modelled from the spec: the formation of [derived_unit<power<T, Num>>]
    or [derived_unit<power<T, Num, Den>>]; the power node can be formed for
    a valid exponent only. *)
Definition make_power (T : unit) (Num Den : Z) : result unit :=
  let f := power T Num (if decide (Den = 1) then None else Some Den) in
  if valid_factor f then Ok (derived_unit [f] []) else Err IllFormed.

(** Modelled from the spec: [expr_pow] of the absent
    [units/bits/expression_template.h]: every factor of a derived unit is
    raised to the power, any other unit is wrapped in a power node. *)
Definition expr_pow (Num Den : Z) (u : unit) : result unit :=
  match u with
  | derived_unit nums dens =>
      let r := mk_ratio Num Den in
      if decide (0 < r)%Qc
      then Ok (get_optimized_expression (factor_pow r <$> num_list nums dens)
                                        (factor_pow r <$> dens))
      else Err IllFormed
  | _ => make_power u Num Den
  end.
End expression_templates.

(** ** Unit arithmetic and canonical units ([units/unit.h]) *)

(** A canonical representation of a unit: a [reference_unit] and its scaling
    factor [mag]. *)
Record canonical_unit : Type := { mag : magnitude; reference_unit : unit }.

Section unit_algebra.
Context `{TypeName}.

(** [operator*(Lhs, Rhs)]: the magnitude of a [scaled_unit] operand stays
    outside, its reference unit only is passed to the derived unit. *)
Fixpoint unit_mul (lhs rhs : unit) {struct lhs} : unit :=
  match lhs with
  | scaled_unit M1 R1 =>
      match rhs with
      | scaled_unit M2 R2 => mag_times (mag_mul M1 M2) (unit_mul R1 R2)
      | _ => mag_times M1 (unit_mul R1 rhs)
      end
  | _ =>
      (fix mul_rhs (rhs : unit) : unit :=
         match rhs with
         | scaled_unit M2 R2 => mag_times M2 (mul_rhs R2)
         | _ => expr_multiply lhs rhs
         end) rhs
  end.

(** [operator/(Lhs, Rhs)] *)
Fixpoint unit_div (lhs rhs : unit) {struct lhs} : unit :=
  match lhs with
  | scaled_unit M1 R1 =>
      match rhs with
      | scaled_unit M2 R2 => mag_times (mag_div M1 M2) (unit_div R1 R2)
      | _ => mag_times M1 (unit_div R1 rhs)
      end
  | _ =>
      (fix div_rhs (rhs : unit) : unit :=
         match rhs with
         | scaled_unit M2 R2 => mag_times M2 (div_rhs R2)
         | _ => expr_divide lhs rhs
         end) rhs
  end.

(** [operator/(int, U)] *)
Definition unit_inv (value : Z) (u : unit) : result unit :=
  if decide (value = 1) then Ok (expr_invert u) else Err ContractViolation.

(** The fold expressions [(one * ... * reference_unit)] and
    [(mag<1> * ... * mag)] over the canonical units of the factors. *)
Definition canonical_product (canon : factor -> canonical_unit) (l : list factor) : canonical_unit :=
  fold_left (fun acc f => {| mag := mag_mul (mag acc) (mag (canon f));
                             reference_unit := unit_mul (reference_unit acc)
                                                        (reference_unit (canon f)) |})
            l {| mag := mag_one; reference_unit := one |}.

(** [detail::get_canonical_unit_impl], one case per overload.  A prefixed
    unit has no overload of its own: it is canonicalised as the type it
    inherits from, [scaled_unit<M, U>], or [U] should [M] be [mag<1>]; the
    overload for a base unit returns the unit it is called for. *)
Fixpoint get_canonical_unit_impl (t : unit) : canonical_unit :=
  match t with
  | named_unit _ _ => {| mag := mag_one; reference_unit := t |}
  | named_unit_of _ _ U => get_canonical_unit_impl U
  | prefixed_unit _ _ M U =>
      if mag_eqb M mag_one
      then match U with
           | named_unit _ _ => {| mag := mag_one; reference_unit := t |}
           | _ => get_canonical_unit_impl U
           end
      else let base := get_canonical_unit_impl U in
           {| mag := mag_mul M (mag base); reference_unit := reference_unit base |}
  | scaled_unit M U =>
      let base := get_canonical_unit_impl U in
      {| mag := mag_mul M (mag base); reference_unit := reference_unit base |}
  | derived_unit nums dens =>
      match dens with
      | [] => canonical_product get_canonical_factor nums
      | _ :: _ =>
          let num :=
            match nums with
            | [bare U] =>
                if derived_from U (derived_unit [] [])
                then canonical_product get_canonical_factor []
                else canonical_product get_canonical_factor nums
            | _ => canonical_product get_canonical_factor nums
            end in
          let den := canonical_product get_canonical_factor dens in
          {| mag := mag_div (mag num) (mag den);
             reference_unit := unit_div (reference_unit num) (reference_unit den) |}
      end
  | one => {| mag := mag_one; reference_unit := one |}
  end
with get_canonical_factor (f : factor) : canonical_unit :=
  match f with
  | bare U => get_canonical_unit_impl U
  | power F Num Den =>
      let base := get_canonical_unit_impl F in
      {| mag := mag_pow (power_exponent Num Den) (mag base);
         reference_unit :=
           derived_unit [power_or_T (reference_unit base) (power_exponent Num Den)] [] |}
  end.

Definition get_canonical_unit (u : unit) : canonical_unit := get_canonical_unit_impl u.

(** [operator==]: the canonical units have the same reference unit type
    and equal magnitudes. *)
Definition unit_eq (lhs rhs : unit) : bool :=
  let canonical_lhs := get_canonical_unit lhs in
  let canonical_rhs := get_canonical_unit rhs in
  unit_eqb (reference_unit canonical_lhs) (reference_unit canonical_rhs) &&
  mag_eqb (mag canonical_lhs) (mag canonical_rhs).

(** [convertible] *)
Definition convertible (lhs rhs : unit) : bool :=
  let canonical_lhs := get_canonical_unit lhs in
  let canonical_rhs := get_canonical_unit rhs in
  unit_eqb (reference_unit canonical_lhs) (reference_unit canonical_rhs).

(** [pow<Num, Den>(u)] *)
Fixpoint pow (Num Den : Z) (u : unit) : result unit :=
  if decide (Den = 0) then Err InvalidExponent
  else if has_symbol u then make_power u Num Den
  else match u with
       | scaled_unit M R =>
           r <- pow Num Den R ;;
           Ok (scaled_unit (mag_pow (mk_ratio Num Den) M) r)
       | _ => expr_pow Num Den u
       end.

(** [square<U>] and [cubic<U>] *)
Definition square (u : unit) : unit := unit_mul u u.
Definition cubic (u : unit) : unit := unit_mul (unit_mul u u) u.

(** [detail::common_type_impl] *)
Definition common_type_impl (u1 u2 : unit) : unit :=
  if unit_eq u1 u2 then
    (if derived_from u1 u2 then u1 else u2)
  else
    let canonical_lhs := get_canonical_unit u1 in
    let canonical_rhs := get_canonical_unit u2 in
    if is_integral (mag_div (mag canonical_lhs) (mag canonical_rhs)) then u2
    else if is_integral (mag_div (mag canonical_rhs) (mag canonical_lhs)) then u1
    else scaled_unit (common_magnitude (mag canonical_lhs) (mag canonical_rhs))
                     (reference_unit canonical_lhs).

(** [std::common_type<U1, U2>], specialised for convertible units only. *)
Definition common_type (u1 u2 : unit) : result unit :=
  if convertible u1 u2 then Ok (common_type_impl u1 u2) else Err NotConvertible.
End unit_algebra.

(** ** A compiler's type names and some units of the SI *)

(** Modelled from the spec: the name of one term of a magnitude in a type
    name ([type_name<T>()] of the absent
    [units/bits/external/type_name.h]). *)
Definition base_power_name (be : basis * Qc) : string :=
  (match be.1 with
   | prime_base p => pretty (Zpos p)
   | irrational_base t => t
   end) +:+ "^" +:+ pretty (ratio_num be.2) +:+ "/" +:+ pretty (ratio_den be.2).

(** Modelled from the spec: the name of a magnitude in a type name. *)
Definition magnitude_name (m : magnitude) : string :=
  "magnitude<" +:+ String.concat "," (base_power_name <$> map_to_list m) +:+ ">".

(** Modelled from the spec: [type_name<T>()] of the absent
    [units/bits/external/type_name.h], the spelling of the type. *)
Fixpoint compiler_type_name (u : unit) : string :=
  match u with
  | named_unit name _ => name
  | named_unit_of name _ _ => name
  | prefixed_unit name _ _ U => name +:+ "<" +:+ compiler_type_name U +:+ ">"
  | scaled_unit M U => "scaled_unit<" +:+ magnitude_name M +:+ "," +:+ compiler_type_name U +:+ ">"
  | derived_unit nums dens =>
      let names := fix names (l : list factor) : list string :=
        match l with
        | [] => []
        | f :: l' => compiler_factor_name f :: names l'
        end in
      "derived_unit<" +:+
        String.concat ","
          (names nums ++ match dens with
                         | [] => []
                         | _ :: _ => ["per<" +:+ String.concat "," (names dens) +:+ ">"]
                         end) +:+ ">"
  | one => "one"
  end
with compiler_factor_name (f : factor) : string :=
  match f with
  | bare U => compiler_type_name U
  | power F Num Den =>
      "power<" +:+ compiler_type_name F +:+ "," +:+ pretty Num +:+
        match Den with
        | None => ""
        | Some d => "," +:+ pretty d
        end +:+ ">"
  end.

(** The ordering of unit types used in the examples. *)
#[export] Instance compiler_names : TypeName := compiler_type_name.

(** Units of the SI, as the systems of units of the library declare
    them. *)

Module si.
Definition second : unit := named_unit "second" (symbol_text_of "s").
Definition metre : unit := named_unit "metre" (symbol_text_of "m").
Definition gram : unit := named_unit "gram" (symbol_text_of "g").
Definition kilo (U : unit) : unit :=
    prefixed_unit "kilo_" (symbol_text_of "k") (mag_power 10 (ratio_of_Z 3)) U.
Definition kilometre : unit := kilo metre.
Definition kilogram : unit := kilo gram.
Definition hertz : unit := named_unit_of "hertz" (symbol_text_of "Hz") (expr_invert second).
Definition becquerel : unit := named_unit_of "becquerel" (symbol_text_of "Bq") (expr_invert second).
Definition minute : unit := named_unit_of "minute" (symbol_text_of "min") (mag_times (mag_of 60) second).
Definition hour : unit := named_unit_of "hour" (symbol_text_of "h") (mag_times (mag_of 60) minute).
Definition newton : unit :=
    named_unit_of "newton" (symbol_text_of "N")
      (unit_div (unit_mul kilogram metre) (square second)).
End si.

(** ** Unit symbols ([unit_symbol]) *)

Inductive text_encoding : Type :=
| unicode_encoding  (* m³;  µs *)
| ascii_encoding    (* m^3; us *).

Inductive unit_symbol_denominator : Type :=
| solidus_one      (* m/s;   kg m-1 s-1 *)
| always_solidus   (* m/s;   kg/(m s) *)
| always_negative  (* m s-1; kg m-1 s-1 *).

Inductive unit_symbol_separator : Type :=
| space  (* kg m²/s² *)
| dot    (* kg⋅m²/s²  (valid only for unicode encoding) *).

Record unit_symbol_formatting : Type := {
  encoding : text_encoding;
  denominator : unit_symbol_denominator;
  separator : unit_symbol_separator
}.

#[global] Instance text_encoding_eq_dec : EqDecision text_encoding.
Proof. solve_decision. Defined.
#[global] Instance unit_symbol_denominator_eq_dec : EqDecision unit_symbol_denominator.
Proof. solve_decision. Defined.
#[global] Instance unit_symbol_separator_eq_dec : EqDecision unit_symbol_separator.
Proof. solve_decision. Defined.

(** [unit_symbol_formatting{}] *)
Definition default_formatting : unit_symbol_formatting :=
  {| encoding := unicode_encoding; denominator := solidus_one; separator := space |}.

(** The rendering of a text that an encoding selects: [txt.unicode()] or
    [txt.ascii()]. *)
Definition rendering (txt : basic_symbol_text) (enc : text_encoding) : string :=
  match enc with
  | unicode_encoding => unicode txt
  | ascii_encoding => ascii txt
  end.

(** [detail::copy<CharT>(txt, encoding, out)]: the rendering is copied when
    it is a text over [CharT], [std::invalid_argument] is thrown when it is
    not.  The output iterator appends to the buffer of [unit_symbol]. *)
Definition copy (CharT : char_type) (txt : basic_symbol_text) (enc : text_encoding)
    (out : string) : result string :=
  match enc with
  | unicode_encoding =>
      if decide (CharT = unicode_char txt) then Ok (out +:+ unicode txt)
      else Err UnsupportedOption
  | ascii_encoding =>
      if decide (CharT = char) then Ok (out +:+ ascii txt)
      else Err UnsupportedOption
  end.

(** Modelled from the spec: the superscript digits of the absent
    [units/bits/external/text_tools.h], a fixed code point lookup. *)
Definition superscript_digit (c : Ascii.ascii) : string :=
  if decide (c = "0"%char) then "⁰"
  else if decide (c = "1"%char) then "¹"
  else if decide (c = "2"%char) then "²"
  else if decide (c = "3"%char) then "³"
  else if decide (c = "4"%char) then "⁴"
  else if decide (c = "5"%char) then "⁵"
  else if decide (c = "6"%char) then "⁶"
  else if decide (c = "7"%char) then "⁷"
  else if decide (c = "8"%char) then "⁸"
  else "⁹".

(** Modelled from the spec: the superscript rendering of a string of
    digits. *)
Fixpoint superscript_digits (s : string) : string :=
  match s with
  | EmptyString => EmptyString
  | String c s' => superscript_digit c +:+ superscript_digits s'
  end.

(** Modelled from the spec: [superscript_number<Value>] of the absent
    [units/bits/external/text_tools.h]. *)
Definition superscript_number (v : Z) : basic_symbol_text :=
  {| unicode_char := char;
     unicode := superscript_digits (pretty (Z.abs v)); ascii := pretty (Z.abs v) |}.

(** Modelled from the spec: [superscript_minus] of the absent
    [units/bits/external/text_tools.h]. *)
Definition superscript_minus : basic_symbol_text :=
  {| unicode_char := char; unicode := "⁻"; ascii := "-" |}.

(** Modelled from the spec: [superscript_prefix] of the absent
    [units/bits/external/text_tools.h], the [^] of the ASCII rendering. *)
Definition superscript_prefix : basic_symbol_text :=
  {| unicode_char := char; unicode := ""; ascii := "^" |}.

(** Modelled from the spec: [superscript<Value>()] of the absent
    [units/bits/external/text_tools.h]. *)
Definition superscript (v : Z) : basic_symbol_text :=
  if decide (v < 0)
  then symbol_append superscript_prefix (symbol_append superscript_minus (superscript_number (- v)))
  else symbol_append superscript_prefix (superscript_number v).

(** Modelled from the spec: [regular<Value>()] of the absent
    [units/bits/external/text_tools.h], the decimal digits. *)
Definition regular (v : Z) : string := pretty v.

(** [detail::base_multiplier] *)
Definition base_multiplier : basic_symbol_text :=
  {| unicode_char := char; unicode := "× 10"; ascii := "x 10" |}.

(** [detail::magnitude_text<M>()] *)
Definition magnitude_text (M : magnitude) : result basic_symbol_text :=
  let exp10 := extract_power_of_10 M in
  let base := mag_div M (mag_power 10 (ratio_of_Z exp10)) in
  let num := mag_numerator base in
  let den := mag_denominator base in
  if negb (mag_eqb base (mag_div num den)) then Err PrintingNotSupported
  else
    match get_value num, get_value den with
    | Some num_value, Some den_value =>
        if decide (num_value = 1 /\ den_value = 1 /\ exp10 <> 0) then
          Ok (symbol_append base_multiplier (superscript exp10))
        else if decide (num_value <> 1 \/ den_value <> 1 \/ exp10 <> 0) then
          let txt := symbol_text_of ("[" +:+ regular num_value) in
          if decide (den_value = 1) then
            if decide (exp10 = 0) then Ok (symbol_append txt (symbol_text_of "]"))
            else Ok (symbol_append txt
                       (symbol_append (symbol_text_of " ")
                          (symbol_append base_multiplier
                             (symbol_append (superscript exp10) (symbol_text_of "]")))))
          else
            if decide (exp10 = 0)
            then Ok (symbol_append txt (symbol_text_of ("/" +:+ regular den_value +:+ "]")))
            else Ok (symbol_append txt
                       (symbol_append (symbol_text_of ("/" +:+ regular den_value +:+ " "))
                          (symbol_append base_multiplier
                             (symbol_append (superscript exp10) (symbol_text_of "]")))))
        else Ok (symbol_text_of "")
    | _, _ => Err IllFormed
    end.

(** [detail::print_separator] *)
Definition print_separator (out : string) (fmt : unit_symbol_formatting) : result string :=
  if decide (separator fmt = dot) then
    if decide (encoding fmt <> unicode_encoding) then Err UnsupportedOption
    else Ok (out +:+ "⋅")
  else Ok (out +:+ " ").

(** [U::symbol]; the symbol of a prefixed unit is the prefix followed by the
    symbol of the unit. *)
Fixpoint symbol (u : unit) : basic_symbol_text :=
  match u with
  | named_unit _ Symbol => Symbol
  | named_unit_of _ Symbol _ => Symbol
  | prefixed_unit _ Symbol _ U => symbol_append Symbol (symbol U)
  | _ => symbol_text_of ""
  end.

Section unit_symbols.
Context `{TypeName}.

(** The type of the characters written, [char] unless the caller gives
    another one. *)
Variable CharT : char_type.

(** [unit_symbol_impl] over a [type_list] with the index sequence: every
    factor but the first is preceded by the separator. *)
Fixpoint print_factors (print : string -> factor -> result string)
    (fmt : unit_symbol_formatting) (l : list factor) (idx : nat) (out : string)
    : result string :=
  match l with
  | [] => Ok out
  | m :: l' =>
      out1 <- (if decide (0 < idx)%nat then print_separator out fmt else Ok out) ;;
      out2 <- print out1 m ;;
      print_factors print fmt l' (S idx) out2
  end.

(** [unit_symbol_impl] for a numerator and a denominator list. *)
Definition print_fraction (print : bool -> string -> factor -> result string)
    (fmt : unit_symbol_formatting) (nums dens : list factor) (out : string)
    : result string :=
  match nums, dens with
  | [], [] => Ok out
  | _, [] => print_factors (print false) fmt nums 0%nat out
  | _, _ =>
      out1 <- print_factors (print false) fmt nums 0%nat out ;;
      out2 <- (if decide (denominator fmt = always_solidus \/
                          (denominator fmt = solidus_one /\ length dens = 1%nat))
               then Ok ((if decide (length nums = 0%nat) then out1 +:+ "1" else out1) +:+ "/")
               else print_separator out1 fmt) ;;
      let out3 := if decide (denominator fmt = always_solidus /\ (1 < length dens)%nat)
                  then out2 +:+ "(" else out2 in
      let negative_power :=
        bool_decide (denominator fmt = always_negative \/
                     (denominator fmt = solidus_one /\ (1 < length dens)%nat)) in
      out4 <- print_factors (print negative_power) fmt dens 0%nat out3 ;;
      Ok (if decide (denominator fmt = always_solidus /\ (1 < length dens)%nat)
          then out4 +:+ ")" else out4)
  end.

(** [detail::unit_symbol_impl], one case per overload. *)
Fixpoint unit_symbol_impl (out : string) (u : unit) (fmt : unit_symbol_formatting)
    (negative_power : bool) {struct u} : result string :=
  let with_symbol :=
    out1 <- copy CharT (symbol u) (encoding fmt) out ;;
    if negative_power then copy CharT (superscript (-1)) (encoding fmt) out1 else Ok out1 in
  match u with
  | named_unit _ _ => with_symbol
  | named_unit_of _ _ _ => with_symbol
  | prefixed_unit _ _ _ _ => with_symbol
  | scaled_unit M U =>
      if mag_eqb M mag_one then unit_symbol_impl out U fmt negative_power
      else
        mag_txt <- magnitude_text M ;;
        out1 <- copy CharT mag_txt (encoding fmt) out ;;
        if derived_from U (derived_unit [] []) then Ok out1
        else unit_symbol_impl (out1 +:+ " ") U fmt negative_power
  | derived_unit nums dens =>
      if negative_power then Err ContractViolation
      else
        let print := fun np o f => factor_symbol_impl o f fmt np in
        match nums, dens with
        | [bare U], _ :: _ =>
            if derived_from U (derived_unit [] [])
            then print_fraction print fmt [] dens out
            else print_fraction print fmt nums dens out
        | _, _ => print_fraction print fmt nums dens out
        end
  | one => if negative_power then Err ContractViolation else Ok out
  end
with factor_symbol_impl (out : string) (f : factor) (fmt : unit_symbol_formatting)
    (negative_power : bool) {struct f} : result string :=
  match f with
  | bare U => unit_symbol_impl out U fmt negative_power
  | power F Num Den =>
      out1 <- unit_symbol_impl out F fmt false ;;
      let r := power_exponent Num Den in
      if decide (ratio_den r <> 1) then
        copy CharT (symbol_text_of ("^(" +:+ regular (ratio_num r) +:+ "/" +:+
                                      regular (ratio_den r) +:+ ")"))
             (encoding fmt) out1
      else if decide (ratio_num r <> 1) then
        copy CharT (superscript (if negative_power then - ratio_num r else ratio_num r))
             (encoding fmt) out1
      else Ok out1
  end.

(** [unit_symbol_to<CharT>] and [unit_symbol<CharT>] *)
Definition unit_symbol_to (out : string) (u : unit) (fmt : unit_symbol_formatting)
    : result string :=
  unit_symbol_impl out u fmt false.

Definition unit_symbol (u : unit) (fmt : unit_symbol_formatting) : result string :=
  unit_symbol_to "" u fmt.

End unit_symbols.

(** ** Output iterators

    [unit_symbol_to] writes through any output iterator.  An iterator is a
    value that refers to a sequence of characters; [write out s w] writes
    the characters of [s] through the iterator [out] to the sequence [w] and
    gives the iterator advanced past them and the sequence as written.  The
    printing functions below are those of the formatter again, with the
    iterator and the sequence passed along as the source passes them: where
    the source does not keep the iterator that a call returns, what was
    written stays written and the iterator stays where it was. *)
Class OutputIterator (Out Seq : Type) : Type :=
  write : Out -> string -> Seq -> Out * Seq.

Section output_iterators.
Context {Out Seq : Type} `{OutputIterator Out Seq}.
Variable CharT : char_type.

(** [detail::copy<CharT>(txt, encoding, out)] *)
Definition copy_to (txt : basic_symbol_text) (enc : text_encoding) (out : Out) (w : Seq)
    : result (Out * Seq) :=
  match enc with
  | unicode_encoding =>
      if decide (CharT = unicode_char txt) then Ok (write out (unicode txt) w)
      else Err UnsupportedOption
  | ascii_encoding =>
      if decide (CharT = char) then Ok (write out (ascii txt) w)
      else Err UnsupportedOption
  end.

(** [detail::print_separator]: the iterator that the copy of the dot
    returns is not kept, the space is written with [*out++]. *)
Definition print_separator_to (out : Out) (fmt : unit_symbol_formatting) (w : Seq)
    : result (Out * Seq) :=
  if decide (separator fmt = dot) then
    if decide (encoding fmt <> unicode_encoding) then Err UnsupportedOption
    else Ok (out, (write out "⋅" w).2)
  else Ok (write out " " w).

(** [unit_symbol_impl] over a [type_list] with the index sequence. *)
Fixpoint print_factors_to (print : Out -> Seq -> factor -> result (Out * Seq))
    (fmt : unit_symbol_formatting) (l : list factor) (idx : nat) (out : Out) (w : Seq)
    : result (Out * Seq) :=
  match l with
  | [] => Ok (out, w)
  | m :: l' =>
      p1 <- (if decide (0 < idx)%nat then print_separator_to out fmt w else Ok (out, w)) ;;
      p2 <- print p1.1 p1.2 m ;;
      print_factors_to print fmt l' (S idx) p2.1 p2.2
  end.

(** [unit_symbol_impl] for a numerator and a denominator list: the iterator
    that the call for the numerator returns is not kept. *)
Definition print_fraction_to (print : bool -> Out -> Seq -> factor -> result (Out * Seq))
    (fmt : unit_symbol_formatting) (nums dens : list factor) (out : Out) (w : Seq)
    : result (Out * Seq) :=
  match nums, dens with
  | [], [] => Ok (out, w)
  | _, [] => print_factors_to (print false) fmt nums 0%nat out w
  | _, _ =>
      p1 <- print_factors_to (print false) fmt nums 0%nat out w ;;
      p2 <- (if decide (denominator fmt = always_solidus \/
                        (denominator fmt = solidus_one /\ length dens = 1%nat))
             then (let p := if decide (length nums = 0%nat) then write out "1" p1.2
                            else (out, p1.2) in
                   Ok (write p.1 "/" p.2))
             else print_separator_to out fmt p1.2) ;;
      let p3 := if decide (denominator fmt = always_solidus /\ (1 < length dens)%nat)
                then write p2.1 "(" p2.2 else p2 in
      let negative_power :=
        bool_decide (denominator fmt = always_negative \/
                     (denominator fmt = solidus_one /\ (1 < length dens)%nat)) in
      p4 <- print_factors_to (print negative_power) fmt dens 0%nat p3.1 p3.2 ;;
      Ok (if decide (denominator fmt = always_solidus /\ (1 < length dens)%nat)
          then write p4.1 ")" p4.2 else p4)
  end.

(** [detail::unit_symbol_impl], one case per overload. *)
Fixpoint unit_symbol_impl_to (out : Out) (w : Seq) (u : unit) (fmt : unit_symbol_formatting)
    (negative_power : bool) {struct u} : result (Out * Seq) :=
  let with_symbol :=
    p <- copy_to (symbol u) (encoding fmt) out w ;;
    if negative_power then copy_to (superscript (-1)) (encoding fmt) p.1 p.2 else Ok p in
  match u with
  | named_unit _ _ => with_symbol
  | named_unit_of _ _ _ => with_symbol
  | prefixed_unit _ _ _ _ => with_symbol
  | scaled_unit M U =>
      if mag_eqb M mag_one then unit_symbol_impl_to out w U fmt negative_power
      else
        mag_txt <- magnitude_text M ;;
        p <- copy_to mag_txt (encoding fmt) out w ;;
        if derived_from U (derived_unit [] []) then Ok p
        else (let p' := write p.1 " " p.2 in
              unit_symbol_impl_to p'.1 p'.2 U fmt negative_power)
  | derived_unit nums dens =>
      if negative_power then Err ContractViolation
      else
        let print := fun np o s f => factor_symbol_impl_to o s f fmt np in
        match nums, dens with
        | [bare U], _ :: _ =>
            if derived_from U (derived_unit [] [])
            then print_fraction_to print fmt [] dens out w
            else print_fraction_to print fmt nums dens out w
        | _, _ => print_fraction_to print fmt nums dens out w
        end
  | one => if negative_power then Err ContractViolation else Ok (out, w)
  end
with factor_symbol_impl_to (out : Out) (w : Seq) (f : factor) (fmt : unit_symbol_formatting)
    (negative_power : bool) {struct f} : result (Out * Seq) :=
  match f with
  | bare U => unit_symbol_impl_to out w U fmt negative_power
  | power F Num Den =>
      p <- unit_symbol_impl_to out w F fmt false ;;
      let r := power_exponent Num Den in
      if decide (ratio_den r <> 1) then
        copy_to (symbol_text_of ("^(" +:+ regular (ratio_num r) +:+ "/" +:+
                                   regular (ratio_den r) +:+ ")"))
                (encoding fmt) p.1 p.2
      else if decide (ratio_num r <> 1) then
        copy_to (superscript (if negative_power then - ratio_num r else ratio_num r))
                (encoding fmt) p.1 p.2
      else Ok p
  end.

(** [unit_symbol_to<CharT>] for the iterator [out] into the sequence [w]. *)
Definition unit_symbol_through (out : Out) (w : Seq) (u : unit) (fmt : unit_symbol_formatting)
    : result (Out * Seq) :=
  unit_symbol_impl_to out w u fmt false.

End output_iterators.

(** [std::back_insert_iterator] for a string: every copy of the iterator
    appends to the string. *)
Definition back_inserter : OutputIterator () string :=
  fun _ s w => (tt, w +:+ s).

(** The characters of [s] over those of [w], from its first one on. *)
Fixpoint over (s w : string) : string :=
  match s with
  | EmptyString => w
  | String c s' =>
      String c (over s' (match w with
                         | EmptyString => EmptyString
                         | String _ w' => w'
                         end))
  end.

(** The characters of [s] written to the array [w] from the position [p]
    on.  The array is given by its first characters, those that follow are
    zero. *)
Fixpoint overwrite (p : nat) (s w : string) : string :=
  match p with
  | O => over s w
  | S p' =>
      match w with
      | EmptyString => String "000"%char (overwrite p' s EmptyString)
      | String c w' => String c (overwrite p' s w')
      end
  end.

(** A pointer into an array of characters, as its position: it writes where
    it points, and is advanced past what it wrote. *)
Definition char_pointer : OutputIterator nat string :=
  fun p s w => ((p + String.length s)%nat, overwrite p s w).

(** What a printing function through a back inserter gives, from what the
    function for a buffer gives. *)
Definition inserted (r : result string) : result (() * string) :=
  match r with
  | Ok s => Ok (tt, s)
  | Err e => Err e
  end.

(** ** Notions used in the statements *)

(** [a] is an integral multiple of [b]: [a = q * b], exponent by exponent,
    for an integral magnitude [q] (a positive integer). *)
Definition integer_multiple (a b : magnitude) : Prop :=
  exists q : magnitude,
    is_integral q = true /\
    forall i : basis, get_power i a = (get_power i q + get_power i b)%Qc.

(** What is left of [M] once the largest power of ten is factored out is the
    ratio of its numerator and its denominator, two integers: the condition
    asserted by [magnitude_text]. *)
Definition printable (M : magnitude) : Prop :=
  let base := mag_div M (mag_power 10 (ratio_of_Z (extract_power_of_10 M))) in
  base = mag_div (mag_numerator base) (mag_denominator base).

(** An entry of a magnitude that is absent or the integral power of a
    prime. *)
Definition rational_entry (i : basis) (x : option Qc) : Prop :=
  match x with
  | None => True
  | Some e => (exists p, i = prime_base p) /\ ratio_den e = 1
  end.

(** No [scaled_unit] is an element of a [derived_unit]; a unit that may be
    such an element is not a [scaled_unit] itself. *)
Fixpoint scaled_free (u : unit) : bool :=
  match u with
  | scaled_unit _ R => scaled_free R
  | derived_unit nums dens =>
      forallb factor_scaled_free nums && forallb factor_scaled_free dens
  | _ => true
  end
with factor_scaled_free (f : factor) : bool :=
  match f with
  | bare U => negb (is_specialization_of_scaled_unit U) && scaled_free U
  | power F _ _ => negb (is_specialization_of_scaled_unit F) && scaled_free F
  end.

Definition element_ok (u : unit) : Prop :=
  is_specialization_of_scaled_unit u = false /\ scaled_free u = true.

Definition factor_ok (f : factor) : Prop := element_ok (expr_type f).

(** The newton, unfolded. *)
Definition kilogram_metre_per_second_squared : unit :=
  unit_div (unit_mul si.kilogram si.metre) (square si.second).

(** A factor that is an atom of an expression: its unit is not a
    [derived_unit] and does not derive from [derived_unit<>]. *)
Definition atomic (f : factor) : Prop :=
  is_specialization_of_derived_unit (expr_type f) = false /\
  derived_from (expr_type f) (derived_unit [] []) = false.

Fixpoint duplicate (l : list factor) : list factor :=
  match l with
  | [] => []
  | a :: l' => a :: a :: duplicate l'
  end.

(** A list of factors as the expression templates keep it: sorted, over
    different units, with exponents other than zero. *)
Definition precedes `{TypeName} (a : factor) (l : list factor) : Prop :=
  match l with
  | [] => True
  | b :: _ => expr_less a b = true /\ unit_eqb (expr_type a) (expr_type b) = false
  end.

Fixpoint sorted_factors `{TypeName} (l : list factor) : Prop :=
  match l with
  | [] => True
  | a :: l' => precedes a l' /\ exponent_of a <> 0%Qc /\ sorted_factors l'
  end.

(** A unit with a symbol or a derived unit with sorted lists, possibly
    scaled. *)
Fixpoint sorted_expression `{TypeName} (u : unit) : Prop :=
  match u with
  | scaled_unit _ R => sorted_expression R
  | derived_unit nums dens => sorted_factors (num_list nums dens) /\ sorted_factors dens
  | one => False
  | _ => True
  end.

(** The number of unit types a unit type inherits from. *)
Fixpoint inheritance_depth (u : unit) : nat :=
  match u with
  | named_unit_of _ _ U => S (S (inheritance_depth U))
  | prefixed_unit _ _ M U => if mag_eqb M mag_one then S (S (inheritance_depth U)) else 1
  | one => 1
  | _ => 0
  end.

(** A unit whose [scaled_unit] wrappers, if any, hold magnitudes other
    than [mag<1>], as [operator*(M, U)] builds them. *)
Fixpoint properly_scaled (u : unit) : bool :=
  match u with
  | scaled_unit M R => negb (mag_eqb M mag_one) && properly_scaled R
  | _ => true
  end.

(** The exponent of the basis [i] in the canonical magnitude of a unit. *)
Definition canonical_power `{TypeName} (i : basis) (u : unit) : ratio :=
  get_power i (mag (get_canonical_unit u)).

(** The exponent a factor contributes: its own exponent times that of its
    unit. *)
Definition factor_power `{TypeName} (i : basis) (f : factor) : ratio :=
  (exponent_of f * canonical_power i (expr_type f))%Qc.

Fixpoint factors_power `{TypeName} (i : basis) (l : list factor) : ratio :=
  match l with
  | [] => 0%Qc
  | f :: l' => (factor_power i f + factors_power i l')%Qc
  end.

(** The unit inside the [scaled_unit] wrappers of a unit. *)
Fixpoint unscaled (u : unit) : unit :=
  match u with
  | scaled_unit _ R => unscaled R
  | _ => u
  end.

(** The exponent of the basis [i] in the product of the magnitudes of the
    [scaled_unit] wrappers of a unit. *)
Fixpoint scale_power (i : basis) (u : unit) : ratio :=
  match u with
  | scaled_unit M R => (get_power i M + scale_power i R)%Qc
  | _ => 0%Qc
  end.

(** The number of [scaled_unit] wrappers around a unit. *)
Fixpoint scale_depth (u : unit) : nat :=
  match u with
  | scaled_unit _ R => S (scale_depth R)
  | _ => 0%nat
  end.

(** A unit built from base units alone: a base unit (a type deriving from
    [named_unit<Symbol>], which the overload of [get_canonical_unit_impl]
    for base units returns as it is), [one], or a [derived_unit] whose
    factors are such units or powers of such units.  No [scaled_unit], no
    prefixed unit with a magnitude and no unit named after another unit
    occurs in it at any depth; a [derived_unit] may occur in it under a
    [power] node, and [one] among its factors. *)
Fixpoint from_base_units (u : unit) : bool :=
  match u with
  | named_unit _ _ => true
  | prefixed_unit _ _ M (named_unit _ _) => mag_eqb M mag_one
  | derived_unit nums dens =>
      forallb factor_from_base_units nums && forallb factor_from_base_units dens
  | one => true
  | _ => false
  end
with factor_from_base_units (f : factor) : bool :=
  match f with
  | bare U => from_base_units U
  | power F _ _ => from_base_units F
  end.

(** The factors of a list printed from the index [idx] on need a
    separator: [unit_symbol_impl] over a [type_list] calls
    [print_separator] for an index other than zero, and a factor may need a
    separator itself. *)
Fixpoint factors_need_separator (needs : factor -> bool) (l : list factor) (idx : nat) : bool :=
  match l with
  | [] => false
  | m :: l' => bool_decide (0 < idx)%nat || (needs m || factors_need_separator needs l' (S idx))
  end.

(** The symbol of a numerator and a denominator list needs a separator:
    [print_separator] is called for every factor of a list but the first
    ([Idx > 0]) and between the numerator and a denominator that is not put
    after a solidus, and a factor may need one itself. *)
Definition fraction_needs_separator (needs : factor -> bool) (d : unit_symbol_denominator)
    (nums dens : list factor) : bool :=
  existsb needs nums || bool_decide (1 < length nums)%nat ||
  match dens with
  | [] => false
  | _ :: _ =>
      negb (bool_decide (d = always_solidus \/ (d = solidus_one /\ length dens = 1%nat))) ||
      existsb needs dens || bool_decide (1 < length dens)%nat
  end.

(** The symbol of a unit needs a separator: [unit_symbol_impl], printing the
    unit with the denominator option [d], calls [print_separator], unless it
    fails before.  The cases are those of [unit_symbol_impl]. *)
Fixpoint needs_separator (d : unit_symbol_denominator) (u : unit) {struct u} : bool :=
  match u with
  | named_unit _ _ => false
  | named_unit_of _ _ _ => false
  | prefixed_unit _ _ _ _ => false
  | scaled_unit M U =>
      if mag_eqb M mag_one then needs_separator d U
      else if derived_from U (derived_unit [] []) then false
      else needs_separator d U
  | derived_unit nums dens =>
      match nums, dens with
      | [bare U], _ :: _ =>
          if derived_from U (derived_unit [] [])
          then fraction_needs_separator (factor_needs_separator d) d [] dens
          else fraction_needs_separator (factor_needs_separator d) d nums dens
      | _, _ => fraction_needs_separator (factor_needs_separator d) d nums dens
      end
  | one => false
  end
with factor_needs_separator (d : unit_symbol_denominator) (f : factor) {struct f} : bool :=
  match f with
  | bare U => needs_separator d U
  | power F _ _ => needs_separator d F
  end.

(** How the result [rd] of a printing function for the dot separator under
    the ASCII encoding stands to its result [rs] for the space: when a
    separator is needed, [rd] is a failure, that of the separator or the
    failure that [rs] is; when none is needed, the two are the same. *)
Definition separator_failure {A : Type} (needed : bool) (rd rs : result A) : Prop :=
  if needed then exists e : error, rd = Err e /\ (e = UnsupportedOption \/ rs = Err e)
  else rd = rs.

(** The condition under which [detail::copy<CharT>] copies a text: the
    rendering that the encoding selects is a text over [CharT] (the ASCII
    rendering is a text over [char]). *)
Definition copyable (CharT : char_type) (txt : basic_symbol_text) (enc : text_encoding) : bool :=
  match enc with
  | unicode_encoding => bool_decide (CharT = unicode_char txt)
  | ascii_encoding => bool_decide (CharT = char)
  end.

(** Every symbol of the unit can be copied: it is a text over [CharT] in
    the encoding. *)
Fixpoint symbols_copyable (CharT : char_type) (enc : text_encoding) (u : unit) : bool :=
  match u with
  | named_unit _ Symbol => copyable CharT Symbol enc
  | named_unit_of _ Symbol _ => copyable CharT Symbol enc
  | prefixed_unit _ Symbol _ _ => copyable CharT Symbol enc
  | scaled_unit _ U => symbols_copyable CharT enc U
  | derived_unit nums dens =>
      forallb (factor_symbols_copyable CharT enc) nums &&
      forallb (factor_symbols_copyable CharT enc) dens
  | one => true
  end
with factor_symbols_copyable (CharT : char_type) (enc : text_encoding) (f : factor) : bool :=
  match f with
  | bare U => symbols_copyable CharT enc U
  | power F _ _ => symbols_copyable CharT enc F
  end.

(** What a printing function gives for the buffer [out] when it appends to
    it what it prints to the empty buffer. *)
Definition appended (out : string) (r : result string) : result string :=
  match r with
  | Ok s => Ok (out +:+ s)
  | Err e => Err e
  end.

(** A printing function that appends to its buffer. *)
Definition appends (p : string -> result string) : Prop :=
  forall out : string, p out = appended out (p "").

(** The text [print_separator] writes. *)
Definition separator_text (fmt : unit_symbol_formatting) : string :=
  match separator fmt with
  | dot => "⋅"
  | space => " "
  end.

(** The flag [negative_power] with which [unit_symbol_impl] prints the
    factors of a denominator. *)
Definition negative_powers (fmt : unit_symbol_formatting) (dens : list factor) : bool :=
  match denominator fmt with
  | always_negative => true
  | solidus_one => bool_decide (1 < length dens)%nat
  | always_solidus => false
  end.

(** The symbol of a fraction, from the texts of the factors of its
    numerator and of its (not empty) denominator: [m/s], [kg/(m s)],
    [kg m⁻¹ s⁻¹]. *)
Definition fraction_text (fmt : unit_symbol_formatting) (tn td : list string) : string :=
  let sep := separator_text fmt in
  let solidus := (match tn with [] => "1" | _ => String.concat sep tn end) +:+ "/" in
  match denominator fmt with
  | always_solidus =>
      solidus +:+ (if bool_decide (1 < length td)%nat
                   then "(" +:+ String.concat sep td +:+ ")"
                   else String.concat sep td)
  | solidus_one =>
      if bool_decide (length td = 1%nat)
      then solidus +:+ String.concat sep td
      else String.concat sep tn +:+ sep +:+ String.concat sep td
  | always_negative => String.concat sep tn +:+ sep +:+ String.concat sep td
  end.

(** * Properties *)

(** Closed statements about concrete units are settled by evaluation, one
    conjunct at a time. *)
Ltac conjuncts := repeat match goal with |- _ /\ _ => split end.
Ltac evaluate := cbv zeta; conjuncts; try (vm_compute; reflexivity).

(** Induction over unit types, with the factors of a derived unit covered. *)
Section unit_induction.
Variable P : unit -> Prop.
Variable Q : factor -> Prop.
Hypothesis Hnamed : forall name Symbol, P (named_unit name Symbol).
Hypothesis Hnamed_of : forall name Symbol U, P U -> P (named_unit_of name Symbol U).
Hypothesis Hprefixed : forall name Symbol M U, P U -> P (prefixed_unit name Symbol M U).
Hypothesis Hscaled : forall M U, P U -> P (scaled_unit M U).
Hypothesis Hderived : forall nums dens, Forall Q nums -> Forall Q dens -> P (derived_unit nums dens).
Hypothesis Hone : P one.
Hypothesis Hbare : forall U, P U -> Q (bare U).
Hypothesis Hpower : forall F Num Den, P F -> Q (power F Num Den).

Fixpoint unit_ind' (u : unit) : P u :=
    match u with
    | named_unit name Symbol => Hnamed name Symbol
    | named_unit_of name Symbol U => Hnamed_of name Symbol U (unit_ind' U)
    | prefixed_unit name Symbol M U => Hprefixed name Symbol M U (unit_ind' U)
    | scaled_unit M U => Hscaled M U (unit_ind' U)
    | derived_unit nums dens =>
        Hderived nums dens
          ((fix go (l : list factor) : Forall Q l :=
              match l with
              | [] => @List.Forall_nil _ Q
              | f :: l' => @List.Forall_cons _ Q f l' (factor_ind' f) (go l')
              end) nums)
          ((fix go (l : list factor) : Forall Q l :=
              match l with
              | [] => @List.Forall_nil _ Q
              | f :: l' => @List.Forall_cons _ Q f l' (factor_ind' f) (go l')
              end) dens)
    | one => Hone
    end
  with factor_ind' (f : factor) : Q f :=
    match f with
    | bare U => Hbare U (unit_ind' U)
    | power F Num Den => Hpower F Num Den (unit_ind' F)
    end.

Lemma unit_factor_ind : (forall u, P u) /\ (forall f, Q f).
  Proof. split; [exact unit_ind' | exact factor_ind']. Qed.
End unit_induction.

(** ** [is_same_v] decides the equality of unit types *)

Lemma unit_eqb_derived n1 d1 n2 d2 :
  unit_eqb (derived_unit n1 d1) (derived_unit n2 d2) = factors_eqb n1 n2 && factors_eqb d1 d2.
Proof. reflexivity. Qed.

Lemma factors_eqb_spec l1 :
  Forall (fun f => forall g, factor_eqb f g = true <-> f = g) l1 ->
  forall l2, factors_eqb l1 l2 = true <-> l1 = l2.
Proof.
  induction 1 as [|f l1 Hf _ IH]; intros [|g l2]; simpl; try (split; [discriminate|congruence]).
  - split; reflexivity.
  - rewrite andb_true_iff, Hf, IH. split; [intros [-> ->]|intros [= -> ->]]; auto.
Qed.

Lemma unit_factor_eqb_spec :
  (forall a b, unit_eqb a b = true <-> a = b) /\
  (forall f g, factor_eqb f g = true <-> f = g).
Proof.
  apply unit_factor_ind.
  - intros n1 s1 [] ; simpl; try (split; [discriminate|congruence]).
    rewrite andb_true_iff, !bool_decide_eq_true. split; [intros [-> ->]|intros [= -> ->]]; auto.
  - intros n1 s1 U1 IH []; simpl; try (split; [discriminate|congruence]).
    rewrite !andb_true_iff, !bool_decide_eq_true, IH.
    split; [intros [[-> ->] ->]|intros [= -> -> ->]]; auto.
  - intros n1 s1 M1 U1 IH []; simpl; try (split; [discriminate|congruence]).
    unfold mag_eqb. rewrite !andb_true_iff, !bool_decide_eq_true, IH.
    split; [intros [[[-> ->] ->] ->]|intros [= -> -> -> ->]]; auto.
  - intros M1 U1 IH []; simpl; try (split; [discriminate|congruence]).
    unfold mag_eqb. rewrite !andb_true_iff, !bool_decide_eq_true, IH.
    split; [intros [-> ->]|intros [= -> ->]]; auto.
  - intros n1 d1 Hn Hd []; try (simpl; split; [discriminate|congruence]).
    rewrite unit_eqb_derived, andb_true_iff.
    rewrite (factors_eqb_spec _ Hn), (factors_eqb_spec _ Hd).
    split; [intros [-> ->]|intros [= -> ->]]; auto.
  - intros []; simpl; try (split; [discriminate|congruence]). split; reflexivity.
  - intros U1 IH []; simpl; try (split; [discriminate|congruence]).
    rewrite IH. split; [intros ->|intros [= ->]]; auto.
  - intros F1 n1 d1 IH []; simpl; try (split; [discriminate|congruence]).
    rewrite !andb_true_iff, !bool_decide_eq_true, IH.
    split; [intros [[-> ->] ->]|intros [= -> -> ->]]; auto.
Qed.

Lemma unit_eqb_eq a b : unit_eqb a b = true <-> a = b.
Proof. apply unit_factor_eqb_spec. Qed.

Lemma factor_eqb_eq f g : factor_eqb f g = true <-> f = g.
Proof. apply unit_factor_eqb_spec. Qed.

Lemma unit_eqb_refl a : unit_eqb a a = true.
Proof. by apply unit_eqb_eq. Qed.

Lemma unit_eqb_neq a b : unit_eqb a b = false <-> a <> b.
Proof.
  destruct (unit_eqb a b) eqn:E.
  - apply unit_eqb_eq in E. split; [discriminate|done].
  - split; [|done]. intros _ Hab. apply unit_eqb_eq in Hab. congruence.
Qed.

Lemma mag_eqb_eq (a b : magnitude) : mag_eqb a b = true <-> a = b.
Proof. unfold mag_eqb. apply bool_decide_eq_true. Qed.

Lemma bind_ok {A B : Type} (r : result A) (k : A -> result B) (b : B) :
  bind r k = Ok b -> exists a, r = Ok a /\ k a = Ok b.
Proof. destruct r as [a|e]; simpl; [eauto|discriminate]. Qed.

(** ** Magnitude arithmetic, basis by basis *)

Lemma mag_mul_one_l (m : magnitude) : mag_mul mag_one m = m.
Proof.
  apply map_eq. intros i. unfold mag_mul, mag_one.
  rewrite lookup_merge, lookup_empty. by destruct (m !! i).
Qed.

Lemma mag_mul_one_r (m : magnitude) : mag_mul m mag_one = m.
Proof.
  apply map_eq. intros i. unfold mag_mul, mag_one.
  rewrite lookup_merge, lookup_empty. by destruct (m !! i).
Qed.

Lemma default_nonzero (e : Qc) : default 0%Qc (nonzero e) = e.
Proof. unfold nonzero. destruct (decide (e = 0%Qc)) as [->|]; reflexivity. Qed.

Lemma get_power_mul (b : basis) (x y : magnitude) :
  get_power b (mag_mul x y) = (get_power b x + get_power b y)%Qc.
Proof.
  unfold get_power, mag_mul. rewrite lookup_merge.
  destruct (x !! b) as [a|], (y !! b) as [c|]; simpl.
  - apply default_nonzero.
  - ring.
  - ring.
  - ring.
Qed.

Lemma get_power_pow (b : basis) (r : ratio) (x : magnitude) :
  get_power b (mag_pow r x) = (r * get_power b x)%Qc.
Proof.
  unfold get_power, mag_pow. rewrite lookup_omap.
  destruct (x !! b) as [a|]; simpl.
  - apply default_nonzero.
  - ring.
Qed.

Lemma get_power_div (b : basis) (x y : magnitude) :
  get_power b (mag_div x y) = (get_power b x - get_power b y)%Qc.
Proof. unfold mag_div. rewrite get_power_mul, get_power_pow. ring. Qed.

(** ** Canonical units of derived units *)

(** The numerator of a derived unit is canonicalised as the unit
    [derived_unit<_num_...>]. *)
Lemma get_canonical_unit_derived `{TypeName} nums dens :
  get_canonical_unit (derived_unit nums dens) =
    match dens with
    | [] => canonical_product get_canonical_factor nums
    | _ :: _ =>
        let num := canonical_product get_canonical_factor (num_list nums dens) in
        let den := canonical_product get_canonical_factor dens in
        {| mag := mag_div (mag num) (mag den);
           reference_unit := unit_div (reference_unit num) (reference_unit den) |}
    end.
Proof.
  unfold get_canonical_unit, num_list. destruct dens as [|d dens]; [reflexivity|].
  destruct nums as [|[U|F n dn] [|g nums]]; try reflexivity.
  cbn [get_canonical_unit_impl]. destruct (derived_from U (derived_unit [] [])); reflexivity.
Qed.

Lemma num_list_elem_of (nums dens : list factor) (f : factor) :
  f ∈ num_list nums dens -> f ∈ nums.
Proof.
  unfold num_list. destruct nums as [|[U|F x y] [|g nums]], dens as [|d dens]; try done.
  destruct (derived_from U (derived_unit [] [])); [|done]. by intros ?%not_elem_of_nil.
Qed.

Lemma unit_symbol_derived `{TypeName} c out nums dens fmt :
  unit_symbol_impl c out (derived_unit nums dens) fmt false =
    print_fraction (fun np o f => factor_symbol_impl c o f fmt np) fmt
                   (num_list nums dens) dens out.
Proof.
  unfold num_list. cbn [unit_symbol_impl].
  destruct nums as [|[U|F n dn] [|g nums]], dens as [|d dens]; try reflexivity.
  destruct (derived_from U (derived_unit [] [])); reflexivity.
Qed.

(** ** Equality and convertibility *)

Lemma unit_eq_iff `{TypeName} (U1 U2 : unit) :
  unit_eq U1 U2 = true <->
  reference_unit (get_canonical_unit U1) = reference_unit (get_canonical_unit U2) /\
  mag (get_canonical_unit U1) = mag (get_canonical_unit U2).
Proof.
  unfold unit_eq, mag_eqb. cbv zeta.
  rewrite andb_true_iff, unit_eqb_eq, bool_decide_eq_true. reflexivity.
Qed.

Lemma convertible_iff `{TypeName} (U1 U2 : unit) :
  convertible U1 U2 = true <->
  reference_unit (get_canonical_unit U1) = reference_unit (get_canonical_unit U2).
Proof. unfold convertible. cbv zeta. apply unit_eqb_eq. Qed.

Lemma unit_eq_refl `{TypeName} (U : unit) : unit_eq U U = true.
Proof. by apply unit_eq_iff. Qed.

Lemma unit_eq_convertible `{TypeName} (U1 U2 : unit) :
  unit_eq U1 U2 = true -> convertible U1 U2 = true.
Proof. rewrite unit_eq_iff, convertible_iff. tauto. Qed.

(** C1.  [operator==] answers true exactly when the canonical units of the
    operands have the same reference unit type and equal magnitudes; the
    inverse of the second equals the hertz, the metre does not equal the
    kilometre. *)
Theorem unit_eq_canonical `{TypeName} :
  (forall U1 U2 : unit,
      unit_eq U1 U2 = true <->
      reference_unit (get_canonical_unit U1) = reference_unit (get_canonical_unit U2) /\
      mag (get_canonical_unit U1) = mag (get_canonical_unit U2)) /\
  unit_inv 1 si.second = Ok (expr_invert si.second) /\
  unit_eq (expr_invert si.second) si.hertz = true /\
  unit_eq si.metre si.kilometre = false.
Proof.
  split; [exact unit_eq_iff|].
  split; [reflexivity|]. split; vm_compute; reflexivity.
Qed.

(** C2.  [convertible] answers true exactly when the canonical units of the
    operands have the same reference unit type, whatever their magnitudes;
    the metre is convertible to the kilometre (whose canonical magnitude is
    another one) and not to the second. *)
Theorem convertible_canonical `{TypeName} :
  (forall U1 U2 : unit,
      convertible U1 U2 = true <->
      reference_unit (get_canonical_unit U1) = reference_unit (get_canonical_unit U2)) /\
  convertible si.metre si.kilometre = true /\
  mag (get_canonical_unit si.metre) <> mag (get_canonical_unit si.kilometre) /\
  convertible si.metre si.second = false.
Proof.
  split; [exact convertible_iff|].
  split; [vm_compute; reflexivity|].
  split; [|vm_compute; reflexivity].
  intros E. apply (f_equal (fun m => bool_decide (m = mag_one))) in E.
  vm_compute in E. discriminate.
Qed.

(** The examples of the documentation of [derived_unit]: [1 / second],
    [1 / (1 / second)], [one * second], [metre * metre], [metre * second],
    [metre / second], [metre / square<second>] and [newton / hertz] have the
    types it gives. *)
Lemma documented_types :
  unit_inv 1 si.second = Ok (derived_unit [bare one] [bare si.second]) /\
  (v <- unit_inv 1 si.second ;; unit_inv 1 v) = Ok si.second /\
  unit_mul one si.second = si.second /\
  unit_mul si.metre si.metre = derived_unit [power si.metre 2 None] [] /\
  unit_mul si.metre si.second = derived_unit [bare si.metre; bare si.second] [] /\
  unit_div si.metre si.second = derived_unit [bare si.metre] [bare si.second] /\
  unit_div si.metre (square si.second)
  = derived_unit [bare si.metre] [power si.second 2 None] /\
  unit_div si.newton si.hertz = derived_unit [bare si.newton] [bare si.hertz].
Proof. evaluate. Qed.

(** Its examples of equal and of convertible units: [1/s] and [Hz], [Hz] and
    [Bq] are convertible and equal; [m] and [km] are convertible, not equal;
    [m] and [m²] are neither. *)
Lemma documented_equalities :
  unit_eq (expr_invert si.second) si.hertz = true /\
  convertible (expr_invert si.second) si.hertz = true /\
  unit_eq si.hertz si.becquerel = true /\
  convertible si.metre si.kilometre = true /\
  unit_eq si.metre si.kilometre = false /\
  convertible si.metre (square si.metre) = false /\
  unit_eq si.metre (square si.metre) = false.
Proof. evaluate. Qed.

(** ** Inversion: [1 / U] *)

(** C8.  [n / U] is the inversion of [U]; it expects [n == 1]: with [n = 1]
    the result is the inverted unit expression, any other [n] violates the
    contract and scales nothing. *)
Theorem unit_inv_expects_one (n : Z) (u : unit) :
  (n = 1 -> unit_inv n u = Ok (expr_invert u)) /\
  (n <> 1 -> unit_inv n u = Err ContractViolation).
Proof.
  unfold unit_inv. split; intros Hn; destruct (decide (n = 1)); congruence.
Qed.

Lemma unit_inv_expects_one_witness :
  unit_inv 1 si.second = Ok (derived_unit [bare one] [bare si.second]) /\
  unit_inv 2 si.second = Err ContractViolation.
Proof.
  split.
  - apply (proj1 (unit_inv_expects_one 1 si.second)). reflexivity.
  - apply (proj2 (unit_inv_expects_one 2 si.second)). discriminate.
Defined.

(** The result never depends on the integer. *)
Lemma unit_inv_ok (n : Z) (u v : unit) :
  unit_inv n u = Ok v -> n = 1 /\ v = expr_invert u.
Proof.
  unfold unit_inv. destruct (decide (n = 1)); [|discriminate].
  intros [= <-]. by split.
Qed.

(** The canonical magnitude of the inverse of a unit other than a
    [derived_unit] is the inverse of its canonical magnitude. *)
Lemma expr_invert_magnitude `{TypeName} (u : unit) :
  is_specialization_of_derived_unit u = false ->
  mag (get_canonical_unit (expr_invert u)) = mag_pow (-1)%Qc (mag (get_canonical_unit u)).
Proof.
  intros Hu.
  assert (E : expr_invert u = derived_unit [bare one] [bare u]) by (by destruct u).
  rewrite E, get_canonical_unit_derived. cbv zeta. cbn [num_list derived_from unit_eqb orb].
  cbn [canonical_product fold_left mag get_canonical_factor].
  unfold mag_div. by rewrite !mag_mul_one_l.
Qed.

(** ** Scaling by a magnitude: [M * U] *)

(** C6, as the code has it.  [M * U] is [U] itself for the identity
    magnitude and [scaled_unit<M, U>] otherwise, so that this operator never
    wraps a unit with the identity magnitude; and [operator==], which
    compares canonical units, does not tell a unit wrapped with the identity
    magnitude from the unit itself. *)
Theorem mag_times_identity `{TypeName} :
  (forall U : unit, mag_times mag_one U = U) /\
  (forall (M : magnitude) (U : unit), M <> mag_one -> mag_times M U = scaled_unit M U) /\
  (forall (M : magnitude) (U U' : unit),
      mag_times M U = scaled_unit mag_one U' -> M = mag_one /\ U = scaled_unit mag_one U') /\
  (forall U : unit, unit_eq (scaled_unit mag_one U) U = true).
Proof.
  unfold mag_times, mag_eqb. split; [|split; [|split]].
  - reflexivity.
  - intros M U HM. by rewrite bool_decide_eq_false_2.
  - intros M U U'. destruct (bool_decide_reflect (M = mag_one)) as [->|HM].
    + by intros ->.
    + intros [= -> _]. by destruct HM.
  - intros U. apply unit_eq_iff. unfold get_canonical_unit.
    cbn [get_canonical_unit_impl mag reference_unit].
    by rewrite mag_mul_one_l.
Qed.

Lemma mag_two_not_one : mag_of 2 <> mag_one.
Proof.
  intros E. apply (f_equal (fun m => bool_decide (m = mag_one))) in E.
  vm_compute in E. discriminate.
Defined.

Lemma mag_times_identity_witness :
  mag_of 2 <> mag_one /\
  mag_times (mag_of 2) si.metre = scaled_unit (mag_of 2) si.metre.
Proof.
  split; [exact mag_two_not_one|].
  exact (proj1 (proj2 (@mag_times_identity compiler_names)) (mag_of 2) si.metre mag_two_not_one).
Defined.

(** A unit wrapped with the identity magnitude does exist as a value: the
    common unit of [2 m] and [3 m] is [scaled_unit<mag<1>, metre>], built by
    [common_type_impl] without going through [M * U]. *)
Lemma identity_scaled_unit_exists :
  convertible (mag_times (mag_of 2) si.metre) (mag_times (mag_of 3) si.metre) = true /\
  common_type (mag_times (mag_of 2) si.metre) (mag_times (mag_of 3) si.metre)
  = Ok (scaled_unit mag_one si.metre).
Proof. split; vm_compute; reflexivity. Qed.

(** ** The separator of the formatter *)

Lemma separator_failure_same {A : Type} (needed : bool) (r : result A) (e : error) :
  r = Err e -> separator_failure needed r r.
Proof. intros ->. destruct needed; cbn; [|reflexivity]. exists e. split; [reflexivity|by right]. Qed.

Lemma separator_failure_bind {A B : Type} (b1 b2 : bool) (rd rs : result A)
    (kd ks : A -> result B) :
  separator_failure b1 rd rs ->
  (forall a : A, separator_failure b2 (kd a) (ks a)) ->
  separator_failure (b1 || b2) (bind rd kd) (bind rs ks).
Proof.
  intros H1 H2. destruct b1; cbn in H1 |- *.
  - destruct H1 as (e & -> & He). exists e. cbn [bind]. split; [reflexivity|].
    destruct He as [He| ->]; [by left|by right].
  - rewrite <- H1. destruct rd as [a|e]; cbn [bind]; [apply H2|].
    by apply (separator_failure_same b2 (Err e) e).
Qed.

Section separator.
Context `{TypeName}.
Variable d : unit_symbol_denominator.

Let fmt : unit_symbol_formatting :=
  {| encoding := ascii_encoding; denominator := d; separator := dot |}.

Let fmt_space : unit_symbol_formatting :=
  {| encoding := ascii_encoding; denominator := d; separator := space |}.

Lemma print_separator_ascii_dot (out : string) : print_separator out fmt = Err UnsupportedOption.
Proof. reflexivity. Qed.

Lemma print_factors_ascii_dot print (l : list factor) (idx : nat) (out s : string) :
  print_factors print fmt l idx out = Ok s ->
  (length l <= 1)%nat /\ ((0 < idx)%nat -> l = []).
Proof.
  destruct l as [|m l]; simpl; [intros _; split; [lia|done]|].
  destruct (decide (0 < idx)%nat) as [Hidx|Hidx].
  - rewrite print_separator_ascii_dot. discriminate.
  - simpl. destruct (print out m) as [out2|e]; simpl; [|discriminate].
    destruct l as [|m' l]; simpl; [intros _; split; [lia|intros; lia]|].
    discriminate.
Qed.

Lemma print_fraction_ascii_dot print (nums dens : list factor) (out s : string) :
  print_fraction print fmt nums dens out = Ok s ->
  (length nums <= 1)%nat /\ (length dens <= 1)%nat /\ (dens <> [] -> d <> always_negative).
Proof.
  unfold print_fraction. intros Hp.
  destruct dens as [|dn dens].
  - destruct nums as [|n nums]; [simpl; repeat split; [lia..|done]|].
    apply print_factors_ascii_dot in Hp as [Hlen _].
    repeat split; [exact Hlen|simpl; lia|done].
  - assert (exists out1 out2 out3 np,
               print_factors (print false) fmt nums 0 out = Ok out1 /\
               (if decide (d = always_solidus \/ d = solidus_one /\ length (dn :: dens) = 1%nat)
                then Ok ((if decide (length nums = 0%nat) then out1 +:+ "1" else out1) +:+ "/")
                else print_separator out1 fmt) = Ok out2 /\
               exists out4, print_factors (print np) fmt (dn :: dens) 0 out3 = Ok out4)
      as (out1 & out2 & out3 & np & H1 & H2 & out4 & H4).
    { destruct nums as [|n nums];
        apply bind_ok in Hp as (out1 & H1 & Hp);
        apply bind_ok in Hp as (out2 & H2 & Hp); cbv zeta in Hp;
        apply bind_ok in Hp as (out4 & H4 & _); eauto 10. }
    apply print_factors_ascii_dot in H1 as [Hn _].
    apply print_factors_ascii_dot in H4 as [Hdn _].
    destruct (decide (d = always_solidus \/ d = solidus_one /\ length (dn :: dens) = 1%nat))
      as [Hd|Hd]; [|discriminate].
    repeat split; [exact Hn|exact Hdn|].
    intros _ ->. destruct Hd as [Hd|[Hd _]]; discriminate.
Qed.

Lemma factors_need_separator_rest (needs : factor -> bool) (l : list factor) (idx : nat) :
  (0 < idx)%nat -> factors_need_separator needs l idx = bool_decide (l <> []).
Proof.
  intros Hidx. destruct l as [|m l]; cbn [factors_need_separator]; [done|].
  by rewrite (bool_decide_eq_true_2 _ Hidx).
Qed.

Lemma factors_need_separator_first (needs : factor -> bool) (l : list factor) :
  factors_need_separator needs l 0 = existsb needs l || bool_decide (1 < length l)%nat.
Proof.
  destruct l as [|m l]; cbn [factors_need_separator existsb length]; [done|].
  rewrite factors_need_separator_rest by lia.
  rewrite (bool_decide_eq_false_2 (0 < 0)%nat) by lia. cbn [orb].
  destruct l as [|m' l]; cbn [existsb length].
  - rewrite (bool_decide_eq_false_2 ([] <> [])) by (by intros []).
    rewrite (bool_decide_eq_false_2 (1 < 1)%nat) by lia. by rewrite !orb_false_r.
  - rewrite (bool_decide_eq_true_2 (m' :: l <> [])) by done.
    rewrite (bool_decide_eq_true_2 (1 < S (S (length l)))%nat) by lia.
    by rewrite !orb_true_r.
Qed.

Section factors.
Variables pd ps : string -> factor -> result string.
Variable needs : factor -> bool.

Lemma print_factors_separator (l : list factor) :
  Forall (fun f => forall out, separator_failure (needs f) (pd out f) (ps out f)) l ->
  forall idx out,
    separator_failure (factors_need_separator needs l idx)
      (print_factors pd fmt l idx out) (print_factors ps fmt_space l idx out).
Proof.
  induction 1 as [|m l Hm Hl IH]; intros idx out; [reflexivity|].
  cbn [print_factors factors_need_separator].
  apply separator_failure_bind.
  - destruct (decide (0 < idx)%nat) as [Hidx|Hidx].
    + rewrite (bool_decide_eq_true_2 _ Hidx). exists UnsupportedOption. by split; [|left].
    + by rewrite (bool_decide_eq_false_2 _ Hidx).
  - intros out1. apply separator_failure_bind; [apply Hm|]. intros out2. apply IH.
Qed.
End factors.

Lemma print_fraction_separator (pd ps : bool -> string -> factor -> result string)
    (needs : factor -> bool) (nums dens : list factor) (out : string) :
  (forall np, Forall (fun f => forall out, separator_failure (needs f) (pd np out f) (ps np out f))
                nums) ->
  (forall np, Forall (fun f => forall out, separator_failure (needs f) (pd np out f) (ps np out f))
                dens) ->
  separator_failure (fraction_needs_separator needs d nums dens)
    (print_fraction pd fmt nums dens out) (print_fraction ps fmt_space nums dens out).
Proof.
  intros Hn Hd. unfold fraction_needs_separator. rewrite <- factors_need_separator_first.
  assert (G : forall dn dens',
             dens = dn :: dens' ->
             separator_failure
               (factors_need_separator needs nums 0 ||
                (negb (bool_decide (d = always_solidus \/ (d = solidus_one /\ length dens = 1%nat))) ||
                 existsb needs dens || bool_decide (1 < length dens)%nat))
               (out1 <- print_factors (pd false) fmt nums 0%nat out ;;
                out2 <- (if decide (d = always_solidus \/ (d = solidus_one /\ length dens = 1%nat))
                         then Ok ((if decide (length nums = 0%nat) then out1 +:+ "1" else out1) +:+ "/")
                         else print_separator out1 fmt) ;;
                let out3 := if decide (d = always_solidus /\ (1 < length dens)%nat)
                            then out2 +:+ "(" else out2 in
                let negative_power :=
                  bool_decide (d = always_negative \/ (d = solidus_one /\ (1 < length dens)%nat)) in
                out4 <- print_factors (pd negative_power) fmt dens 0%nat out3 ;;
                Ok (if decide (d = always_solidus /\ (1 < length dens)%nat)
                    then out4 +:+ ")" else out4))
               (out1 <- print_factors (ps false) fmt_space nums 0%nat out ;;
                out2 <- (if decide (d = always_solidus \/ (d = solidus_one /\ length dens = 1%nat))
                         then Ok ((if decide (length nums = 0%nat) then out1 +:+ "1" else out1) +:+ "/")
                         else print_separator out1 fmt_space) ;;
                let out3 := if decide (d = always_solidus /\ (1 < length dens)%nat)
                            then out2 +:+ "(" else out2 in
                let negative_power :=
                  bool_decide (d = always_negative \/ (d = solidus_one /\ (1 < length dens)%nat)) in
                out4 <- print_factors (ps negative_power) fmt_space dens 0%nat out3 ;;
                Ok (if decide (d = always_solidus /\ (1 < length dens)%nat)
                    then out4 +:+ ")" else out4))).
  { intros dn dens' Hdens.
    apply separator_failure_bind; [by apply print_factors_separator|]. intros out1.
    rewrite <- orb_assoc. apply separator_failure_bind.
    - destruct (decide (d = always_solidus \/ (d = solidus_one /\ length dens = 1%nat))) as [Hs|Hs].
      + by rewrite (bool_decide_eq_true_2 _ Hs).
      + rewrite (bool_decide_eq_false_2 _ Hs). exists UnsupportedOption. by split; [|left].
    - intros out2. cbv zeta. rewrite <- factors_need_separator_first.
      rewrite <- (orb_false_r (factors_need_separator needs dens 0)).
      apply separator_failure_bind; [by apply print_factors_separator|].
      intros out4. reflexivity. }
  unfold print_fraction.
  destruct dens as [|dn dens'].
  - rewrite orb_false_r. destruct nums as [|n nums]; [reflexivity|].
    by apply print_factors_separator.
  - destruct nums as [|n nums]; by apply (G dn dens').
Qed.

Lemma needs_separator_derived (nums dens : list factor) :
  needs_separator d (derived_unit nums dens)
  = fraction_needs_separator (factor_needs_separator d) d (num_list nums dens) dens.
Proof.
  unfold num_list. cbn [needs_separator].
  destruct nums as [|[U|F n dn] [|g nums]], dens as [|dd dens]; try reflexivity.
  destruct (derived_from U (derived_unit [] [])); reflexivity.
Qed.

Lemma unit_symbol_impl_separator (c : char_type) :
  (forall u np out,
      separator_failure (needs_separator d u)
        (unit_symbol_impl c out u fmt np) (unit_symbol_impl c out u fmt_space np)) /\
  (forall f np out,
      separator_failure (factor_needs_separator d f)
        (factor_symbol_impl c out f fmt np) (factor_symbol_impl c out f fmt_space np)).
Proof.
  apply unit_factor_ind.
  - intros name Symbol np out. reflexivity.
  - intros name Symbol U _ np out. reflexivity.
  - intros name Symbol M U _ np out. reflexivity.
  - intros M U IH np out. cbn [unit_symbol_impl needs_separator].
    destruct (mag_eqb M mag_one); [apply IH|].
    destruct (magnitude_text M) as [txt|e]; cbn [bind];
      [|destruct (derived_from U _); by apply (separator_failure_same _ _ e)].
    change (encoding fmt_space) with (encoding fmt).
    destruct (copy c txt (encoding fmt) out) as [out1|e]; cbn [bind];
      [|destruct (derived_from U _); by apply (separator_failure_same _ _ e)].
    destruct (derived_from U (derived_unit [] [])); [reflexivity|apply IH].
  - intros nums dens Hn Hd np out. destruct np.
    { cbn [unit_symbol_impl]. by apply (separator_failure_same _ _ ContractViolation). }
    rewrite !unit_symbol_derived, needs_separator_derived.
    apply (print_fraction_separator
             (fun np o f => factor_symbol_impl c o f fmt np)
             (fun np o f => factor_symbol_impl c o f fmt_space np)).
    + intros np. apply Forall_forall. intros f Hf. apply num_list_elem_of in Hf.
      rewrite Forall_forall in Hn. intros o. by apply Hn.
    + intros np. apply Forall_forall. intros f Hf. rewrite Forall_forall in Hd.
      intros o. by apply Hd.
  - intros np out. reflexivity.
  - intros U IH np out. apply IH.
  - intros F Num Den IH np out. cbn [factor_symbol_impl factor_needs_separator].
    rewrite <- (orb_false_r (needs_separator d F)).
    apply separator_failure_bind; [apply IH|]. intros out1. reflexivity.
Qed.
End separator.

(** C7, as the code has it.  With the dot separator and the ASCII encoding,
    [print_separator] fails with [UnsupportedOption] wherever it is called.
    So the formatting of every unit whose symbol needs a separator fails:
    with [UnsupportedOption], or with the failure that it ends with for the
    space separator as well, an earlier step failing; and every unit whose
    symbol needs none is formatted as it is with the space separator.  A
    unit with a symbol needs none: its symbol is produced when the
    characters written are of type [char], and is not copied when they are
    not.  The symbol of a derived unit is produced only when no separator is
    needed: at most one numerator term, at most one denominator term, the
    denominator not rendered with negative exponents; two units with
    symbols in a product make the formatting fail with
    [UnsupportedOption]. *)
Theorem ascii_dot_separator `{TypeName} (c : char_type) (d : unit_symbol_denominator) :
  let fmt := {| encoding := ascii_encoding; denominator := d; separator := dot |} in
  let fmt_space := {| encoding := ascii_encoding; denominator := d; separator := space |} in
  (forall out : string, print_separator out fmt = Err UnsupportedOption) /\
  (forall u : unit,
      needs_separator d u = true ->
      exists e : error,
        unit_symbol c u fmt = Err e /\
        (e = UnsupportedOption \/ unit_symbol c u fmt_space = Err e)) /\
  (forall u : unit,
      needs_separator d u = false -> unit_symbol c u fmt = unit_symbol c u fmt_space) /\
  (forall u : unit,
      has_symbol u = true ->
      needs_separator d u = false /\
      unit_symbol c u fmt
      = if decide (c = char) then Ok (ascii (symbol u)) else Err UnsupportedOption) /\
  (forall (nums dens : list factor) (s : string),
      unit_symbol c (derived_unit nums dens) fmt = Ok s ->
      (length (num_list nums dens) <= 1)%nat /\ (length dens <= 1)%nat /\
      (dens <> [] -> d <> always_negative)) /\
  (forall a b : unit,
      has_symbol a = true -> has_symbol b = true ->
      needs_separator d (derived_unit [bare a; bare b] []) = true /\
      unit_symbol c (derived_unit [bare a; bare b] []) fmt = Err UnsupportedOption).
Proof.
  intros fmt fmt_space. split; [reflexivity|]. split; [|split; [|split; [|split]]].
  - intros u Hu.
    pose proof (proj1 (unit_symbol_impl_separator d c) u false "") as Hsep.
    by rewrite Hu in Hsep.
  - intros u Hu.
    pose proof (proj1 (unit_symbol_impl_separator d c) u false "") as Hsep.
    by rewrite Hu in Hsep.
  - intros u Hu. split; [by destruct u|].
    unfold unit_symbol, unit_symbol_to.
    assert (Hi : unit_symbol_impl c "" u fmt false = copy c (symbol u) ascii_encoding "").
    { destruct u; try discriminate; cbn [unit_symbol_impl];
        by destruct (copy c _ _ _). }
    rewrite Hi. unfold copy. by destruct (decide (c = char)).
  - intros nums dens s. unfold unit_symbol, unit_symbol_to.
    rewrite unit_symbol_derived. apply print_fraction_ascii_dot.
  - intros a b Ha Hb. split.
    { rewrite needs_separator_derived. unfold fraction_needs_separator.
      cbn [num_list length]. rewrite (bool_decide_eq_true_2 (1 < 2)%nat) by lia.
      by rewrite orb_true_r. }
    unfold unit_symbol, unit_symbol_to.
    rewrite unit_symbol_derived. cbn [num_list print_fraction print_factors].
    destruct (decide (0 < 0)%nat); [lia|]. cbn [bind].
    assert (Hi : factor_symbol_impl c "" (bare a) fmt false = copy c (symbol a) ascii_encoding "").
    { destruct a; try discriminate; cbn [factor_symbol_impl unit_symbol_impl];
        by destruct (copy c _ _ _). }
    rewrite Hi. unfold copy. by destruct (decide (c = char)).
Qed.

Lemma ascii_dot_separator_witness :
  let fmt := {| encoding := ascii_encoding; denominator := solidus_one; separator := dot |} in
  let two_metre_second := scaled_unit (mag_of 2) (derived_unit [bare si.metre; bare si.second] []) in
  needs_separator solidus_one two_metre_second = true /\
  (exists e : error,
     unit_symbol char two_metre_second fmt = Err e /\
     (e = UnsupportedOption \/
      unit_symbol char two_metre_second
        {| encoding := ascii_encoding; denominator := solidus_one; separator := space |}
      = Err e)) /\
  unit_symbol char si.metre fmt = Ok "m" /\
  unit_symbol char (derived_unit [bare si.metre; bare si.second] []) fmt = Err UnsupportedOption.
Proof.
  intros fmt two_metre_second.
  assert (Hn : needs_separator solidus_one two_metre_second = true) by reflexivity.
  pose proof (@ascii_dot_separator compiler_names char solidus_one) as (_ & H1 & _ & H3 & _ & H5).
  split; [exact Hn|]. split; [exact (H1 two_metre_second Hn)|]. split.
  - exact (proj2 (H3 si.metre eq_refl)).
  - exact (proj2 (H5 si.metre si.second eq_refl eq_refl)).
Defined.

(** Formatting the metre with the dot separator under ASCII succeeds. *)
Lemma ascii_dot_metre_succeeds :
  unit_symbol char si.metre
    {| encoding := ascii_encoding; denominator := solidus_one; separator := dot |} = Ok "m".
Proof. reflexivity. Qed.

(** ** Common units *)

Lemma derived_from_depth (a b : unit) :
  derived_from a b = true -> a = b \/ (inheritance_depth b < inheritance_depth a)%nat.
Proof.
  revert b. induction a as [? ?|? ? U IH|? ? M U IH|? ? _|? ?|]; intros b;
    cbn [derived_from inheritance_depth]; rewrite orb_true_iff, unit_eqb_eq;
    (intros [Hab|Hab]; [by left|]); try discriminate.
  - right. destruct (IH b Hab) as [->|Hlt]; lia.
  - destruct (mag_eqb M mag_one) eqn:E.
    + right. destruct (IH b Hab) as [->|Hlt]; lia.
    + right. apply unit_eqb_eq in Hab as <-. simpl. lia.
  - right. apply unit_eqb_eq in Hab as <-. simpl. lia.
Qed.

(** Two unit types that derive from each other are the same type. *)
Lemma derived_from_antisym (a b : unit) :
  derived_from a b = true -> derived_from b a = true -> a = b.
Proof.
  intros Hab Hba. apply derived_from_depth in Hab as [?|Hab]; [done|].
  apply derived_from_depth in Hba as [?|Hba]; [done|]. lia.
Qed.

(** C3, as the code has it.  The common unit of two convertible units: for
    equal units the first operand when its type derives from the type of
    the second, and the second operand when it does not (so also when
    neither type derives from the other, whatever the names); otherwise, when one canonical magnitude is an integral
    multiple of the other, the operand with the smaller canonical
    magnitude; otherwise the shared canonical reference unit scaled by
    [common_magnitude] of the two canonical magnitudes. *)
Theorem common_type_resolution `{TypeName} (U1 U2 : unit) :
  convertible U1 U2 = true ->
  let m1 := mag (get_canonical_unit U1) in
  let m2 := mag (get_canonical_unit U2) in
  exists r : unit,
    common_type U1 U2 = Ok r /\
    ((unit_eq U1 U2 = true /\
      (derived_from U1 U2 = true -> r = U1) /\
      (derived_from U2 U1 = true -> r = U2) /\
      (derived_from U1 U2 = false -> r = U2)) \/
     (unit_eq U1 U2 = false /\ is_integral (mag_div m1 m2) = true /\
      r = U2 /\ integer_multiple m1 m2) \/
     (unit_eq U1 U2 = false /\ is_integral (mag_div m1 m2) = false /\
      is_integral (mag_div m2 m1) = true /\
      r = U1 /\ integer_multiple m2 m1) \/
     (unit_eq U1 U2 = false /\ is_integral (mag_div m1 m2) = false /\
      is_integral (mag_div m2 m1) = false /\
      r = scaled_unit (common_magnitude m1 m2) (reference_unit (get_canonical_unit U1)) /\
      reference_unit (get_canonical_unit U1) = reference_unit (get_canonical_unit U2))).
Proof.
  intros Hconv m1 m2. unfold common_type, common_type_impl. rewrite Hconv.
  fold m1 m2. eexists. split; [reflexivity|].
  destruct (unit_eq U1 U2) eqn:Heq.
  - left. split; [reflexivity|].
    destruct (derived_from U1 U2) eqn:H12; repeat split; try congruence.
    intros H21. by apply derived_from_antisym.
  - right. destruct (is_integral (mag_div m1 m2)) eqn:H12.
    + left. repeat split. exists (mag_div m1 m2). split; [exact H12|].
      intros i. rewrite get_power_div. ring.
    + right. destruct (is_integral (mag_div m2 m1)) eqn:H21.
      * left. repeat split. exists (mag_div m2 m1). split; [exact H21|].
        intros i. rewrite get_power_div. ring.
      * right. repeat split. by apply convertible_iff.
Qed.

Lemma common_type_resolution_witness :
  convertible si.kilometre si.metre = true /\
  common_type si.kilometre si.metre = Ok si.metre /\
  integer_multiple (mag (get_canonical_unit si.kilometre)) (mag (get_canonical_unit si.metre)).
Proof.
  assert (Hc : convertible si.kilometre si.metre = true) by (vm_compute; reflexivity).
  split; [exact Hc|].
  destruct (common_type_resolution si.kilometre si.metre Hc) as (r & Hr & Hcases).
  destruct Hcases as [(He & _)|[(_ & _ & Hu & Hm)|[(_ & Hi & _)|(_ & Hi & _)]]].
  - vm_compute in He. discriminate.
  - rewrite Hu in Hr. split; [exact Hr|exact Hm].
  - vm_compute in Hi. discriminate.
  - vm_compute in Hi. discriminate.
Defined.

(** C3 does not hold as stated.  The hour and [3600 s] are equal units and
    the type of neither derives from the type of the other; their common
    unit is the second operand: the unnamed [scaled_unit<mag<3600>, second>]
    in one order, the hour in the other. *)
Lemma common_type_of_equal_units :
  let s3600 := mag_times (mag_of 3600) si.second in
  unit_eq si.hour s3600 = true /\
  derived_from si.hour s3600 = false /\
  derived_from s3600 si.hour = false /\
  common_type si.hour s3600 = Ok s3600 /\
  common_type s3600 si.hour = Ok si.hour.
Proof. evaluate. Qed.

(** The metre is the common unit of the kilometre and the metre, the hertz
    that of the hertz and the inverse of the second. *)
Lemma common_type_examples :
  common_type si.kilometre si.metre = Ok si.metre /\
  common_type si.metre si.kilometre = Ok si.metre /\
  common_type si.hertz (expr_invert si.second) = Ok si.hertz /\
  common_type (expr_invert si.second) si.hertz = Ok si.hertz /\
  common_type si.metre si.second = Err NotConvertible.
Proof. evaluate. Qed.

(** ** Magnitudes that can be printed *)

Lemma ratio_den_of_Z (z : Z) : ratio_den (ratio_of_Z z) = 1.
Proof. unfold ratio_den, ratio_of_Z. simpl. by rewrite inject_Z_Qred. Qed.

Lemma ratio_num_of_Z (z : Z) : ratio_num (ratio_of_Z z) = z.
Proof. unfold ratio_num, ratio_of_Z. simpl. by rewrite inject_Z_Qred. Qed.

Lemma integral_exponent_iff (e : Qc) : ratio_den e = 1 <-> exists z, e = ratio_of_Z z.
Proof.
  split.
  - intros He. exists (ratio_num e). apply Qc_is_canon. unfold ratio_of_Z. simpl.
    rewrite inject_Z_Qred. destruct e as [[n d] c]. unfold ratio_den, ratio_num in *. simpl in *.
    injection He as ->. reflexivity.
  - intros [z ->]. apply ratio_den_of_Z.
Qed.

Lemma ratio_of_Z_add (a b : Z) : (ratio_of_Z a + ratio_of_Z b)%Qc = ratio_of_Z (a + b).
Proof.
  unfold ratio_of_Z, Qcplus. apply Q2Qc_eq_iff. simpl.
  rewrite !Qred_correct, inject_Z_plus. reflexivity.
Qed.

Lemma ratio_of_Z_mul (a b : Z) : (ratio_of_Z a * ratio_of_Z b)%Qc = ratio_of_Z (a * b).
Proof.
  unfold ratio_of_Z, Qcmult. apply Q2Qc_eq_iff. simpl.
  rewrite !Qred_correct, inject_Z_mult. reflexivity.
Qed.

Lemma minus_one_of_Z : (-1)%Qc = ratio_of_Z (-1).
Proof. apply Qc_is_canon. reflexivity. Qed.

Lemma integral_add (a b : Qc) : ratio_den a = 1 -> ratio_den b = 1 -> ratio_den (a + b)%Qc = 1.
Proof.
  rewrite !integral_exponent_iff. intros [x ->] [y ->]. exists (x + y). apply ratio_of_Z_add.
Qed.

Lemma integral_mul (a b : Qc) : ratio_den a = 1 -> ratio_den b = 1 -> ratio_den (a * b)%Qc = 1.
Proof.
  rewrite !integral_exponent_iff. intros [x ->] [y ->]. exists (x * y). apply ratio_of_Z_mul.
Qed.

Lemma integral_neg (a : Qc) : ratio_den a = 1 -> ratio_den (-1 * a)%Qc = 1.
Proof. intros. apply integral_mul; [|done]. rewrite minus_one_of_Z. apply ratio_den_of_Z. Qed.

Lemma nonintegral_add (e z : Qc) : ratio_den e <> 1 -> ratio_den z = 1 -> ratio_den (e + z)%Qc <> 1.
Proof.
  intros He Hz Hs. apply He.
  replace e with ((e + z) + (-1 * z))%Qc by ring.
  apply integral_add; [done|]. by apply integral_neg.
Qed.

Lemma mag_of_10 : mag_of 10 = <[prime_base 2 := 1%Qc]> {[prime_base 5 := 1%Qc]}.
Proof. vm_compute. reflexivity. Qed.

Lemma one_of_Z : 1%Qc = ratio_of_Z 1.
Proof. apply Qc_is_canon. reflexivity. Qed.

Lemma nonzero_rational i e : rational_entry i (Some e) -> rational_entry i (nonzero e).
Proof. unfold nonzero. by destruct (decide _). Qed.

Lemma mag_power_10_entry (k : Z) (i : basis) :
  rational_entry i (mag_power 10 (ratio_of_Z k) !! i).
Proof.
  unfold mag_power, mag_pow. rewrite lookup_omap, mag_of_10.
  destruct (<[prime_base 2:=1%Qc]> {[prime_base 5 := 1%Qc]} !! i) as [x|] eqn:E; simpl; [|done].
  apply nonzero_rational.
  apply lookup_insert_Some in E as [[<- <-]|[_ E]].
  - split; [eauto|]. apply integral_mul; [apply ratio_den_of_Z|]. rewrite one_of_Z. apply ratio_den_of_Z.
  - apply lookup_singleton_Some in E as [<- <-].
    split; [eauto|]. apply integral_mul; [apply ratio_den_of_Z|]. rewrite one_of_Z. apply ratio_den_of_Z.
Qed.

Lemma mag_pow_neg_entry (m : magnitude) (i : basis) :
  rational_entry i (m !! i) -> rational_entry i (mag_pow (-1)%Qc m !! i).
Proof.
  unfold mag_pow. rewrite lookup_omap. destruct (m !! i) as [e|]; simpl; [|done].
  intros [Hp He]. apply nonzero_rational. split; [done|]. by apply integral_neg.
Qed.

Lemma mag_mul_entry (a b : magnitude) (i : basis) :
  rational_entry i (a !! i) -> rational_entry i (b !! i) ->
  rational_entry i (mag_mul a b !! i).
Proof.
  unfold mag_mul. rewrite lookup_merge.
  destruct (a !! i) as [x|], (b !! i) as [y|]; simpl; try done.
  intros [Hp Hx] [_ Hy]. apply nonzero_rational. split; [done|]. by apply integral_add.
Qed.

Lemma mag_numerator_entry (m : magnitude) (i : basis) :
  rational_entry i (mag_numerator m !! i).
Proof.
  unfold mag_numerator. rewrite map_lookup_imap.
  destruct (m !! i) as [e|]; simpl; [|done].
  destruct i as [p|t]; simpl; [|done].
  destruct (decide _); simpl; [|done]. split; [eauto|]. apply ratio_den_of_Z.
Qed.

Lemma mag_denominator_entry (m : magnitude) (i : basis) :
  rational_entry i (mag_denominator m !! i).
Proof. apply mag_numerator_entry. Qed.

Lemma ratio_entry (m : magnitude) (i : basis) :
  rational_entry i (mag_div (mag_numerator m) (mag_denominator m) !! i).
Proof.
  unfold mag_div. apply mag_mul_entry; [apply mag_numerator_entry|].
  apply mag_pow_neg_entry, mag_denominator_entry.
Qed.

(** An irrational basis or a fractional exponent stays so when a power of
    ten is factored out. *)
Lemma base_entry_not_rational (M : magnitude) (k : Z) (i : basis) (e : Qc) :
  M !! i = Some e ->
  ~ rational_entry i (Some e) ->
  exists e', mag_div M (mag_power 10 (ratio_of_Z k)) !! i = Some e' /\ ~ rational_entry i (Some e').
Proof.
  intros HM Hbad. unfold mag_div, mag_mul. rewrite lookup_merge, HM.
  pose proof (mag_pow_neg_entry _ i (mag_power_10_entry k i)) as HT.
  destruct (mag_pow (-1)%Qc (mag_power 10 (ratio_of_Z k)) !! i) as [z|]; simpl; [|eauto].
  destruct HT as [Hp Hz].
  assert (Hne : ratio_den e <> 1) by (intros He; apply Hbad; by split).
  pose proof (nonintegral_add e z Hne Hz) as Hs.
  unfold nonzero. destruct (decide ((e + z)%Qc = 0%Qc)) as [E|E].
  - rewrite E in Hs. by destruct Hs.
  - eexists. split; [reflexivity|]. intros [_ H']. by apply Hs.
Qed.

Lemma not_printable (M : magnitude) (i : basis) (e : Qc) :
  M !! i = Some e -> ~ rational_entry i (Some e) -> ~ printable M.
Proof.
  intros HM Hbad Hp. unfold printable in Hp. cbv zeta in Hp.
  destruct (base_entry_not_rational M (extract_power_of_10 M) i e HM Hbad) as (e' & He' & Hbad').
  rewrite Hp in He'. pose proof (ratio_entry (mag_div M (mag_power 10 (ratio_of_Z (extract_power_of_10 M)))) i) as Hr.
  rewrite He' in Hr. by apply Hbad'.
Qed.

Lemma printable_one : printable mag_one.
Proof. unfold printable. vm_compute. reflexivity. Qed.

Lemma is_integral_numerator (m : magnitude) : is_integral (mag_numerator m) = true.
Proof.
  unfold is_integral. apply bool_decide_eq_true. intros i e.
  unfold mag_numerator. rewrite map_lookup_imap.
  destruct (m !! i) as [x|]; simpl; [|discriminate].
  destruct i as [p|t]; simpl; [|discriminate].
  destruct (decide (ratio_den x <= ratio_num x)) as [Hle|]; [|discriminate].
  intros [= <-]. split; [eauto|]. rewrite ratio_den_of_Z, ratio_num_of_Z.
  split; [reflexivity|]. apply Z.div_str_pos. unfold ratio_den in *. lia.
Qed.

Lemma magnitude_text_ok (M : magnitude) (txt : basic_symbol_text) :
  magnitude_text M = Ok txt -> printable M.
Proof.
  unfold magnitude_text, printable. cbv zeta.
  destruct (mag_eqb _ _) eqn:E; simpl; [|discriminate].
  intros _. by apply mag_eqb_eq.
Qed.

Lemma magnitude_text_rejects (M : magnitude) :
  ~ printable M -> magnitude_text M = Err PrintingNotSupported.
Proof.
  unfold magnitude_text, printable. cbv zeta. intros Hn.
  destruct (mag_eqb _ _) eqn:E; simpl; [|reflexivity].
  apply mag_eqb_eq in E. by destruct Hn.
Qed.

(** C10.  The symbol of a scaled unit is produced only when its magnitude,
    once the largest power of ten is factored out, is the ratio of two
    integers, its numerator and its denominator; a magnitude with an
    irrational basis or with a fractional exponent is rejected by the
    assertion of [magnitude_text]. *)
Theorem scaled_unit_symbol_printable `{TypeName}
    (c : char_type) (M : magnitude) (U : unit) (fmt : unit_symbol_formatting) :
  let base := mag_div M (mag_power 10 (ratio_of_Z (extract_power_of_10 M))) in
  (forall s : string,
      unit_symbol c (scaled_unit M U) fmt = Ok s ->
      base = mag_div (mag_numerator base) (mag_denominator base) /\
      is_integral (mag_numerator base) = true /\
      is_integral (mag_denominator base) = true) /\
  (forall (i : basis) (e : Qc),
      M !! i = Some e ->
      (exists t, i = irrational_base t) \/ ratio_den e <> 1 ->
      unit_symbol c (scaled_unit M U) fmt = Err PrintingNotSupported).
Proof.
  intros base. split.
  - intros s Hs. split; [|split; apply is_integral_numerator].
    change (printable M). unfold unit_symbol, unit_symbol_to in Hs.
    cbn [unit_symbol_impl] in Hs.
    destruct (mag_eqb M mag_one) eqn:E.
    + apply mag_eqb_eq in E. subst M. apply printable_one.
    + apply bind_ok in Hs as (txt & Htxt & _). by apply magnitude_text_ok in Htxt.
  - intros i e HM Hbad.
    assert (Hnr : ~ rational_entry i (Some e)).
    { intros [[p Hp] He]. destruct Hbad as [[t Ht]|Hne]; [congruence|done]. }
    unfold unit_symbol, unit_symbol_to. cbn [unit_symbol_impl].
    destruct (mag_eqb M mag_one) eqn:E.
    + apply mag_eqb_eq in E. subst M. unfold mag_one in HM. by rewrite lookup_empty in HM.
    + rewrite (magnitude_text_rejects M); [reflexivity|].
      by apply (not_printable M i e).
Qed.

Lemma scaled_unit_symbol_printable_witness :
  printable (mag_ratio 18 5) /\
  unit_symbol char (scaled_unit mag_pi si.metre) default_formatting = Err PrintingNotSupported.
Proof.
  split.
  - refine (proj1 (proj1 (scaled_unit_symbol_printable char (mag_ratio 18 5) si.metre
                            default_formatting)
                     "[18/5] m" _)).
    vm_compute. reflexivity.
  - apply (proj2 (scaled_unit_symbol_printable char mag_pi si.metre default_formatting)
             (irrational_base "pi") 1%Qc).
    + vm_compute. reflexivity.
    + left. by exists "pi".
Defined.

(** [[18/5] m], [× 10⁻³ m]; no symbol for a unit scaled by pi or by the
    square root of two. *)
Lemma scaled_unit_symbol_examples :
  unit_symbol char (mag_times (mag_ratio 18 5) si.metre) default_formatting = Ok "[18/5] m" /\
  unit_symbol char (mag_times (mag_ratio 1 1000) si.metre) default_formatting = Ok "× 10⁻³ m" /\
  unit_symbol char (mag_times mag_pi si.metre) default_formatting = Err PrintingNotSupported /\
  unit_symbol char (mag_times (mag_power 2 (mk_ratio 1 2)) si.metre) default_formatting
  = Err PrintingNotSupported.
Proof. evaluate. Qed.

(** ** Properties of the factors that the expression templates preserve *)

Lemma expr_type_power_or_T (T : unit) (R : ratio) : expr_type (power_or_T T R) = T.
Proof. unfold power_or_T. by repeat destruct (decide _). Qed.

Section factors_preserved.
Context `{TypeName}.
Variable P : unit -> Prop.
Hypothesis P_one : P one.

Let PF (f : factor) : Prop := P (expr_type f).

Lemma power_or_T_Forall (T : unit) (R : ratio) : P T -> PF (power_or_T T R).
Proof. unfold PF. by rewrite expr_type_power_or_T. Qed.

Lemma merge_sorted_Forall (l1 l2 : list factor) :
  Forall PF l1 -> Forall PF l2 -> Forall PF (type_list_merge_sorted l1 l2).
Proof.
  intros H1. revert l2. induction H1 as [|a l1 Ha H1 IH1]; intros l2 H2.
  - by destruct l2.
  - induction H2 as [|b l2 Hb H2 IH2]; [by constructor|].
    cbn [type_list_merge_sorted]. destruct (expr_less a b).
    + constructor; [done|]. apply IH1. by constructor.
    + constructor; [done|]. exact IH2.
Qed.

Lemma consolidate_from_Forall (rest : list factor) :
  Forall PF rest ->
  forall cur, (forall c, cur = Some c -> PF c) ->
  Forall PF (expr_consolidate_from cur rest).
Proof.
  induction 1 as [|f rest Hf Hrest IH]; intros cur Hcur; cbn [expr_consolidate_from].
  - destruct cur as [c|]; [|constructor]. constructor; [by apply Hcur|constructor].
  - destruct cur as [c|].
    + destruct (unit_eqb (expr_type c) (expr_type f)).
      * cbv zeta. destruct (decide _).
        -- apply IH. intros ? [=].
        -- apply IH. intros ? [= <-]. apply power_or_T_Forall. by apply Hcur.
      * constructor; [by apply Hcur|]. apply IH. by intros ? [= <-].
    + apply IH. by intros ? [= <-].
Qed.

Lemma consolidate_Forall (l : list factor) :
  Forall PF l -> Forall PF (expr_consolidate l).
Proof. intros Hl. apply consolidate_from_Forall; [done|]. intros ? [=]. Qed.

Lemma num_list_Forall (nums dens : list factor) :
  Forall PF nums -> Forall PF (num_list nums dens).
Proof.
  unfold num_list. intros Hn.
  destruct nums as [|[U|F n d] [|g nums]], dens as [|dn dens]; try done.
  by destruct (derived_from U (derived_unit [] [])).
Qed.

Lemma simplify_Forall (nums dens : list factor) :
  Forall PF nums -> Forall PF dens ->
  Forall PF (expr_simplify nums dens).1 /\ Forall PF (expr_simplify nums dens).2.
Proof.
  intros Hn. revert dens. induction Hn as [|n nums Hn Hnums IHn]; intros dens Hd.
  - by destruct dens.
  - induction Hd as [|dn dens Hdn Hdens IHd]; [split; [by constructor|constructor]|].
    cbn [expr_simplify]. destruct (unit_eqb (expr_type n) (expr_type dn)).
    + cbv zeta. destruct (IHn dens Hdens) as [H1 H2].
      destruct (decide _); [|destruct (decide _)]; cbn [fst snd]; split; try done.
      * constructor; [|done]. by apply power_or_T_Forall.
      * constructor; [|done]. by apply power_or_T_Forall.
    + destruct (expr_less n dn).
      * cbv zeta. destruct (IHn (dn :: dens)) as [H1 H2]; [by constructor|].
        cbn [fst snd]. split; [by constructor|done].
      * cbv zeta. destruct IHd as [H1 H2]. cbn [fst snd]. split; [done|by constructor].
Qed.

(** The unit formed from two lists of factors is [one], the single factor
    of the numerator, or the derived unit of lists of such factors. *)
Lemma make_spec_cases (nums dens : list factor) :
  Forall PF nums -> Forall PF dens ->
  P (expr_make_spec nums dens) \/
  exists n d, expr_make_spec nums dens = derived_unit n d /\ Forall PF n /\ Forall PF d.
Proof.
  intros Hn Hd. unfold expr_make_spec.
  destruct nums as [|[U|F x y] [|g nums]], dens as [|dn dens]; eauto 6.
  - right. eexists _, _. split; [reflexivity|]. split; [|done].
    constructor; [exact P_one|constructor].
  - left. by inversion_clear Hn.
Qed.

Lemma get_optimized_expression_cases (nums dens : list factor) :
  Forall PF nums -> Forall PF dens ->
  P (get_optimized_expression nums dens) \/
  exists n d, get_optimized_expression nums dens = derived_unit n d /\
              Forall PF n /\ Forall PF d.
Proof.
  intros Hn Hd. unfold get_optimized_expression. cbv zeta.
  destruct (simplify_Forall (expr_consolidate nums) (expr_consolidate dens)) as [H1 H2];
    [by apply consolidate_Forall..|].
  by apply make_spec_cases.
Qed.
End factors_preserved.

(** ** No [scaled_unit] inside a [derived_unit] *)

Lemma factor_scaled_free_ok (f : factor) : factor_scaled_free f = true <-> factor_ok f.
Proof.
  unfold factor_ok, element_ok. destruct f as [U|F n d]; simpl;
    rewrite andb_true_iff, negb_true_iff; reflexivity.
Qed.

Lemma forallb_factor_ok (l : list factor) :
  forallb factor_scaled_free l = true <-> Forall factor_ok l.
Proof.
  rewrite forallb_forall, Forall_forall.
  split; intros Hl f Hf; apply factor_scaled_free_ok, Hl; by apply list_elem_of_In.
Qed.

Lemma scaled_free_derived (nums dens : list factor) :
  scaled_free (derived_unit nums dens) = true <-> Forall factor_ok nums /\ Forall factor_ok dens.
Proof. cbn [scaled_free]. by rewrite andb_true_iff, !forallb_factor_ok. Qed.

Lemma power_or_T_ok (T : unit) (R : ratio) : element_ok T -> factor_ok (power_or_T T R).
Proof. unfold factor_ok, power_or_T. by repeat destruct (decide _). Qed.

Lemma scaled_free_mag_times (M : magnitude) (u : unit) :
  scaled_free (mag_times M u) = scaled_free u.
Proof. unfold mag_times. by destruct (mag_eqb M mag_one). Qed.

Lemma element_ok_one : element_ok one.
Proof. by split. Qed.

Lemma element_ok_scaled_free (u : unit) : element_ok u -> scaled_free u = true.
Proof. by intros [_ ?]. Qed.

Lemma consolidate_ok (l : list factor) :
  Forall factor_ok l -> Forall factor_ok (expr_consolidate l).
Proof. apply (consolidate_Forall element_ok). Qed.

Lemma num_list_ok (nums dens : list factor) :
  Forall factor_ok nums -> Forall factor_ok (num_list nums dens).
Proof. apply (num_list_Forall element_ok). Qed.

Lemma make_spec_ok (nums dens : list factor) :
  Forall factor_ok nums -> Forall factor_ok dens ->
  scaled_free (expr_make_spec nums dens) = true.
Proof.
  intros Hn Hd. unfold expr_make_spec.
  destruct nums as [|[U|F n d] [|g nums]], dens as [|dn dens];
    try reflexivity; try (apply scaled_free_derived; split; by auto using element_ok_one).
  - apply scaled_free_derived. split; [|done]. constructor; [exact element_ok_one|constructor].
  - inversion_clear Hn as [|? ? HU _]. by apply element_ok_scaled_free.
Qed.

Section invariant.
Context `{TypeName}.

Lemma merge_sorted_ok (l1 l2 : list factor) :
  Forall factor_ok l1 -> Forall factor_ok l2 -> Forall factor_ok (type_list_merge_sorted l1 l2).
Proof. apply (merge_sorted_Forall element_ok). Qed.

Lemma simplify_ok (nums dens : list factor) :
  Forall factor_ok nums -> Forall factor_ok dens ->
  Forall factor_ok (expr_simplify nums dens).1 /\ Forall factor_ok (expr_simplify nums dens).2.
Proof. apply (simplify_Forall element_ok). Qed.

Lemma get_optimized_expression_ok (nums dens : list factor) :
  Forall factor_ok nums -> Forall factor_ok dens ->
  scaled_free (get_optimized_expression nums dens) = true.
Proof.
  intros Hn Hd. unfold get_optimized_expression. cbv zeta.
  destruct (simplify_ok (expr_consolidate nums) (expr_consolidate dens)) as [H1 H2];
    [by apply consolidate_ok..|].
  by apply make_spec_ok.
Qed.

Lemma factor_ok_bare (u : unit) : element_ok u -> Forall factor_ok [bare u].
Proof. intros Hu. constructor; [exact Hu|constructor]. Qed.

Lemma expr_multiply_ok (lhs rhs : unit) :
  element_ok lhs -> element_ok rhs -> scaled_free (expr_multiply lhs rhs) = true.
Proof.
  intros Hl Hr. unfold expr_multiply.
  destruct (unit_eqb lhs one); [by apply element_ok_scaled_free|].
  destruct (unit_eqb rhs one); [by apply element_ok_scaled_free|].
  pose proof (factor_ok_bare lhs Hl) as Hbl. pose proof (factor_ok_bare rhs Hr) as Hbr.
  assert (Hdl : forall n d, lhs = derived_unit n d -> Forall factor_ok (num_list n d) /\ Forall factor_ok d).
  { intros n d ->. destruct Hl as [_ Hl]. apply scaled_free_derived in Hl as [? ?].
    split; [by apply num_list_ok|done]. }
  assert (Hdr : forall n d, rhs = derived_unit n d -> Forall factor_ok (num_list n d) /\ Forall factor_ok d).
  { intros n d ->. destruct Hr as [_ Hr]. apply scaled_free_derived in Hr as [? ?].
    split; [by apply num_list_ok|done]. }
  destruct lhs as [| | | |n1 d1|]; destruct rhs as [| | | |n2 d2|];
    try (destruct (Hdl _ _ eq_refl)); try (destruct (Hdr _ _ eq_refl));
    apply get_optimized_expression_ok; auto using merge_sorted_ok.
Qed.

Lemma expr_divide_ok (lhs rhs : unit) :
  element_ok lhs -> element_ok rhs -> scaled_free (expr_divide lhs rhs) = true.
Proof.
  intros Hl Hr. unfold expr_divide.
  destruct (unit_eqb lhs rhs); [reflexivity|].
  destruct (unit_eqb rhs one); [by apply element_ok_scaled_free|].
  pose proof (factor_ok_bare lhs Hl) as Hbl. pose proof (factor_ok_bare rhs Hr) as Hbr.
  assert (Hdl : forall n d, lhs = derived_unit n d -> Forall factor_ok (num_list n d) /\ Forall factor_ok d).
  { intros n d ->. destruct Hl as [_ Hl]. apply scaled_free_derived in Hl as [? ?].
    split; [by apply num_list_ok|done]. }
  assert (Hdr : forall n d, rhs = derived_unit n d -> Forall factor_ok (num_list n d) /\ Forall factor_ok d).
  { intros n d ->. destruct Hr as [_ Hr]. apply scaled_free_derived in Hr as [? ?].
    split; [by apply num_list_ok|done]. }
  destruct lhs as [| | | |n1 d1|]; destruct rhs as [| | | |n2 d2|];
    try (destruct (Hdl _ _ eq_refl)); try (destruct (Hdr _ _ eq_refl));
    try (apply get_optimized_expression_ok; by auto using merge_sorted_ok);
    try (apply scaled_free_derived; by split).
Qed.

Lemma unit_mul_not_scaled (lhs rhs : unit) :
  is_specialization_of_scaled_unit lhs = false ->
  unit_mul lhs rhs =
    match rhs with
    | scaled_unit M2 R2 => mag_times M2 (unit_mul lhs R2)
    | _ => expr_multiply lhs rhs
    end.
Proof. destruct lhs; try discriminate; destruct rhs; reflexivity. Qed.

Lemma unit_div_not_scaled (lhs rhs : unit) :
  is_specialization_of_scaled_unit lhs = false ->
  unit_div lhs rhs =
    match rhs with
    | scaled_unit M2 R2 => mag_times M2 (unit_div lhs R2)
    | _ => expr_divide lhs rhs
    end.
Proof. destruct lhs; try discriminate; destruct rhs; reflexivity. Qed.

Lemma unit_mul_not_scaled_ok (lhs : unit) :
  element_ok lhs -> forall rhs, scaled_free rhs = true -> scaled_free (unit_mul lhs rhs) = true.
Proof.
  intros Hl rhs. induction rhs as [? ?|? ? ? _|? ? ? ? _|M2 R2 IH|? ?|]; intros Hr;
    rewrite unit_mul_not_scaled by apply Hl;
    try (apply expr_multiply_ok; [exact Hl|split; [reflexivity|exact Hr]]).
  rewrite scaled_free_mag_times. by apply IH.
Qed.

Lemma unit_div_not_scaled_ok (lhs : unit) :
  element_ok lhs -> forall rhs, scaled_free rhs = true -> scaled_free (unit_div lhs rhs) = true.
Proof.
  intros Hl rhs. induction rhs as [? ?|? ? ? _|? ? ? ? _|M2 R2 IH|? ?|]; intros Hr;
    rewrite unit_div_not_scaled by apply Hl;
    try (apply expr_divide_ok; [exact Hl|split; [reflexivity|exact Hr]]).
  rewrite scaled_free_mag_times. by apply IH.
Qed.

Lemma unit_mul_scaled_free (lhs rhs : unit) :
  scaled_free lhs = true -> scaled_free rhs = true -> scaled_free (unit_mul lhs rhs) = true.
Proof.
  revert rhs. induction lhs as [? ?|? ? ? _|? ? ? ? _|M1 R1 IH|? ?|]; intros rhs Hl Hr;
    try (apply unit_mul_not_scaled_ok; [split; [reflexivity|exact Hl]|exact Hr]).
  cbn [unit_mul]. destruct rhs; rewrite scaled_free_mag_times; apply IH; done.
Qed.

Lemma unit_div_scaled_free (lhs rhs : unit) :
  scaled_free lhs = true -> scaled_free rhs = true -> scaled_free (unit_div lhs rhs) = true.
Proof.
  revert rhs. induction lhs as [? ?|? ? ? _|? ? ? ? _|M1 R1 IH|? ?|]; intros rhs Hl Hr;
    try (apply unit_div_not_scaled_ok; [split; [reflexivity|exact Hl]|exact Hr]).
  cbn [unit_div]. destruct rhs; rewrite scaled_free_mag_times; apply IH; done.
Qed.
End invariant.

(** X5.  The product and the quotient of units that hold no [scaled_unit]
    as an element of a [derived_unit] hold none either: the magnitudes of
    scaled operands stay outside of the derived unit. *)
Lemma unit_mul_div_scaled_free `{TypeName} (a b : unit) :
  scaled_free a = true -> scaled_free b = true ->
  scaled_free (unit_mul a b) = true /\ scaled_free (unit_div a b) = true.
Proof.
  intros Ha Hb. split; [by apply unit_mul_scaled_free|by apply unit_div_scaled_free].
Qed.

Lemma unit_mul_div_scaled_free_witness :
  let a := mag_times (mag_of 1000) (unit_div si.metre si.second) in
  let b := mag_times (mag_of 60) si.second in
  scaled_free a = true /\ scaled_free b = true /\
  scaled_free (unit_mul a b) = true /\ scaled_free (unit_div a b) = true.
Proof.
  intros a b.
  assert (Ha : scaled_free a = true) by (vm_compute; reflexivity).
  assert (Hb : scaled_free b = true) by (vm_compute; reflexivity).
  split; [exact Ha|]. split; [exact Hb|].
  exact (@unit_mul_div_scaled_free compiler_names a b Ha Hb).
Defined.

(** Where the magnitudes go.  With two scaled operands they are multiplied,
    or divided; the magnitude of a single scaled operand is kept as it is,
    for the divisor of a quotient too. *)
Lemma unit_mul_div_magnitudes `{TypeName} (M1 M2 : magnitude) (R1 R2 u : unit) :
  unit_mul (scaled_unit M1 R1) (scaled_unit M2 R2) = mag_times (mag_mul M1 M2) (unit_mul R1 R2) /\
  unit_div (scaled_unit M1 R1) (scaled_unit M2 R2) = mag_times (mag_div M1 M2) (unit_div R1 R2) /\
  (is_specialization_of_scaled_unit u = false ->
   unit_mul (scaled_unit M1 R1) u = mag_times M1 (unit_mul R1 u) /\
   unit_div (scaled_unit M1 R1) u = mag_times M1 (unit_div R1 u) /\
   unit_mul u (scaled_unit M2 R2) = mag_times M2 (unit_mul u R2) /\
   unit_div u (scaled_unit M2 R2) = mag_times M2 (unit_div u R2)).
Proof.
  split; [reflexivity|]. split; [reflexivity|].
  intros Hu. repeat split.
  - by destruct u.
  - by destruct u.
  - by rewrite unit_mul_not_scaled.
  - by rewrite unit_div_not_scaled.
Qed.

(** C9, at [metre / (1000 metre)] and at [(1 / (2 metre)) * second].  The
    quotient by a scaled unit carries the magnitude of the divisor, not its
    inverse: [metre / (1000 metre)] is [1000 one], as [(1000 metre) / metre]
    is, while with two scaled operands the magnitudes are divided; the
    canonical magnitude of the quotient is not the quotient of the canonical
    magnitudes.  And inversion does not factor the magnitude out:
    [1 / (2 metre)] has the scaled unit as the element of its denominator,
    and so has its product with the second. *)
Theorem scaled_unit_operands :
  let thousand_metre := mag_times (mag_of 1000) si.metre in
  let two_metre := mag_times (mag_of 2) si.metre in
  unit_div si.metre thousand_metre = scaled_unit (mag_of 1000) one /\
  unit_div thousand_metre si.metre = scaled_unit (mag_of 1000) one /\
  unit_div two_metre thousand_metre = scaled_unit (mag_div (mag_of 2) (mag_of 1000)) one /\
  mag (get_canonical_unit (unit_div si.metre thousand_metre)) = mag_of 1000 /\
  mag_div (mag (get_canonical_unit si.metre)) (mag (get_canonical_unit thousand_metre))
  = mag_pow (-1)%Qc (mag_of 1000) /\
  mag_pow (-1)%Qc (mag_of 1000) <> mag_of 1000 /\
  unit_inv 1 two_metre = Ok (derived_unit [bare one] [bare (scaled_unit (mag_of 2) si.metre)]) /\
  unit_mul (expr_invert two_metre) si.second
  = derived_unit [bare si.second] [bare (scaled_unit (mag_of 2) si.metre)] /\
  scaled_free (unit_mul (expr_invert two_metre) si.second) = false.
Proof.
  evaluate.
  intros E. apply (f_equal (fun m => bool_decide (m = mag_of 1000))) in E.
  vm_compute in E. discriminate.
Qed.

(** ** Canonical units of powers *)

Lemma mk_ratio_this (Num Den : Z) : (this (mk_ratio Num Den) == inject_Z Num / inject_Z Den)%Q.
Proof. unfold mk_ratio. simpl. apply Qred_correct. Qed.

Lemma mk_ratio_positive (Num Den : Z) : 0 < Num -> 0 < Den -> 0 < ratio_num (mk_ratio Num Den).
Proof.
  intros HN HD.
  assert (H : (0 < this (mk_ratio Num Den))%Q).
  { rewrite mk_ratio_this. apply Qlt_shift_div_l.
    - change 0%Q with (inject_Z 0). by rewrite <- Zlt_Qlt.
    - rewrite Qmult_0_l. change 0%Q with (inject_Z 0). by rewrite <- Zlt_Qlt. }
  unfold ratio_num. destruct (this (mk_ratio Num Den)) as [n d].
  unfold Qlt in H. simpl in *. lia.
Qed.

Lemma mk_ratio_not_one (Num Den : Z) :
  0 < Den -> Num <> Den -> ratio_num (mk_ratio Num Den) <> ratio_den (mk_ratio Num Den).
Proof.
  intros HD Hne Heq. apply Hne.
  assert (H1 : (this (mk_ratio Num Den) == 1)%Q).
  { unfold ratio_num, ratio_den in Heq. destruct (this (mk_ratio Num Den)) as [n d].
    unfold Qeq. simpl in *. lia. }
  rewrite mk_ratio_this in H1.
  assert (HDq : ~ (inject_Z Den == 0)%Q).
  { change 0%Q with (inject_Z 0). rewrite inject_Z_injective. lia. }
  apply (Qmult_inj_r _ _ (inject_Z Den)) in H1; [|exact HDq].
  rewrite Qmult_1_l in H1. unfold Qdiv in H1.
  rewrite <- Qmult_assoc, (Qmult_comm (/ _)), Qmult_inv_r, Qmult_1_r in H1 by exact HDq.
  by apply inject_Z_injective.
Qed.

Lemma valid_power_exponent (Num : Z) (Den : option Z) :
  valid_power Num Den = true ->
  0 < ratio_num (power_exponent Num Den) /\
  ratio_num (power_exponent Num Den) <> ratio_den (power_exponent Num Den).
Proof.
  unfold valid_power, power_exponent. destruct Den as [d|]; simpl.
  - rewrite !andb_true_iff, negb_true_iff, !bool_decide_eq_true, bool_decide_eq_false.
    intros [[HN HD] Hne]. split; [by apply mk_ratio_positive|by apply mk_ratio_not_one].
  - rewrite !andb_true_iff, negb_true_iff, !bool_decide_eq_true, bool_decide_eq_false.
    intros [HN Hne]. split; [by apply mk_ratio_positive|by apply mk_ratio_not_one].
Qed.

Lemma make_power_or_T (T : unit) (r : ratio) :
  0 < ratio_num r -> ratio_num r <> ratio_den r ->
  make_power T (ratio_num r) (ratio_den r) = Ok (derived_unit [power_or_T T r] []).
Proof.
  intros Hpos Hne. unfold make_power, power_or_T. cbv zeta.
  destruct (decide (ratio_den r = 1)) as [Hd|Hd].
  - destruct (decide (ratio_num r = 1)) as [Hn|Hn]; [congruence|].
    cbn [valid_factor valid_power].
    rewrite (bool_decide_eq_true_2 _ Hpos), (bool_decide_eq_false_2 _ Hn). reflexivity.
  - assert (Hdpos : 0 < ratio_den r) by (unfold ratio_den; lia).
    cbn [valid_factor valid_power].
    rewrite (bool_decide_eq_true_2 _ Hpos), (bool_decide_eq_true_2 _ Hdpos),
      (bool_decide_eq_false_2 _ Hne). reflexivity.
Qed.

Lemma pow_has_symbol `{TypeName} (Num Den : Z) (u : unit) :
  Den <> 0 -> has_symbol u = true -> pow Num Den u = make_power u Num Den.
Proof.
  intros HD Hu. destruct u; try discriminate; cbn [pow has_symbol];
    by destruct (decide (Den = 0)).
Qed.

Lemma canonical_power_of_named `{TypeName} (F : unit) (Num : Z) (Den : option Z) :
  let c := get_canonical_unit F in
  let r := power_exponent Num Den in
  has_symbol (reference_unit c) = true ->
  valid_power Num Den = true ->
  mag (get_canonical_factor (power F Num Den)) = mag_pow r (mag c) /\
  pow (ratio_num r) (ratio_den r) (reference_unit c)
  = Ok (reference_unit (get_canonical_factor (power F Num Den))).
Proof.
  intros c r Hs Hv. split; [reflexivity|].
  destruct (valid_power_exponent Num Den Hv) as [Hpos Hne].
  rewrite pow_has_symbol; [|unfold ratio_den; lia|exact Hs].
  by apply make_power_or_T.
Qed.

(** C4, at the square of the newton.  The canonical reference unit of the
    newton is [g m / s²]; that of [power<newton, 2>] is this derived unit
    wrapped whole in an exponent node, not its square [g² m² / s⁴]: it is
    not an expression over base units.  So the newton equals
    [kg m / s²], and their squares are not even convertible. *)
Theorem canonical_power_of_newton :
  let e := reference_unit (get_canonical_unit si.newton) in
  e = derived_unit [bare si.gram; bare si.metre] [power si.second 2 None] /\
  reference_unit (get_canonical_factor (power si.newton 2 None))
  = derived_unit [power e 2 None] [] /\
  pow 2 1 e = Ok (derived_unit [power si.gram 2 None; power si.metre 2 None]
                               [power si.second 4 None]) /\
  pow 2 1 e <> Ok (reference_unit (get_canonical_factor (power si.newton 2 None))) /\
  unit_eq si.newton kilogram_metre_per_second_squared = true /\
  square si.newton = derived_unit [power si.newton 2 None] [] /\
  unit_eq (square si.newton) (square kilogram_metre_per_second_squared) = false /\
  convertible (square si.newton) (square kilogram_metre_per_second_squared) = false.
Proof.
  evaluate.
  intros E. vm_compute in E. discriminate.
Qed.

(** ** Power laws *)

Lemma power_or_T_two (U : unit) : power_or_T U (1 + 1)%Qc = power U 2 None.
Proof. reflexivity. Qed.

Lemma expr_multiply_self `{TypeName} (U : unit) :
  has_symbol U = true -> expr_multiply U U = derived_unit [power U 2 None] [].
Proof.
  intros HU. unfold expr_multiply.
  assert (Hone : unit_eqb U one = false) by (by destruct U).
  rewrite Hone.
  assert (Hopt : get_optimized_expression (type_list_merge_sorted [bare U] [bare U]) []
                 = derived_unit [power U 2 None] []).
  { unfold get_optimized_expression. cbn [type_list_merge_sorted].
    assert (Hm : (if expr_less (bare U) (bare U) then [bare U; bare U] else [bare U; bare U])
                 = [bare U; bare U]) by (by destruct (expr_less _ _)).
    rewrite Hm. unfold expr_consolidate. cbn [expr_consolidate_from expr_type exponent_of].
    rewrite unit_eqb_refl. cbv zeta.
    destruct (decide ((1 + 1)%Qc = 0%Qc)) as [E|_]; [discriminate E|].
    rewrite power_or_T_two. reflexivity. }
  destruct U; try discriminate; exact Hopt.
Qed.

(** The square of a unit with a symbol: [pow<2>(U)] is [U * U]. *)
Lemma pow_two_named `{TypeName} (U : unit) :
  has_symbol U = true -> pow 2 1 U = Ok (unit_mul U U).
Proof.
  intros HU. rewrite pow_has_symbol by done.
  rewrite unit_mul_not_scaled by (by destruct U).
  assert (Hm : unit_mul U U = expr_multiply U U).
  { rewrite unit_mul_not_scaled by (by destruct U). by destruct U. }
  replace (match U with
           | scaled_unit M2 R2 => mag_times M2 (unit_mul U R2)
           | _ => expr_multiply U U
           end) with (expr_multiply U U) by (by destruct U).
  by rewrite expr_multiply_self.
Qed.

Lemma mag_pow_two (M : magnitude) : mag_pow (mk_ratio 2 1) M = mag_mul M M.
Proof.
  assert (H2 : mk_ratio 2 1 = (1 + 1)%Qc) by (apply Qc_is_canon; reflexivity).
  apply map_eq. intros i. unfold mag_pow, mag_mul. rewrite lookup_omap, lookup_merge.
  destruct (M !! i) as [e|]; simpl; [|reflexivity].
  f_equal. rewrite H2. ring.
Qed.

Lemma pow_two_scaled `{TypeName} (M : magnitude) (R P : unit) :
  pow 2 1 R = Ok P -> unit_eq P (unit_mul R R) = true ->
  exists P', pow 2 1 (scaled_unit M R) = Ok P' /\
             unit_eq P' (unit_mul (scaled_unit M R) (scaled_unit M R)) = true.
Proof.
  intros HP Heq. cbn [pow has_symbol]. destruct (decide (1 = 0)) as [|_]; [lia|].
  rewrite HP. cbn [bind]. eexists. split; [reflexivity|].
  apply unit_eq_iff in Heq as [Href Hmag]. apply unit_eq_iff.
  cbn [unit_mul]. unfold mag_times. rewrite mag_pow_two.
  destruct (mag_eqb (mag_mul M M) mag_one) eqn:E.
  - apply mag_eqb_eq in E. unfold get_canonical_unit in *.
    cbn [get_canonical_unit_impl mag reference_unit].
    rewrite E, mag_mul_one_l. by split.
  - unfold get_canonical_unit in *. cbn [get_canonical_unit_impl mag reference_unit].
    rewrite Hmag. by split.
Qed.

Lemma ltb_irrefl (s : string) : String.ltb s s = false.
Proof.
  unfold String.ltb. pose proof (String.compare_antisym s s) as H.
  by destruct (String.compare s s).
Qed.

Lemma two_ratio : mk_ratio 2 1 = (1 + 1)%Qc.
Proof. apply Qc_is_canon. reflexivity. Qed.

Lemma expr_type_factor_pow (R : ratio) (f : factor) : expr_type (factor_pow R f) = expr_type f.
Proof. apply expr_type_power_or_T. Qed.

Section squares.
Context `{TypeName}.

Lemma expr_less_irrefl (a : factor) : expr_less a a = false.
Proof.
  unfold expr_less. rewrite unit_eqb_refl. destruct a as [U|F n d].
  - apply ltb_irrefl.
  - apply bool_decide_eq_false. intros Hlt. apply Qclt_not_le in Hlt. apply Hlt, Qcle_refl.
Qed.

Lemma merge_self (l : list factor) :
  sorted_factors l -> type_list_merge_sorted l l = duplicate l.
Proof.
  induction l as [|a l IH]; [reflexivity|].
  intros (Hprec & _ & Hsorted). cbn [type_list_merge_sorted duplicate].
  rewrite expr_less_irrefl. f_equal.
  destruct l as [|b l]; [reflexivity|].
  destruct Hprec as [Hlt _]. rewrite Hlt. f_equal. by apply IH.
Qed.

Lemma consolidate_distinct (l : list factor) (c : factor) :
  (forall b l', l = b :: l' -> unit_eqb (expr_type c) (expr_type b) = false) ->
  expr_consolidate_from (Some c) l =
    c :: expr_consolidate_from None l.
Proof.
  intros Hc. destruct l as [|b l]; [reflexivity|].
  cbn [expr_consolidate_from]. by rewrite (Hc b l).
Qed.

Lemma consolidate_duplicate (l : list factor) :
  sorted_factors l ->
  expr_consolidate_from None (duplicate l) = factor_pow (mk_ratio 2 1) <$> l.
Proof.
  induction l as [|a l IH]; [reflexivity|].
  intros (Hprec & Hne & Hsorted). cbn [duplicate expr_consolidate_from fmap list_fmap].
  rewrite unit_eqb_refl. cbv zeta.
  destruct (decide ((exponent_of a + exponent_of a)%Qc = 0%Qc)) as [E|_].
  { destruct Hne. apply (Qcmult_integral_l (1 + 1)%Qc); [discriminate|]. rewrite <- E. ring. }
  rewrite consolidate_distinct.
  - unfold factor_pow at 1. rewrite two_ratio.
    replace (exponent_of a * (1 + 1))%Qc with (exponent_of a + exponent_of a)%Qc by ring.
    f_equal. by apply IH.
  - intros b l' Hl. rewrite expr_type_power_or_T.
    destruct l as [|b' l'']; [discriminate|]. simpl in Hl. injection Hl as <- _.
    by destruct Hprec.
Qed.

Lemma consolidate_powers (R : ratio) (l : list factor) :
  sorted_factors l ->
  expr_consolidate_from None (factor_pow R <$> l) = factor_pow R <$> l.
Proof.
  induction l as [|a l IH]; [reflexivity|].
  intros (Hprec & Hne & Hsorted). cbn [fmap list_fmap expr_consolidate_from].
  rewrite consolidate_distinct.
  - f_equal. by apply IH.
  - intros b l' Hl. destruct l as [|b' l'']; [discriminate|].
    cbn [fmap list_fmap] in Hl. injection Hl as <- _.
    rewrite !expr_type_factor_pow. by destruct Hprec.
Qed.

Lemma pow_two_derived (nums dens : list factor) :
  sorted_factors (num_list nums dens) -> sorted_factors dens ->
  pow 2 1 (derived_unit nums dens) = Ok (unit_mul (derived_unit nums dens) (derived_unit nums dens)).
Proof.
  intros Hn Hd. cbn [pow has_symbol unit_mul]. destruct (decide (1 = 0)) as [|_]; [lia|].
  unfold expr_pow, expr_multiply. cbn [unit_eqb].
  destruct (decide (0 < mk_ratio 2 1)%Qc) as [_|Hneg]; [|by destruct Hneg].
  f_equal. unfold get_optimized_expression, expr_consolidate.
  by rewrite !merge_self, !consolidate_duplicate, !consolidate_powers.
Qed.
End squares.

(** [power(U, 2, 1)] equals [U * U] for a unit with a symbol and for a
    derived unit with sorted lists, scaled or not. *)
Lemma pow_two_square `{TypeName} (U : unit) :
  sorted_expression U ->
  exists P, pow 2 1 U = Ok P /\ unit_eq P (unit_mul U U) = true.
Proof.
  induction U as [? ?|? ? ? _|? ? ? ? _|M R IH|nums dens|]; intros HU;
    try (eexists; split; [by apply pow_two_named|apply unit_eq_refl]).
  - destruct (IH HU) as (P & HP & Heq). by apply (pow_two_scaled M R P).
  - destruct HU as [Hn Hd]. eexists. split; [by apply pow_two_derived|apply unit_eq_refl].
Qed.

Lemma num_list_atomic (nums dens : list factor) :
  Forall atomic nums -> num_list nums dens = nums.
Proof.
  intros Hn. unfold num_list.
  destruct nums as [|[U|F n d] [|g nums]], dens as [|dn dens]; try reflexivity.
  inversion_clear Hn as [|? ? [_ HU] _]. simpl in HU. by rewrite HU.
Qed.

Lemma num_list_one (dens : list factor) :
  num_list [bare one] dens = match dens with [] => [bare one] | _ => [] end.
Proof. by destruct dens. Qed.

(** Inverting twice returns every expression over atoms the library forms. *)
Lemma expr_invert_involutive (nums dens : list factor) :
  Forall atomic nums -> Forall atomic dens ->
  expr_invert (expr_invert (expr_make_spec nums dens)) = expr_make_spec nums dens.
Proof.
  intros Hn Hd.
  destruct nums as [|n nums], dens as [|d dens].
  - reflexivity.
  - cbn [expr_make_spec expr_invert]. rewrite num_list_one.
    destruct d as [U|F x y], dens as [|d' dens]; try reflexivity.
    inversion_clear Hd as [|? ? [HU _] _]. simpl in HU.
    cbn [expr_make_spec]. by destruct U.
  - destruct n as [U|F x y], nums as [|n' nums]; try reflexivity.
    inversion_clear Hn as [|? ? [HU _] _]. simpl in HU.
    cbn [expr_make_spec]. by destruct U.
  - assert (E : expr_make_spec (n :: nums) (d :: dens) = derived_unit (n :: nums) (d :: dens)).
    { by destruct n as [U|F x y], nums. }
    rewrite E. cbn [expr_invert]. rewrite (num_list_atomic (n :: nums)) by done.
    assert (E' : expr_make_spec (d :: dens) (n :: nums) = derived_unit (d :: dens) (n :: nums)).
    { by destruct d as [U|F x y], dens. }
    rewrite E'. cbn [expr_invert]. rewrite (num_list_atomic (d :: dens)) by done.
    exact E.
Qed.

(** Inverting twice returns a unit that is not a [derived_unit]. *)
Lemma expr_invert_twice (u : unit) :
  is_specialization_of_derived_unit u = false -> expr_invert (expr_invert u) = u.
Proof. by destruct u. Qed.

Lemma unit_inv_twice (u v : unit) :
  is_specialization_of_derived_unit u = false ->
  unit_inv 1 u = Ok v -> unit_inv 1 v = Ok u.
Proof.
  intros Hu Hv. apply unit_inv_ok in Hv as [_ ->].
  unfold unit_inv. destruct (decide (1 = 1)); [|done]. by rewrite expr_invert_twice.
Qed.

(** Were the exponent node with the exponent one admitted, it would not equal
    the base unit it holds. *)
Lemma power_one_node_differs `{TypeName} (name : string) (Symbol : basic_symbol_text) :
  let U := named_unit name Symbol in
  reference_unit (get_canonical_unit (derived_unit [power U 1 None] []))
  = derived_unit [bare U] [] /\
  unit_eq (derived_unit [power U 1 None] []) U = false.
Proof.
  intros U. assert (Href : reference_unit (get_canonical_unit (derived_unit [power U 1 None] []))
                           = derived_unit [bare U] []) by reflexivity.
  split; [exact Href|].
  unfold unit_eq. cbv zeta. rewrite Href. reflexivity.
Qed.

(** A power node cannot be formed with the exponent one for a unit with a
    symbol. *)
Lemma pow_one_named `{TypeName} (U : unit) :
  has_symbol U = true -> pow 1 1 U = Err IllFormed.
Proof. intros HU. by rewrite pow_has_symbol. Qed.

(** C5, at [pow<1>(metre)].  For a unit with a symbol [pow<1, 1>] builds
    [derived_unit<power<metre, 1>>], an exponent node that cannot be formed
    with the exponent one, and that would not equal the metre: its
    canonical reference unit is [derived_unit<metre>], not [metre].  The
    other two laws hold here: [pow<2>(metre)] is [metre * metre] and
    [1 / (1 / metre)] is the metre. *)
Theorem pow_one_of_metre :
  pow 1 1 si.metre = Err IllFormed /\
  unit_eq (derived_unit [power si.metre 1 None] []) si.metre = false /\
  reference_unit (get_canonical_unit (derived_unit [power si.metre 1 None] []))
  = derived_unit [bare si.metre] [] /\
  pow 2 1 si.metre = Ok (unit_mul si.metre si.metre) /\
  unit_eq (expr_invert (expr_invert si.metre)) si.metre = true.
Proof. evaluate. Qed.

(** [kg m / s²] is such a sorted expression, and its square by [pow<2>] is
    its product with itself. *)
Lemma pow_two_square_example :
  sorted_expression kilogram_metre_per_second_squared /\
  exists P, pow 2 1 kilogram_metre_per_second_squared = Ok P /\
            unit_eq P (square kilogram_metre_per_second_squared) = true.
Proof.
  assert (Hs : sorted_expression kilogram_metre_per_second_squared).
  { vm_compute. repeat split; discriminate. }
  split; [exact Hs|]. exact (pow_two_square _ Hs).
Qed.

(** The three laws on derived units: the square of [m/s] is [m²/s²], its
    first power and its double inverse are [m/s]. *)
Lemma power_laws_metre_per_second :
  let u := unit_div si.metre si.second in
  pow 2 1 u = Ok (unit_mul u u) /\
  pow 1 1 u = Ok u /\
  expr_invert (expr_invert u) = u.
Proof. evaluate. Qed.

Lemma unit_eq_sym `{TypeName} (u v : unit) : unit_eq u v = unit_eq v u.
Proof.
  apply eq_true_iff_eq. rewrite !unit_eq_iff. split; intros [-> ->]; by split.
Qed.

Lemma convertible_sym `{TypeName} (u v : unit) : convertible u v = convertible v u.
Proof. apply eq_true_iff_eq. rewrite !convertible_iff. split; by intros ->. Qed.

(** X1.  [operator==] and [convertible] are equivalence relations on units,
    and equal units are convertible. *)
Theorem unit_eq_equivalence `{TypeName} :
  (forall u : unit, unit_eq u u = true) /\
  (forall u v : unit, unit_eq u v = unit_eq v u) /\
  (forall u v w : unit, unit_eq u v = true -> unit_eq v w = true -> unit_eq u w = true) /\
  (forall u : unit, convertible u u = true) /\
  (forall u v : unit, convertible u v = convertible v u) /\
  (forall u v w : unit,
      convertible u v = true -> convertible v w = true -> convertible u w = true) /\
  (forall u v : unit, unit_eq u v = true -> convertible u v = true).
Proof.
  split; [exact unit_eq_refl|]. split; [exact unit_eq_sym|]. split.
  { intros u v w. rewrite !unit_eq_iff. intros [-> ->] [-> ->]. by split. }
  split; [intros u; by apply convertible_iff|]. split; [exact convertible_sym|]. split.
  { intros u v w. rewrite !convertible_iff. by intros -> ->. }
  exact unit_eq_convertible.
Qed.

Lemma unit_eq_equivalence_witness :
  unit_eq (expr_invert si.second) si.hertz = true /\
  unit_eq si.hertz si.becquerel = true /\
  unit_eq (expr_invert si.second) si.becquerel = true /\
  convertible (expr_invert si.second) si.becquerel = true.
Proof.
  assert (H1 : unit_eq (expr_invert si.second) si.hertz = true) by (vm_compute; reflexivity).
  assert (H2 : unit_eq si.hertz si.becquerel = true) by (vm_compute; reflexivity).
  pose proof (proj1 (proj2 (proj2 (@unit_eq_equivalence compiler_names))) _ _ _ H1 H2) as H3.
  split; [exact H1|]. split; [exact H2|]. split; [exact H3|].
  exact (proj2 (proj2 (proj2 (proj2 (proj2 (proj2 (@unit_eq_equivalence compiler_names))))))
           _ _ H3).
Defined.

(** ** Names, prefixes and scaling factors *)

Lemma canonical_mag_times `{TypeName} (M : magnitude) (U : unit) :
  get_canonical_unit (mag_times M U)
  = {| mag := mag_mul M (mag (get_canonical_unit U));
       reference_unit := reference_unit (get_canonical_unit U) |}.
Proof.
  unfold mag_times. destruct (mag_eqb M mag_one) eqn:E; [|reflexivity].
  apply mag_eqb_eq in E as ->. rewrite mag_mul_one_l. by destruct (get_canonical_unit U).
Qed.

(** X2.  The canonical unit sees through names, prefixes and scaling
    factors.  A unit named after another unit equals it, and two names
    given to equal units are equal units; [M * U] is convertible to [U],
    its canonical magnitude is [M] times that of [U], and scaling equal
    units by the same magnitude gives equal units; a prefixed unit equals
    the unit scaled by the magnitude of the prefix. *)
Theorem canonical_unit_transparent `{TypeName} :
  (forall (name : string) (Symbol : basic_symbol_text) (U : unit),
      unit_eq (named_unit_of name Symbol U) U = true) /\
  (forall (n1 n2 : string) (s1 s2 : basic_symbol_text) (U1 U2 : unit),
      unit_eq U1 U2 = true ->
      unit_eq (named_unit_of n1 s1 U1) (named_unit_of n2 s2 U2) = true) /\
  (forall (M : magnitude) (U : unit),
      convertible (mag_times M U) U = true /\
      mag (get_canonical_unit (mag_times M U)) = mag_mul M (mag (get_canonical_unit U))) /\
  (forall (M : magnitude) (U1 U2 : unit),
      unit_eq U1 U2 = true -> unit_eq (mag_times M U1) (mag_times M U2) = true) /\
  (forall (name : string) (Symbol : basic_symbol_text) (M : magnitude) (U : unit),
      M <> mag_one ->
      unit_eq (prefixed_unit name Symbol M U) (mag_times M U) = true /\
      convertible (prefixed_unit name Symbol M U) U = true).
Proof.
  split; [intros; by apply unit_eq_iff|]. split.
  { intros n1 n2 s1 s2 U1 U2. rewrite !unit_eq_iff. tauto. }
  split.
  { intros M U. rewrite convertible_iff, canonical_mag_times. by split. }
  split.
  { intros M U1 U2. rewrite !unit_eq_iff, !canonical_mag_times. cbn [mag reference_unit].
    by intros [-> ->]. }
  intros name Symbol M U HM.
  assert (E : mag_eqb M mag_one = false) by (apply bool_decide_eq_false; exact HM).
  rewrite unit_eq_iff, convertible_iff, canonical_mag_times.
  unfold get_canonical_unit. cbn [get_canonical_unit_impl]. rewrite E. by repeat split.
Qed.

Lemma canonical_unit_transparent_witness :
  mag_power 10 (ratio_of_Z 3) <> mag_one /\
  unit_eq si.kilometre (mag_times (mag_power 10 (ratio_of_Z 3)) si.metre) = true /\
  convertible si.kilometre si.metre = true /\
  unit_eq si.hertz si.becquerel = true.
Proof.
  assert (HM : mag_power 10 (ratio_of_Z 3) <> mag_one).
  { intros E. apply (f_equal (fun m => bool_decide (m = mag_one))) in E.
    vm_compute in E. discriminate. }
  split; [exact HM|].
  pose proof (proj2 (proj2 (proj2 (proj2 (@canonical_unit_transparent compiler_names))))
                "kilo_" (symbol_text_of "k") _ si.metre HM) as [H1 H2].
  split; [exact H1|]. split; [exact H2|].
  exact (proj1 (proj2 (@canonical_unit_transparent compiler_names))
           "hertz" "becquerel" (symbol_text_of "Hz") (symbol_text_of "Bq")
           (expr_invert si.second) (expr_invert si.second) (unit_eq_refl _)).
Defined.

(** ** The order of the factors of a product *)

Lemma ltb_total (a b : string) : String.ltb a b = false -> String.ltb b a = false -> a = b.
Proof.
  unfold String.ltb. rewrite (String.compare_antisym b a).
  destruct (String.compare a b) eqn:E; try discriminate.
  intros _ _. by apply String.compare_eq_iff.
Qed.

Lemma ltb_asym (a b : string) : String.ltb a b = true -> String.ltb b a = false.
Proof.
  unfold String.ltb. rewrite (String.compare_antisym b a).
  by destruct (String.compare a b).
Qed.

(** X4.  The product of two units with symbols does not depend on the order
    of the operands, when different unit types have different type names
    (factors are ordered by [type_name]). *)
Theorem unit_mul_named_commutes `{TypeName} (a b : unit) :
  has_symbol a = true -> has_symbol b = true ->
  (type_name a = type_name b -> a = b) ->
  unit_mul a b = unit_mul b a.
Proof.
  intros Ha Hb Hname.
  assert (Hm : forall x y, has_symbol x = true -> has_symbol y = true ->
               unit_mul x y = get_optimized_expression
                                (type_list_merge_sorted [bare x] [bare y]) []).
  { intros x y Hx Hy. rewrite unit_mul_not_scaled by (by destruct x).
    transitivity (expr_multiply x y); [by destruct y|]. unfold expr_multiply.
    replace (unit_eqb x one) with false by (by destruct x).
    replace (unit_eqb y one) with false by (by destruct y).
    destruct x; try discriminate; destruct y; try discriminate; reflexivity. }
  rewrite !Hm by done. f_equal. cbn [type_list_merge_sorted].
  unfold expr_less. cbn [expr_type]. unfold unit_less.
  destruct (unit_eqb a b) eqn:Eab.
  { apply unit_eqb_eq in Eab as ->. rewrite unit_eqb_refl. by destruct (String.ltb _ _). }
  replace (unit_eqb b a) with false.
  2:{ symmetry. apply unit_eqb_neq. apply unit_eqb_neq in Eab. congruence. }
  destruct (String.ltb (type_name a) (type_name b)) eqn:E1.
  - by rewrite (ltb_asym _ _ E1).
  - destruct (String.ltb (type_name b) (type_name a)) eqn:E2; [reflexivity|].
    apply unit_eqb_neq in Eab. destruct Eab. apply Hname. by apply ltb_total.
Qed.

Lemma unit_mul_named_commutes_witness :
  unit_mul si.metre si.second = derived_unit [bare si.metre; bare si.second] [] /\
  unit_mul si.second si.metre = derived_unit [bare si.metre; bare si.second] [].
Proof.
  assert (Hm : unit_mul si.metre si.second = derived_unit [bare si.metre; bare si.second] [])
    by (vm_compute; reflexivity).
  split; [exact Hm|]. rewrite <- Hm. symmetry.
  apply (@unit_mul_named_commutes compiler_names si.metre si.second eq_refl eq_refl).
  intros E. vm_compute in E. discriminate.
Defined.

(** ** The unit [one] *)

Section neutral.
Context `{TypeName}.

Lemma expr_multiply_one_l (u : unit) : expr_multiply one u = u.
Proof. reflexivity. Qed.

Lemma expr_multiply_one_r (u : unit) : expr_multiply u one = u.
Proof.
  unfold expr_multiply. destruct (unit_eqb u one) eqn:E; [|reflexivity].
  symmetry. by apply unit_eqb_eq.
Qed.

Lemma expr_divide_one_r (u : unit) : expr_divide u one = u.
Proof.
  unfold expr_divide. destruct (unit_eqb u one) eqn:E; [|reflexivity].
  symmetry. by apply unit_eqb_eq.
Qed.

Lemma mag_times_properly_scaled (M : magnitude) (R : unit) :
  negb (mag_eqb M mag_one) && properly_scaled R = true -> mag_times M R = scaled_unit M R.
Proof.
  rewrite andb_true_iff, negb_true_iff. intros [E _]. unfold mag_times. by rewrite E.
Qed.
End neutral.

(** X3.  [one] is the neutral element of the product and of the quotient:
    [one * U], [U * one] and [U / one] are the unit type [U] itself, for
    every unit [U] whose [scaled_unit] wrappers, if any, hold magnitudes
    other than [mag<1>]; and the quotient of a unit that is not a
    [scaled_unit] by itself is [one]. *)
Theorem one_is_neutral `{TypeName} :
  (forall u : unit,
      properly_scaled u = true ->
      unit_mul one u = u /\ unit_mul u one = u /\ unit_div u one = u) /\
  (forall u : unit, is_specialization_of_scaled_unit u = false -> unit_div u u = one).
Proof.
  split.
  - intros u. induction u as [? ?|? ? ? _|? ? ? ? _|M R IH|? ?|]; intros Hu;
      try (split; [reflexivity|split; [apply expr_multiply_one_r|apply expr_divide_one_r]]).
    pose proof Hu as Hu'. cbn [properly_scaled] in Hu'.
    apply andb_true_iff in Hu' as [_ HR]. destruct (IH HR) as (H1 & H2 & H3).
    split; [|split].
    + rewrite unit_mul_not_scaled by reflexivity. rewrite H1.
      by apply mag_times_properly_scaled.
    + change (unit_mul (scaled_unit M R) one) with (mag_times M (unit_mul R one)).
      rewrite H2. by apply mag_times_properly_scaled.
    + change (unit_div (scaled_unit M R) one) with (mag_times M (unit_div R one)).
      rewrite H3. by apply mag_times_properly_scaled.
  - intros u Hu. rewrite unit_div_not_scaled by exact Hu.
    transitivity (expr_divide u u); [by destruct u|].
    unfold expr_divide. by rewrite unit_eqb_refl.
Qed.

Lemma one_is_neutral_witness :
  properly_scaled si.kilometre = true /\
  unit_mul one si.kilometre = si.kilometre /\
  unit_mul si.kilometre one = si.kilometre /\
  unit_div si.kilometre one = si.kilometre /\
  unit_div si.kilometre si.kilometre = one.
Proof.
  assert (Hk : properly_scaled si.kilometre = true) by reflexivity.
  split; [exact Hk|].
  destruct (proj1 (@one_is_neutral compiler_names) si.kilometre Hk) as (H1 & H2 & H3).
  split; [exact H1|]. split; [exact H2|]. split; [exact H3|].
  exact (proj2 (@one_is_neutral compiler_names) si.kilometre eq_refl).
Defined.

(** ** Powers with the same exponent *)

Lemma make_power_canonical `{TypeName} (T : unit) (Num Den : Z) (v : unit) :
  make_power T Num Den = Ok v ->
  get_canonical_unit v
  = {| mag := mag_mul mag_one (mag_pow (mk_ratio Num Den) (mag (get_canonical_unit T)));
       reference_unit :=
         unit_mul one (derived_unit [power_or_T (reference_unit (get_canonical_unit T))
                                                (mk_ratio Num Den)] []) |}.
Proof.
  unfold make_power. cbv zeta. destruct (valid_factor _); [|discriminate]. intros [= <-].
  unfold get_canonical_unit. cbn [get_canonical_unit_impl canonical_product fold_left
    get_canonical_factor mag reference_unit]. unfold power_exponent.
  by destruct (decide (Den = 1)) as [->|_].
Qed.

(** X9.  The unit that [pow] gives depends on the value of the exponent
    only, up to equality: [pow<Num, Den>(U)] and [pow<Num', Den'>(U)] are
    equal units when [Num/Den] and [Num'/Den'] are the same ratio.  (The
    unit types may differ: for a unit with a symbol the power node holds the
    exponent as it is given.) *)
Theorem pow_equal_exponents `{TypeName} (Num Den Num' Den' : Z) (u v v' : unit) :
  mk_ratio Num Den = mk_ratio Num' Den' ->
  pow Num Den u = Ok v -> pow Num' Den' u = Ok v' ->
  unit_eq v v' = true.
Proof.
  intros Hr. revert v v'.
  induction u as [? ?|? ? ? _|? ? ? ? _|M R IH|nums dens|]; intros v v'; cbn [pow has_symbol];
    (destruct (decide (Den = 0)); [discriminate|]);
    (destruct (decide (Den' = 0)); [discriminate|]);
    try (intros Hv Hv'; apply unit_eq_iff;
         cbn [expr_pow] in Hv, Hv';
         rewrite (make_power_canonical _ _ _ _ Hv), (make_power_canonical _ _ _ _ Hv'), Hr;
         by split).
  - intros (r & HR & [= <-])%bind_ok (r' & HR' & [= <-])%bind_ok.
    specialize (IH _ _ HR HR'). apply unit_eq_iff in IH as [Href Hmag]. apply unit_eq_iff.
    unfold get_canonical_unit in *. cbn [get_canonical_unit_impl mag reference_unit].
    by rewrite Hr, Href, Hmag.
  - cbn [expr_pow]. cbv zeta. rewrite Hr. destruct (decide _); [|discriminate].
    intros [= <-] [= <-]. apply unit_eq_refl.
Qed.

Lemma pow_equal_exponents_witness :
  mk_ratio 4 2 = mk_ratio 2 1 /\
  pow 4 2 si.metre = Ok (derived_unit [power si.metre 4 (Some 2)] []) /\
  pow 2 1 si.metre = Ok (derived_unit [power si.metre 2 None] []) /\
  unit_eq (derived_unit [power si.metre 4 (Some 2)] [])
          (derived_unit [power si.metre 2 None] []) = true.
Proof.
  assert (Hr : mk_ratio 4 2 = mk_ratio 2 1) by (apply Qc_is_canon; reflexivity).
  assert (H1 : pow 4 2 si.metre = Ok (derived_unit [power si.metre 4 (Some 2)] []))
    by reflexivity.
  assert (H2 : pow 2 1 si.metre = Ok (derived_unit [power si.metre 2 None] []))
    by reflexivity.
  split; [exact Hr|]. split; [exact H1|]. split; [exact H2|].
  exact (@pow_equal_exponents compiler_names 4 2 2 1 si.metre _ _ Hr H1 H2).
Defined.

Lemma mk_ratio_num_den (r : ratio) : mk_ratio (ratio_num r) (ratio_den r) = r.
Proof.
  apply Qc_is_canon. rewrite mk_ratio_this. unfold ratio_num, ratio_den.
  destruct (this r) as [n d]. simpl. symmetry. apply Qmake_Qdiv.
Qed.

Lemma ratio_one (r : ratio) : ratio_num r = 1 -> ratio_den r = 1 -> r = 1%Qc.
Proof.
  intros Hn Hd. rewrite <- (mk_ratio_num_den r), Hn, Hd. apply Qc_is_canon. reflexivity.
Qed.

Lemma exponent_of_power_or_T (T : unit) (r : ratio) : exponent_of (power_or_T T r) = r.
Proof.
  unfold power_or_T. destruct (decide (ratio_den r = 1)) as [Hd|Hd].
  - destruct (decide (ratio_num r = 1)) as [Hn|Hn]; simpl.
    + symmetry. by apply ratio_one.
    + unfold power_exponent. simpl. rewrite <- Hd. apply mk_ratio_num_den.
  - simpl. unfold power_exponent. simpl. apply mk_ratio_num_den.
Qed.

Lemma get_power_one (i : basis) : get_power i mag_one = 0%Qc.
Proof. reflexivity. Qed.

Section powers.
Context `{TypeName}.
Variable i : basis.

Lemma canonical_power_one : canonical_power i one = 0%Qc.
Proof. reflexivity. Qed.

Lemma derived_from_empty_canonical (U : unit) :
  derived_from U (derived_unit [] []) = true ->
  get_canonical_unit U = {| mag := mag_one; reference_unit := one |}.
Proof.
  unfold get_canonical_unit.
  induction U as [? ?|? ? U IH|? ? M U IH|? ? _|nums dens|];
    cbn [derived_from get_canonical_unit_impl]; rewrite orb_true_iff, unit_eqb_eq;
    (intros [Hab|Hab]; [try discriminate|]); try discriminate.
  - by apply IH.
  - destruct (mag_eqb M mag_one) eqn:E.
    + destruct U; try discriminate; by apply IH.
    + discriminate.
  - by injection Hab as -> ->.
  - reflexivity.
Qed.

Lemma canonical_factor_power (f : factor) :
  get_power i (mag (get_canonical_factor f)) = factor_power i f.
Proof.
  unfold factor_power, canonical_power, get_canonical_unit.
  destruct f as [U|F n d]; cbn [get_canonical_factor expr_type exponent_of mag].
  - ring.
  - apply get_power_pow.
Qed.

Lemma canonical_product_power (l : list factor) :
  get_power i (mag (canonical_product get_canonical_factor l)) = factors_power i l.
Proof.
  unfold canonical_product.
  assert (G : forall acc,
             get_power i (mag (fold_left
               (fun acc f => {| mag := mag_mul (mag acc) (mag (get_canonical_factor f));
                                reference_unit := unit_mul (reference_unit acc)
                                                    (reference_unit (get_canonical_factor f)) |})
               l acc)) = (get_power i (mag acc) + factors_power i l)%Qc).
  { induction l as [|f l IH]; intros acc; cbn [fold_left factors_power].
    - ring.
    - rewrite IH. cbn [mag]. rewrite get_power_mul, canonical_factor_power. ring. }
  rewrite G. cbn [mag]. rewrite get_power_one. ring.
Qed.

Lemma canonical_power_derived (nums dens : list factor) :
  canonical_power i (derived_unit nums dens)
  = (factors_power i (num_list nums dens) - factors_power i dens)%Qc.
Proof.
  unfold canonical_power. rewrite get_canonical_unit_derived.
  destruct dens as [|d dens].
  - rewrite canonical_product_power.
    replace (num_list nums []) with nums by (unfold num_list; by destruct nums as [|[] []]).
    cbn [factors_power]. ring.
  - cbv zeta. cbn [mag]. rewrite get_power_div, !canonical_product_power. reflexivity.
Qed.

Lemma factors_power_app (l1 l2 : list factor) :
  factors_power i (l1 ++ l2) = (factors_power i l1 + factors_power i l2)%Qc.
Proof. induction l1 as [|a l1 IH]; cbn [app factors_power]; [ring|rewrite IH; ring]. Qed.

Lemma merge_power (l1 l2 : list factor) :
  factors_power i (type_list_merge_sorted l1 l2)
  = (factors_power i l1 + factors_power i l2)%Qc.
Proof.
  revert l2. induction l1 as [|a l1 IH1]; intros l2.
  - destruct l2; cbn [type_list_merge_sorted factors_power]; ring.
  - induction l2 as [|b l2 IH2]; [cbn [type_list_merge_sorted factors_power]; ring|].
    cbn [type_list_merge_sorted]. destruct (expr_less a b).
    + cbn [factors_power]. rewrite IH1. cbn [factors_power]. ring.
    + cbn [factors_power]. cbn [type_list_merge_sorted] in IH2. rewrite IH2.
      cbn [factors_power]. ring.
Qed.

Lemma factor_power_power_or_T (T : unit) (r : ratio) :
  factor_power i (power_or_T T r) = (r * canonical_power i T)%Qc.
Proof. unfold factor_power. by rewrite exponent_of_power_or_T, expr_type_power_or_T. Qed.

Lemma consolidate_from_power (rest : list factor) (cur : option factor) :
  factors_power i (expr_consolidate_from cur rest)
  = (factors_power i (option_list cur) + factors_power i rest)%Qc.
Proof.
  revert cur. induction rest as [|f rest IH]; intros cur; cbn [expr_consolidate_from].
  - destruct cur; cbn [option_list option_rect factors_power]; ring.
  - destruct cur as [c|].
    + destruct (unit_eqb (expr_type c) (expr_type f)) eqn:E.
      * apply unit_eqb_eq in E. cbv zeta.
        destruct (decide ((exponent_of c + exponent_of f)%Qc = 0%Qc)) as [E0|E0];
          rewrite IH; cbn [option_list option_rect factors_power].
        -- unfold factor_power. rewrite <- E.
           replace (exponent_of c * canonical_power i (expr_type c) + 0 +
                    (exponent_of f * canonical_power i (expr_type c) + factors_power i rest))%Qc
             with ((exponent_of c + exponent_of f) * canonical_power i (expr_type c)
                   + factors_power i rest)%Qc by ring.
           rewrite E0. ring.
        -- rewrite factor_power_power_or_T. unfold factor_power. rewrite <- E. ring.
      * cbn [factors_power]. rewrite IH. cbn [option_list option_rect factors_power]. ring.
    + rewrite IH. cbn [option_list option_rect factors_power]. ring.
Qed.

Lemma consolidate_power (l : list factor) :
  factors_power i (expr_consolidate l) = factors_power i l.
Proof. unfold expr_consolidate. rewrite consolidate_from_power. cbn. ring. Qed.

Lemma simplify_power (nums dens : list factor) :
  (factors_power i (expr_simplify nums dens).1 - factors_power i (expr_simplify nums dens).2)%Qc
  = (factors_power i nums - factors_power i dens)%Qc.
Proof.
  revert dens. induction nums as [|n nums IHn]; intros dens.
  - by destruct dens.
  - induction dens as [|d dens IHd]; [reflexivity|].
    cbn [expr_simplify]. destruct (unit_eqb (expr_type n) (expr_type d)) eqn:E.
    + apply unit_eqb_eq in E. cbv zeta. specialize (IHn dens).
      destruct (decide _); [|destruct (decide _)]; cbn [fst snd factors_power].
      * rewrite factor_power_power_or_T. unfold factor_power. rewrite <- E.
        transitivity ((exponent_of n - exponent_of d) * canonical_power i (expr_type n) +
                      (factors_power i (expr_simplify nums dens).1 -
                       factors_power i (expr_simplify nums dens).2))%Qc; [ring|].
        rewrite IHn. ring.
      * rewrite factor_power_power_or_T. unfold factor_power. rewrite <- E.
        transitivity ((exponent_of n - exponent_of d) * canonical_power i (expr_type n) +
                      (factors_power i (expr_simplify nums dens).1 -
                       factors_power i (expr_simplify nums dens).2))%Qc; [ring|].
        rewrite IHn. ring.
      * assert (E0 : (exponent_of n - exponent_of d)%Qc = 0%Qc).
        { apply Qcle_antisym; by apply Qcnot_lt_le. }
        rewrite IHn. unfold factor_power. rewrite <- E.
        transitivity ((exponent_of n - exponent_of d) * canonical_power i (expr_type n) +
                      (factors_power i nums - factors_power i dens))%Qc; [rewrite E0; ring|ring].
    + destruct (expr_less n d).
      * cbv zeta. cbn [fst snd factors_power]. specialize (IHn (d :: dens)).
        cbn [factors_power] in IHn.
        transitivity (factor_power i n +
                      (factors_power i (expr_simplify nums (d :: dens)).1 -
                       factors_power i (expr_simplify nums (d :: dens)).2))%Qc; [ring|].
        rewrite IHn. ring.
      * cbv zeta. cbn [fst snd factors_power]. cbn [expr_simplify factors_power] in IHd.
        match goal with
        | |- (factors_power i ?a.1 - (_ + factors_power i ?a.2))%Qc = _ =>
            transitivity ((factors_power i a.1 - factors_power i a.2) - factor_power i d)%Qc;
              [ring|]
        end.
        rewrite IHd. ring.
Qed.

Lemma make_spec_power (nums dens : list factor) :
  canonical_power i (expr_make_spec nums dens)
  = (factors_power i nums - factors_power i dens)%Qc.
Proof.
  unfold expr_make_spec.
  destruct nums as [|n nums].
  - destruct dens as [|d dens]; [reflexivity|].
    rewrite canonical_power_derived. rewrite num_list_one. cbn [factors_power]. ring.
  - assert (G : canonical_power i (derived_unit (n :: nums) dens)
                = (factors_power i (n :: nums) - factors_power i dens)%Qc).
    { rewrite canonical_power_derived. f_equal. unfold num_list.
      destruct n as [U|F x y], nums as [|g nums], dens as [|d dens]; try reflexivity.
      destruct (derived_from U (derived_unit [] [])) eqn:E; [|reflexivity].
      cbn [factors_power]. unfold factor_power, canonical_power. cbn [expr_type].
      rewrite (derived_from_empty_canonical U E). cbn [mag]. rewrite get_power_one. ring. }
    destruct n as [U|F x y], nums as [|g nums], dens as [|d dens]; try exact G.
    cbn [factors_power]. unfold factor_power. cbn [exponent_of expr_type]. ring.
Qed.

Lemma optimized_power (nums dens : list factor) :
  canonical_power i (get_optimized_expression nums dens)
  = (factors_power i nums - factors_power i dens)%Qc.
Proof.
  unfold get_optimized_expression. cbv zeta.
  by rewrite make_spec_power, simplify_power, !consolidate_power.
Qed.

Lemma factors_power_bare (u : unit) : factors_power i [bare u] = canonical_power i u.
Proof. cbn [factors_power]. unfold factor_power. cbn [exponent_of expr_type]. ring. Qed.

Lemma canonical_power_eq_one (u : unit) : unit_eqb u one = true -> canonical_power i u = 0%Qc.
Proof. rewrite unit_eqb_eq. by intros ->. Qed.

Lemma expr_multiply_power (lhs rhs : unit) :
  canonical_power i (expr_multiply lhs rhs)
  = (canonical_power i lhs + canonical_power i rhs)%Qc.
Proof.
  unfold expr_multiply.
  destruct (unit_eqb lhs one) eqn:El; [rewrite (canonical_power_eq_one lhs El); ring|].
  destruct (unit_eqb rhs one) eqn:Er; [rewrite (canonical_power_eq_one rhs Er); ring|].
  destruct lhs as [| | | |n1 d1|]; destruct rhs as [| | | |n2 d2|];
    rewrite optimized_power, ?merge_power, ?canonical_power_derived, ?factors_power_bare;
    cbn [factors_power]; ring.
Qed.

Lemma expr_divide_power (lhs rhs : unit) :
  canonical_power i (expr_divide lhs rhs)
  = (canonical_power i lhs - canonical_power i rhs)%Qc.
Proof.
  unfold expr_divide.
  destruct (unit_eqb lhs rhs) eqn:E.
  { apply unit_eqb_eq in E as ->. rewrite canonical_power_one. ring. }
  destruct (unit_eqb rhs one) eqn:Er; [rewrite (canonical_power_eq_one rhs Er); ring|].
  assert (G : forall l r, canonical_power i (derived_unit [bare l] [bare r])
                          = (canonical_power i l - canonical_power i r)%Qc).
  { intros l r. rewrite canonical_power_derived. unfold num_list.
    destruct (derived_from l (derived_unit [] [])) eqn:D.
    - unfold canonical_power at 1. rewrite (derived_from_empty_canonical l D).
      rewrite factors_power_bare. cbn [mag factors_power]. rewrite get_power_one. ring.
    - rewrite !factors_power_bare. ring. }
  destruct lhs as [| | | |n1 d1|]; destruct rhs as [| | | |n2 d2|];
    rewrite ?G, ?optimized_power, ?merge_power, ?canonical_power_derived, ?factors_power_bare;
    cbn [factors_power]; ring.
Qed.

Lemma canonical_power_scaled (M : magnitude) (u : unit) :
  canonical_power i (scaled_unit M u) = (get_power i M + canonical_power i u)%Qc.
Proof.
  unfold canonical_power, get_canonical_unit. cbn [get_canonical_unit_impl mag].
  apply get_power_mul.
Qed.

Lemma canonical_power_mag_times (M : magnitude) (u : unit) :
  canonical_power i (mag_times M u) = (get_power i M + canonical_power i u)%Qc.
Proof.
  unfold mag_times. destruct (mag_eqb M mag_one) eqn:E.
  - apply mag_eqb_eq in E as ->. rewrite get_power_one. ring.
  - apply canonical_power_scaled.
Qed.

Lemma unit_mul_power (lhs rhs : unit) :
  canonical_power i (unit_mul lhs rhs) = (canonical_power i lhs + canonical_power i rhs)%Qc.
Proof.
  assert (G : forall l, is_specialization_of_scaled_unit l = false ->
              forall r, canonical_power i (unit_mul l r)
                        = (canonical_power i l + canonical_power i r)%Qc).
  { intros l Hl r. induction r as [? ?|? ? ? _|? ? ? ? _|M R IH|? ?|];
      rewrite unit_mul_not_scaled by exact Hl; try apply expr_multiply_power.
    rewrite canonical_power_mag_times, IH, canonical_power_scaled. ring. }
  revert rhs. induction lhs as [? ?|? ? ? _|? ? ? ? _|M1 R1 IH|? ?|]; intros rhs;
    try (by apply G).
  cbn [unit_mul]. destruct rhs;
    rewrite canonical_power_mag_times, IH, ?get_power_mul, !canonical_power_scaled; ring.
Qed.

Lemma unit_div_power (lhs rhs : unit) :
  (scale_depth rhs <= scale_depth lhs)%nat ->
  canonical_power i (unit_div lhs rhs) = (canonical_power i lhs - canonical_power i rhs)%Qc.
Proof.
  revert rhs. induction lhs as [? ?|? ? ? _|? ? ? ? _|M1 R1 IH|? ?|]; intros rhs Hd;
    try (destruct rhs; [..|simpl in Hd; lia| |]; rewrite unit_div_not_scaled by reflexivity;
         apply expr_divide_power).
  cbn [unit_div]. destruct rhs;
    rewrite canonical_power_mag_times, IH, ?get_power_div, !canonical_power_scaled;
    try ring; simpl in *; lia.
Qed.

Lemma expr_invert_power (u : unit) :
  canonical_power i (expr_invert u) = (- canonical_power i u)%Qc.
Proof.
  assert (G : canonical_power i (derived_unit [bare one] [bare u]) = (- canonical_power i u)%Qc).
  { rewrite canonical_power_derived, num_list_one, factors_power_bare. cbn [factors_power]. ring. }
  destruct u as [| | | |nums dens|]; try exact G.
  cbn [expr_invert]. rewrite make_spec_power, canonical_power_derived. ring.
Qed.

Lemma factors_power_pow (r : ratio) (l : list factor) :
  factors_power i (factor_pow r <$> l) = (r * factors_power i l)%Qc.
Proof.
  induction l as [|f l IH]; cbn [fmap list_fmap factors_power]; [ring|].
  change (list_fmap factor factor (factor_pow r) l) with (factor_pow r <$> l).
  rewrite IH. unfold factor_pow. rewrite factor_power_power_or_T. unfold factor_power. ring.
Qed.

Lemma make_power_power (T : unit) (Num Den : Z) (v : unit) :
  make_power T Num Den = Ok v ->
  canonical_power i v = (mk_ratio Num Den * canonical_power i T)%Qc.
Proof.
  unfold make_power. cbv zeta. destruct (valid_factor _); [|discriminate].
  intros [= <-]. rewrite canonical_power_derived. cbn [num_list factors_power].
  unfold factor_power. cbn [exponent_of expr_type]. unfold power_exponent.
  destruct (decide (Den = 1)) as [->|_]; unfold default; cbn [from_option id]; ring.
Qed.

Lemma expr_pow_power (Num Den : Z) (u v : unit) :
  expr_pow Num Den u = Ok v ->
  canonical_power i v = (mk_ratio Num Den * canonical_power i u)%Qc.
Proof.
  destruct u as [| | | |nums dens|]; try apply make_power_power.
  cbn [expr_pow]. cbv zeta. destruct (decide _); [|discriminate].
  intros [= <-]. rewrite optimized_power, !factors_power_pow, canonical_power_derived. ring.
Qed.

Lemma pow_power (Num Den : Z) (u : unit) :
  forall v, pow Num Den u = Ok v ->
            canonical_power i v = (mk_ratio Num Den * canonical_power i u)%Qc.
Proof.
  induction u as [? ?|? ? ? _|? ? ? ? _|M R IH|? ?|]; intros v; cbn [pow has_symbol];
    (destruct (decide (Den = 0)); [discriminate|]);
    try apply make_power_power; try apply expr_pow_power.
  intros Hv. apply bind_ok in Hv as (r & Hr & [= <-]).
  rewrite !canonical_power_scaled, get_power_pow, (IH r Hr). ring.
Qed.

End powers.

(** X6.  The canonical magnitude of a product of units is the product of the
    canonical magnitudes of the operands (the exponents of every basis
    add up), whatever the operands: named, scaled or derived; so the
    canonical magnitude of [square<U>] is the square, that of [cubic<U>] the
    cube of the canonical magnitude of [U]. *)
Theorem unit_mul_canonical_magnitude `{TypeName} (i : basis) :
  (forall lhs rhs : unit,
      get_power i (mag (get_canonical_unit (unit_mul lhs rhs)))
      = (get_power i (mag (get_canonical_unit lhs)) +
         get_power i (mag (get_canonical_unit rhs)))%Qc) /\
  (forall u : unit,
      get_power i (mag (get_canonical_unit (square u)))
      = (mk_ratio 2 1 * get_power i (mag (get_canonical_unit u)))%Qc) /\
  (forall u : unit,
      get_power i (mag (get_canonical_unit (cubic u)))
      = (mk_ratio 3 1 * get_power i (mag (get_canonical_unit u)))%Qc).
Proof.
  pose proof (unit_mul_power i) as Hmul. unfold canonical_power in Hmul.
  split; [exact Hmul|]. split; intros u; unfold square, cubic; rewrite !Hmul.
  - replace (mk_ratio 2 1) with (1 + 1)%Qc by (symmetry; apply two_ratio). ring.
  - replace (mk_ratio 3 1) with (1 + 1 + 1)%Qc by (apply Qc_is_canon; reflexivity). ring.
Qed.

(** X7.  The canonical magnitude of a quotient of units is the quotient of
    the canonical magnitudes when the divisor has no more [scaled_unit]
    wrappers than the dividend.  The quotient of a unit that is not a
    [scaled_unit] by a unit with [scaled_unit] wrappers carries the
    magnitudes of all the wrappers as they are: its canonical magnitude is
    that of the dividend times the product of the magnitudes of the
    wrappers, over the canonical magnitude of the unit inside them. *)
Theorem unit_div_canonical_magnitude `{TypeName} (i : basis) :
  (forall lhs rhs : unit,
      (scale_depth rhs <= scale_depth lhs)%nat ->
      get_power i (mag (get_canonical_unit (unit_div lhs rhs)))
      = (get_power i (mag (get_canonical_unit lhs)) -
         get_power i (mag (get_canonical_unit rhs)))%Qc) /\
  (forall lhs rhs : unit,
      is_specialization_of_scaled_unit lhs = false ->
      get_power i (mag (get_canonical_unit (unit_div lhs rhs)))
      = (get_power i (mag (get_canonical_unit lhs)) + scale_power i rhs -
         get_power i (mag (get_canonical_unit (unscaled rhs))))%Qc).
Proof.
  pose proof (unit_div_power i) as Hdiv. unfold canonical_power in Hdiv.
  split; [exact Hdiv|].
  intros lhs rhs Hl.
  induction rhs as [? ?|? ? ? _|? ? ? ? _|M R IH|? ?|];
    try (cbn [unscaled scale_power]; rewrite Hdiv by (cbn [scale_depth]; lia); ring).
  rewrite unit_div_not_scaled by exact Hl.
  pose proof (canonical_power_mag_times i M (unit_div lhs R)) as Hm.
  unfold canonical_power in Hm. rewrite Hm, IH. cbn [unscaled scale_power]. ring.
Qed.

Lemma unit_div_canonical_magnitude_witness :
  let two_metre := mag_times (mag_of 2) si.metre in
  let thousand_metre := mag_times (mag_of 1000) si.metre in
  let six_metre := mag_times (mag_of 2) (mag_times (mag_of 3) si.metre) in
  (scale_depth thousand_metre <= scale_depth two_metre)%nat /\
  get_power (prime_base 2) (mag (get_canonical_unit (unit_div two_metre thousand_metre)))
  = (get_power (prime_base 2) (mag (get_canonical_unit two_metre)) -
     get_power (prime_base 2) (mag (get_canonical_unit thousand_metre)))%Qc /\
  get_power (prime_base 3) (mag (get_canonical_unit (unit_div si.metre six_metre)))
  = (get_power (prime_base 3) (mag (get_canonical_unit si.metre)) +
     scale_power (prime_base 3) six_metre -
     get_power (prime_base 3) (mag (get_canonical_unit (unscaled six_metre))))%Qc /\
  mag (get_canonical_unit (unit_div si.metre six_metre)) = mag_of 6.
Proof.
  intros two_metre thousand_metre six_metre.
  assert (Hd : (scale_depth thousand_metre <= scale_depth two_metre)%nat)
    by (vm_compute; lia).
  split; [exact Hd|]. split; [|split].
  - exact (proj1 (unit_div_canonical_magnitude (prime_base 2)) two_metre thousand_metre Hd).
  - exact (proj2 (unit_div_canonical_magnitude (prime_base 3)) si.metre six_metre eq_refl).
  - vm_compute. reflexivity.
Defined.

(** X8.  Where [pow<Num, Den>] gives a unit, the canonical magnitude of that
    unit is the canonical magnitude of the base raised to [Num/Den]. *)
Theorem pow_canonical_magnitude `{TypeName} (Num Den : Z) (u v : unit) (i : basis) :
  pow Num Den u = Ok v ->
  get_power i (mag (get_canonical_unit v))
  = (mk_ratio Num Den * get_power i (mag (get_canonical_unit u)))%Qc.
Proof. apply pow_power. Qed.

Lemma pow_canonical_magnitude_witness :
  pow 3 2 si.kilometre = Ok (derived_unit [power si.kilometre 3 (Some 2)] []) /\
  get_power (prime_base 5)
    (mag (get_canonical_unit (derived_unit [power si.kilometre 3 (Some 2)] [])))
  = (mk_ratio 3 2 * get_power (prime_base 5) (mag (get_canonical_unit si.kilometre)))%Qc.
Proof.
  assert (Hp : pow 3 2 si.kilometre = Ok (derived_unit [power si.kilometre 3 (Some 2)] []))
    by reflexivity.
  split; [exact Hp|].
  exact (pow_canonical_magnitude 3 2 si.kilometre _ (prime_base 5) Hp).
Defined.

(** X10.  The canonical magnitude of [1 / U] is the inverse of the canonical
    magnitude of [U], for every unit [U]. *)
Theorem unit_inv_canonical_magnitude `{TypeName} (n : Z) (u v : unit) (i : basis) :
  unit_inv n u = Ok v ->
  get_power i (mag (get_canonical_unit v))
  = (- get_power i (mag (get_canonical_unit u)))%Qc.
Proof. intros Hv. apply unit_inv_ok in Hv as [_ ->]. apply expr_invert_power. Qed.

Lemma unit_inv_canonical_magnitude_witness :
  unit_inv 1 si.kilometre = Ok (derived_unit [bare one] [bare si.kilometre]) /\
  get_power (prime_base 5)
    (mag (get_canonical_unit (derived_unit [bare one] [bare si.kilometre])))
  = (- get_power (prime_base 5) (mag (get_canonical_unit si.kilometre)))%Qc.
Proof.
  assert (Hp : unit_inv 1 si.kilometre = Ok (derived_unit [bare one] [bare si.kilometre]))
    by reflexivity.
  split; [exact Hp|].
  exact (unit_inv_canonical_magnitude 1 si.kilometre _ (prime_base 5) Hp).
Defined.

(** ** The canonical reference unit is built from base units alone *)

Lemma from_base_units_derived (nums dens : list factor) :
  from_base_units (derived_unit nums dens) = true <->
  Forall (fun f => from_base_units (expr_type f) = true) nums /\
  Forall (fun f => from_base_units (expr_type f) = true) dens.
Proof.
  assert (G : forall l, forallb factor_from_base_units l = true <->
                        Forall (fun f => from_base_units (expr_type f) = true) l).
  { intros l. rewrite forallb_forall, Forall_forall.
    split; intros Hl f Hf; [apply list_elem_of_In, Hl in Hf|apply list_elem_of_In in Hf; apply Hl in Hf];
      by destruct f. }
  cbn [from_base_units]. by rewrite andb_true_iff, !G.
Qed.

Lemma from_base_units_not_scaled (u : unit) :
  from_base_units u = true -> is_specialization_of_scaled_unit u = false.
Proof. by destruct u. Qed.

Section canonical_reference.
Context `{TypeName}.

Let over (u : unit) : Prop := from_base_units u = true.

Lemma over_optimized (nums dens : list factor) :
  Forall (fun f => over (expr_type f)) nums -> Forall (fun f => over (expr_type f)) dens ->
  over (get_optimized_expression nums dens).
Proof.
  intros Hn Hd.
  destruct (get_optimized_expression_cases over eq_refl nums dens Hn Hd)
    as [Ho|(n & d & -> & Hn' & Hd')]; [exact Ho|].
  by apply from_base_units_derived.
Qed.

Lemma over_factors (n d : list factor) :
  over (derived_unit n d) ->
  Forall (fun f => over (expr_type f)) (num_list n d) /\ Forall (fun f => over (expr_type f)) d.
Proof.
  intros Ho. apply from_base_units_derived in Ho as [Hn Hd].
  split; [by apply num_list_Forall|done].
Qed.

Lemma over_bare (u : unit) : over u -> Forall (fun f => over (expr_type f)) [bare u].
Proof. intros Hu. constructor; [exact Hu|constructor]. Qed.

Lemma expr_multiply_over (lhs rhs : unit) :
  over lhs -> over rhs -> over (expr_multiply lhs rhs).
Proof.
  intros Hl Hr. unfold expr_multiply.
  destruct (unit_eqb lhs one); [done|]. destruct (unit_eqb rhs one); [done|].
  pose proof (over_bare lhs Hl) as Hbl. pose proof (over_bare rhs Hr) as Hbr.
  destruct lhs as [| | | |n1 d1|]; destruct rhs as [| | | |n2 d2|];
    try (destruct (over_factors _ _ Hl)); try (destruct (over_factors _ _ Hr));
    apply over_optimized; auto using merge_sorted_Forall.
Qed.

Lemma expr_divide_over (lhs rhs : unit) :
  over lhs -> over rhs -> over (expr_divide lhs rhs).
Proof.
  intros Hl Hr. unfold expr_divide.
  destruct (unit_eqb lhs rhs); [done|]. destruct (unit_eqb rhs one); [done|].
  pose proof (over_bare lhs Hl) as Hbl. pose proof (over_bare rhs Hr) as Hbr.
  destruct lhs as [| | | |n1 d1|]; destruct rhs as [| | | |n2 d2|];
    try (destruct (over_factors _ _ Hl)); try (destruct (over_factors _ _ Hr));
    try (apply over_optimized; by auto using merge_sorted_Forall);
    try (apply from_base_units_derived; by split).
Qed.

Lemma unit_mul_over (lhs rhs : unit) : over lhs -> over rhs -> over (unit_mul lhs rhs).
Proof.
  intros Hl Hr. rewrite unit_mul_not_scaled by (by apply from_base_units_not_scaled).
  pose proof (expr_multiply_over lhs rhs Hl Hr). by destruct rhs.
Qed.

Lemma unit_div_over (lhs rhs : unit) : over lhs -> over rhs -> over (unit_div lhs rhs).
Proof.
  intros Hl Hr. rewrite unit_div_not_scaled by (by apply from_base_units_not_scaled).
  pose proof (expr_divide_over lhs rhs Hl Hr). by destruct rhs.
Qed.

Lemma canonical_product_over (l : list factor) :
  Forall (fun f => over (reference_unit (get_canonical_factor f))) l ->
  over (reference_unit (canonical_product get_canonical_factor l)).
Proof.
  unfold canonical_product. intros Hl.
  assert (G : forall acc, over (reference_unit acc) ->
             over (reference_unit (fold_left
               (fun acc f => {| mag := mag_mul (mag acc) (mag (get_canonical_factor f));
                                reference_unit := unit_mul (reference_unit acc)
                                                    (reference_unit (get_canonical_factor f)) |})
               l acc))).
  { induction Hl as [|f l Hf Hl IH]; intros acc Hacc; cbn [fold_left]; [exact Hacc|].
    apply IH. cbn [reference_unit]. by apply unit_mul_over. }
  by apply G.
Qed.

Lemma canonical_reference_over :
  (forall u, over (reference_unit (get_canonical_unit u))) /\
  (forall f, over (reference_unit (get_canonical_factor f))).
Proof.
  apply unit_factor_ind.
  - reflexivity.
  - intros name Symbol U IH. exact IH.
  - intros name Symbol M U IH. unfold get_canonical_unit in *. cbn [get_canonical_unit_impl].
    destruct (mag_eqb M mag_one) eqn:E; [|exact IH].
    destruct U; try exact IH. unfold over. cbn [reference_unit from_base_units]. exact E.
  - intros M U IH. exact IH.
  - intros nums dens Hn Hd. rewrite get_canonical_unit_derived.
    destruct dens as [|d dens]; [by apply canonical_product_over|].
    cbv zeta. cbn [reference_unit]. apply unit_div_over; apply canonical_product_over; [|done].
    unfold num_list. destruct nums as [|[U|F x y] [|g nums]]; try done.
    by destruct (derived_from U (derived_unit [] [])).
  - reflexivity.
  - intros U IH. exact IH.
  - intros F Num Den IH. unfold over. cbn [get_canonical_factor reference_unit from_base_units
      forallb factor_from_base_units andb].
    rewrite !andb_true_r.
    transitivity (from_base_units (expr_type (power_or_T (reference_unit (get_canonical_unit F))
                                                (power_exponent Num Den)))).
    + by destruct (power_or_T _ _).
    + rewrite expr_type_power_or_T. exact IH.
Qed.
End canonical_reference.

Lemma canonical_product_one `{TypeName} (l : list factor) :
  Forall (fun f => mag (get_canonical_factor f) = mag_one) l ->
  mag (canonical_product get_canonical_factor l) = mag_one.
Proof.
  unfold canonical_product. intros Hl.
  assert (G : forall acc, mag acc = mag_one ->
             mag (fold_left
               (fun acc f => {| mag := mag_mul (mag acc) (mag (get_canonical_factor f));
                                reference_unit := unit_mul (reference_unit acc)
                                                    (reference_unit (get_canonical_factor f)) |})
               l acc) = mag_one).
  { induction Hl as [|f l Hf Hl IH]; intros acc Hacc; cbn [fold_left]; [exact Hacc|].
    apply IH. cbn [mag]. by rewrite Hacc, Hf, mag_mul_one_l. }
  by apply G.
Qed.

Lemma mag_div_one : mag_div mag_one mag_one = mag_one.
Proof. vm_compute. reflexivity. Qed.

(** The canonical magnitude of an expression over base units is one. *)
Lemma from_base_units_magnitude `{TypeName} :
  (forall u, from_base_units u = true -> mag (get_canonical_unit u) = mag_one) /\
  (forall f, factor_from_base_units f = true -> mag (get_canonical_factor f) = mag_one).
Proof.
  apply unit_factor_ind; try done.
  - intros name Symbol M U _. destruct U; try discriminate. intros E.
    unfold get_canonical_unit. cbn [get_canonical_unit_impl from_base_units] in *. by rewrite E.
  - intros nums dens Hn Hd. cbn [from_base_units].
    rewrite andb_true_iff, !forallb_forall. intros [On Od].
    assert (Hn' : Forall (fun f => mag (get_canonical_factor f) = mag_one) (num_list nums dens)).
    { apply Forall_forall. intros f Hf. rewrite Forall_forall in Hn.
      assert (Hf' : f ∈ nums).
      { revert Hf. unfold num_list.
        destruct nums as [|[U|F x y] [|g nums]], dens as [|d dens]; try done.
        destruct (derived_from U (derived_unit [] [])); [|done]. by intros ?%not_elem_of_nil. }
      apply Hn; [done|]. by apply On, list_elem_of_In. }
    assert (Hd' : Forall (fun f => mag (get_canonical_factor f) = mag_one) dens).
    { apply Forall_forall. intros f Hf. rewrite Forall_forall in Hd.
      apply Hd; [done|]. by apply Od, list_elem_of_In. }
    rewrite get_canonical_unit_derived. destruct dens as [|d dens].
    + replace nums with (num_list nums []) by (unfold num_list; by destruct nums as [|[] []]).
      by apply canonical_product_one.
    + cbv zeta. cbn [mag]. rewrite !canonical_product_one by done. exact mag_div_one.
  - intros F Num Den IH HF. cbn [get_canonical_factor mag factor_from_base_units] in *.
    change (get_canonical_unit_impl F) with (get_canonical_unit F). rewrite (IH HF).
    unfold mag_pow, mag_one. apply omap_empty.
Qed.


(** ** The common unit does not depend on the order of the operands *)

Lemma ratio_num_pos (e : Qc) : 0 < ratio_num e -> (0 < e)%Qc.
Proof.
  unfold ratio_num, Qclt. destruct e as [[n d] c]. simpl. unfold Qlt. simpl. lia.
Qed.

Lemma Qclt_irrefl (a : Qc) : ~ (a < a)%Qc.
Proof. intros Hlt. apply Qclt_not_le in Hlt. apply Hlt, Qcle_refl. Qed.

Lemma positive_difference (a b : Qc) : (0 < a - b)%Qc -> (0 < b - a)%Qc -> False.
Proof.
  intros H1 H2. apply Qclt_minus_iff in H1, H2.
  apply (Qclt_irrefl a). by apply (Qclt_trans _ b).
Qed.

Lemma is_integral_lookup (m : magnitude) (i : basis) (e : Qc) :
  is_integral m = true -> m !! i = Some e -> (0 < get_power i m)%Qc.
Proof.
  unfold is_integral. rewrite bool_decide_eq_true. intros Hm He.
  destruct (Hm i e He) as (_ & _ & Hpos). unfold get_power. rewrite He. by apply ratio_num_pos.
Qed.

Lemma mag_pow_neg_lookup (m : magnitude) (i : basis) :
  mag_pow (-1)%Qc m !! i = None -> m !! i = None \/ m !! i = Some 0%Qc.
Proof.
  unfold mag_pow. rewrite lookup_omap. destruct (m !! i) as [r|]; [|by left].
  cbn. unfold nonzero. destruct (decide ((-1 * r)%Qc = 0%Qc)) as [E|]; [|discriminate].
  intros _. right. f_equal. replace r with (- (-1 * r))%Qc by ring. rewrite E. ring.
Qed.

Lemma mag_div_lookup_None (a b : magnitude) (i : basis) :
  mag_div a b !! i = None -> a !! i = b !! i \/ (a !! i = None /\ b !! i = Some 0%Qc).
Proof.
  unfold mag_div, mag_mul. rewrite lookup_merge.
  destruct (a !! i) as [l|] eqn:Ea, (mag_pow (-1)%Qc b !! i) as [p|] eqn:Ep; cbn; try discriminate.
  - unfold nonzero. destruct (decide ((l + p)%Qc = 0%Qc)) as [E|]; [|discriminate].
    intros _. left. unfold mag_pow in Ep. rewrite lookup_omap in Ep.
    destruct (b !! i) as [r|]; [|discriminate]. cbn in Ep. unfold nonzero in Ep.
    destruct (decide _); [discriminate|]. injection Ep as <-. f_equal.
    replace l with ((l + -1 * r) + r)%Qc by ring. rewrite E. ring.
  - intros _. apply mag_pow_neg_lookup in Ep as [->| ->]; [by left|by right].
Qed.

Lemma mag_div_lookup_zero (a b : magnitude) (i : basis) :
  a !! i = Some 0%Qc -> b !! i = None -> mag_div a b !! i = Some 0%Qc.
Proof.
  intros Ea Eb. unfold mag_div, mag_mul, mag_pow. by rewrite lookup_merge, lookup_omap, Ea, Eb.
Qed.

(** Two magnitudes that are integral multiples of each other are equal. *)
Lemma integral_both_ways (a b : magnitude) :
  is_integral (mag_div a b) = true -> is_integral (mag_div b a) = true -> a = b.
Proof.
  intros Hab Hba. apply map_eq. intros i.
  assert (Hzero : forall x y : magnitude,
             is_integral (mag_div x y) = true -> x !! i = Some 0%Qc -> y !! i = None -> False).
  { intros x y Hxy Ex Ey.
    pose proof (is_integral_lookup _ i _ Hxy (mag_div_lookup_zero x y i Ex Ey)) as Hpos.
    rewrite get_power_div in Hpos. unfold get_power in Hpos. rewrite Ex, Ey in Hpos.
    by apply (Qclt_irrefl 0%Qc). }
  destruct (mag_div a b !! i) as [e|] eqn:Eab.
  - destruct (mag_div b a !! i) as [e'|] eqn:Eba.
    + pose proof (is_integral_lookup _ i _ Hab Eab) as H1.
      pose proof (is_integral_lookup _ i _ Hba Eba) as H2.
      rewrite get_power_div in H1, H2. destruct (positive_difference _ _ H1 H2).
    + apply mag_div_lookup_None in Eba as [E|[Eb Ea]]; [done|].
      destruct (Hzero a b Hab Ea Eb).
  - apply mag_div_lookup_None in Eab as [E|[Ea Eb]]; [done|].
    destruct (Hzero b a Hba Eb Ea).
Qed.

Lemma common_magnitude_comm (a b : magnitude) : common_magnitude a b = common_magnitude b a.
Proof.
  apply map_eq. intros i. unfold common_magnitude. rewrite !lookup_merge.
  destruct (a !! i) as [x|], (b !! i) as [y|]; cbn; try reflexivity.
  f_equal. destruct (decide (x < y)%Qc) as [Hxy|Hxy], (decide (y < x)%Qc) as [Hyx|Hyx];
    try reflexivity.
  - destruct (Qclt_irrefl x). by apply (Qclt_trans _ y).
  - apply Qcle_antisym; by apply Qcnot_lt_le.
Qed.

Lemma derived_from_refl (u : unit) : derived_from u u = true.
Proof. destruct u; cbn [derived_from]; by rewrite unit_eqb_refl. Qed.

(** X12.  The common unit of a unit and itself is that unit, and the common
    unit of two convertible units does not depend on their order: the two
    results are equal units, and the same unit type when the operands are
    not equal. *)
Theorem common_type_symmetric `{TypeName} :
  (forall u : unit, common_type u u = Ok u) /\
  (forall u1 u2 : unit,
      convertible u1 u2 = true ->
      exists r1 r2 : unit,
        common_type u1 u2 = Ok r1 /\ common_type u2 u1 = Ok r2 /\
        unit_eq r1 r2 = true /\
        (unit_eq u1 u2 = false -> r1 = r2)).
Proof.
  split.
  - intros u. unfold common_type, common_type_impl.
    assert (Hc : convertible u u = true) by (by apply convertible_iff).
    by rewrite Hc, unit_eq_refl, derived_from_refl.
  - intros u1 u2 Hc. unfold common_type, common_type_impl.
    rewrite (convertible_sym u2 u1), Hc, (unit_eq_sym u2 u1). eexists _, _.
    split; [reflexivity|]. split; [reflexivity|].
    destruct (unit_eq u1 u2) eqn:Heq.
    + split; [|discriminate].
      destruct (derived_from u1 u2), (derived_from u2 u1);
        auto using unit_eq_refl; by rewrite unit_eq_sym.
    + cbv zeta.
      assert (G : forall r1 r2, r1 = r2 -> unit_eq r1 r2 = true /\ (false = false -> r1 = r2)).
      { intros r1 r2 ->. by rewrite unit_eq_refl. }
      apply G.
      destruct (is_integral (mag_div (mag (get_canonical_unit u1)) (mag (get_canonical_unit u2))))
        eqn:H12,
        (is_integral (mag_div (mag (get_canonical_unit u2)) (mag (get_canonical_unit u1))))
        eqn:H21; try reflexivity.
      * pose proof (integral_both_ways _ _ H12 H21) as Hm.
        apply convertible_iff in Hc.
        assert (Ht : unit_eq u1 u2 = true) by (by apply unit_eq_iff).
        congruence.
      * apply convertible_iff in Hc. by rewrite common_magnitude_comm, Hc.
Qed.

Lemma common_type_symmetric_witness :
  convertible si.hour si.minute = true /\
  exists r1 r2 : unit,
    common_type si.hour si.minute = Ok r1 /\ common_type si.minute si.hour = Ok r2 /\
    unit_eq r1 r2 = true /\
    (unit_eq si.hour si.minute = false -> r1 = r2).
Proof.
  assert (Hc : convertible si.hour si.minute = true) by (vm_compute; reflexivity).
  split; [exact Hc|].
  exact (proj2 common_type_symmetric si.hour si.minute Hc).
Defined.

(** ** The formatter appends to its buffer *)

Lemma string_app_assoc (a b c : string) : (a +:+ b) +:+ c = a +:+ (b +:+ c).
Proof.
  induction a as [|x a IH]; [reflexivity|].
  change (String x ((a +:+ b) +:+ c) = String x (a +:+ (b +:+ c))). by rewrite IH.
Qed.

Lemma string_app_nil_r (a : string) : a +:+ "" = a.
Proof.
  induction a as [|x a IH]; [reflexivity|].
  change (String x (a +:+ "") = String x a). by rewrite IH.
Qed.

Lemma appended_appended (a b : string) (r : result string) :
  appended a (appended b r) = appended (a +:+ b) r.
Proof. destruct r as [s|e]; [|reflexivity]. cbn [appended]. by rewrite string_app_assoc. Qed.

Lemma appended_empty (r : result string) : appended "" r = r.
Proof. by destruct r. Qed.

Lemma appends_ok : appends Ok.
Proof. intros out. cbn [appended]. by rewrite string_app_nil_r. Qed.

Lemma appends_app (s : string) : appends (fun out => Ok (out +:+ s)).
Proof. intros out. reflexivity. Qed.

Lemma appends_err (e : error) : appends (fun _ => Err e).
Proof. intros out. reflexivity. Qed.

Lemma appends_at (p : string -> result string) (a b : string) :
  appends p -> p (a +:+ b) = appended a (p b).
Proof. intros Hp. by rewrite (Hp (a +:+ b)), (Hp b), appended_appended. Qed.

Lemma appends_bind (p k : string -> result string) :
  appends p -> appends k -> appends (fun out => bind (p out) k).
Proof.
  intros Hp Hk out. rewrite (Hp out). destruct (p "") as [s|e]; cbn [appended bind]; [|reflexivity].
  by apply appends_at.
Qed.

Lemma appends_compose (p : string -> result string) (s : string) :
  appends p -> appends (fun out => p (out +:+ s)).
Proof.
  intros Hp out. rewrite (appends_at p out s Hp). by rewrite (appends_at p "" s Hp), appended_empty.
Qed.

(** [copy] copies the rendering that the encoding selects when it is a text
    over [CharT], and fails when it is not. *)
Lemma copy_copyable (c : char_type) (txt : basic_symbol_text) (enc : text_encoding)
    (out : string) :
  copy c txt enc out
  = if copyable c txt enc then Ok (out +:+ rendering txt enc) else Err UnsupportedOption.
Proof. unfold copy, copyable, rendering. destruct enc; case_bool_decide; by case_decide. Qed.

Lemma appends_copy (c : char_type) (txt : basic_symbol_text) (enc : text_encoding) :
  appends (copy c txt enc).
Proof. intros out. rewrite !copy_copyable. by destruct (copyable c txt enc). Qed.

Lemma appends_print_separator (fmt : unit_symbol_formatting) :
  appends (fun out => print_separator out fmt).
Proof. intros out. unfold print_separator. by repeat destruct (decide _). Qed.

Lemma appends_print_factors (print : string -> factor -> result string)
    (fmt : unit_symbol_formatting) (l : list factor) :
  Forall (fun f => appends (fun out => print out f)) l ->
  forall idx, appends (print_factors print fmt l idx).
Proof.
  induction 1 as [|m l Hm Hl IH]; intros idx; [exact appends_ok|].
  cbn [print_factors].
  apply (appends_bind (fun out => if decide (0 < idx)%nat then print_separator out fmt else Ok out)).
  - destruct (decide (0 < idx)%nat); [apply appends_print_separator|exact appends_ok].
  - apply (appends_bind (fun out => print out m)); [exact Hm|apply IH].
Qed.

Lemma appends_print_fraction (print : bool -> string -> factor -> result string)
    (fmt : unit_symbol_formatting) (nums dens : list factor) :
  (forall np, Forall (fun f => appends (fun out => print np out f)) nums) ->
  (forall np, Forall (fun f => appends (fun out => print np out f)) dens) ->
  appends (print_fraction print fmt nums dens).
Proof.
  intros Hn Hd.
  assert (G : appends (fun out =>
    out1 <- print_factors (print false) fmt nums 0%nat out ;;
    out2 <- (if decide (denominator fmt = always_solidus \/
                        (denominator fmt = solidus_one /\ length dens = 1%nat))
             then Ok ((if decide (length nums = 0%nat) then out1 +:+ "1" else out1) +:+ "/")
             else print_separator out1 fmt) ;;
    let out3 := if decide (denominator fmt = always_solidus /\ (1 < length dens)%nat)
                then out2 +:+ "(" else out2 in
    let negative_power :=
      bool_decide (denominator fmt = always_negative \/
                   (denominator fmt = solidus_one /\ (1 < length dens)%nat)) in
    out4 <- print_factors (print negative_power) fmt dens 0%nat out3 ;;
    Ok (if decide (denominator fmt = always_solidus /\ (1 < length dens)%nat)
        then out4 +:+ ")" else out4))).
  { apply (appends_bind (print_factors (print false) fmt nums 0%nat));
      [by apply appends_print_factors|].
    apply (appends_bind
             (fun out1 => if decide (denominator fmt = always_solidus \/
                                     (denominator fmt = solidus_one /\ length dens = 1%nat))
                          then Ok ((if decide (length nums = 0%nat) then out1 +:+ "1" else out1) +:+ "/")
                          else print_separator out1 fmt)).
    - destruct (decide _); [|apply appends_print_separator].
      destruct (decide _); intros out; cbn [appended]; [|reflexivity].
      by rewrite string_app_assoc.
    - cbv zeta.
      destruct (decide (denominator fmt = always_solidus /\ (1 < length dens)%nat)).
      + apply (appends_bind (fun out2 => print_factors _ fmt dens 0%nat (out2 +:+ "("))).
        * apply appends_compose. by apply appends_print_factors.
        * apply appends_app.
      + apply (appends_bind (print_factors _ fmt dens 0%nat)).
        * by apply appends_print_factors.
        * exact appends_ok. }
  unfold print_fraction. destruct nums as [|n nums], dens as [|d dens]; try exact G.
  - exact appends_ok.
  - by apply appends_print_factors.
Qed.

Lemma appends_unit_symbol_impl (c : char_type) (fmt : unit_symbol_formatting) :
  (forall u np, appends (fun out => unit_symbol_impl c out u fmt np)) /\
  (forall f np, appends (fun out => factor_symbol_impl c out f fmt np)).
Proof.
  assert (Hs : forall u np,
             appends (fun out =>
               out1 <- copy c (symbol u) (encoding fmt) out ;;
               if np : bool then copy c (superscript (-1)) (encoding fmt) out1 else Ok out1)).
  { intros u np. apply (appends_bind (copy c (symbol u) (encoding fmt))); [apply appends_copy|].
    destruct np; [apply appends_copy|exact appends_ok]. }
  apply unit_factor_ind.
  - intros name Symbol np. apply Hs.
  - intros name Symbol U _ np. apply Hs.
  - intros name Symbol M U _ np. apply Hs.
  - intros M U IH np. cbn [unit_symbol_impl].
    destruct (mag_eqb M mag_one); [apply IH|].
    destruct (magnitude_text M) as [mag_txt|e]; cbn [bind]; [|apply appends_err].
    apply (appends_bind (copy c mag_txt (encoding fmt))); [apply appends_copy|].
    destruct (derived_from U (derived_unit [] [])); [exact appends_ok|].
    apply (appends_compose (fun out => unit_symbol_impl c out U fmt np)), IH.
  - intros nums dens Hn Hd np. destruct np.
    { cbn [unit_symbol_impl]. apply appends_err. }
    intros out. rewrite !unit_symbol_derived. apply appends_print_fraction.
    + intros np. apply Forall_forall. intros f Hf. apply num_list_elem_of in Hf.
      rewrite Forall_forall in Hn. by apply Hn.
    + intros np. apply Forall_forall. intros f Hf. rewrite Forall_forall in Hd. by apply Hd.
  - intros np. cbn [unit_symbol_impl]. destruct np; [apply appends_err|exact appends_ok].
  - intros U IH np. apply IH.
  - intros F Num Den IH np. cbn [factor_symbol_impl].
    apply (appends_bind (fun out => unit_symbol_impl c out F fmt false)); [apply IH|].
    cbv zeta. destruct (decide _); [apply appends_copy|].
    destruct (decide _); [apply appends_copy|exact appends_ok].
Qed.

(** X13.  [unit_symbol_to] appends the symbol of the unit to the buffer: what
    it returns is what [unit_symbol] returns, after the text that the buffer
    held; it fails when and as [unit_symbol] fails. *)
Theorem unit_symbol_to_appends
    (c : char_type) (out : string) (u : unit) (fmt : unit_symbol_formatting) :
  unit_symbol_to c out u fmt =
    match unit_symbol c u fmt with
    | Ok s => Ok (out +:+ s)
    | Err e => Err e
    end.
Proof. exact (proj1 (appends_unit_symbol_impl c fmt) u false out). Qed.

(** ** The layout of the symbol of a derived unit *)

Lemma concat_cons (sep t : string) (ts : list string) :
  String.concat sep (t :: ts) = t +:+ String.concat "" ((fun x => sep +:+ x) <$> ts).
Proof.
  revert t. induction ts as [|t' ts IH]; intros t; [by rewrite string_app_nil_r|].
  change (String.concat sep (t :: t' :: ts)) with (t +:+ sep +:+ String.concat sep (t' :: ts)).
  rewrite IH. cbn [fmap list_fmap].
  destruct ts as [|t'' ts]; [by rewrite !string_app_nil_r|].
  change (String.concat "" ((sep +:+ t') :: ((fun x => sep +:+ x) <$> (t'' :: ts))))
    with ((sep +:+ t') +:+ "" +:+ String.concat "" ((fun x => sep +:+ x) <$> (t'' :: ts))).
  by rewrite string_app_assoc.
Qed.

Lemma print_separator_text (fmt : unit_symbol_formatting) (out : string) :
  (separator fmt = dot -> encoding fmt = unicode_encoding) ->
  print_separator out fmt = Ok (out +:+ separator_text fmt).
Proof.
  intros Hfmt. unfold print_separator, separator_text.
  destruct (decide (separator fmt = dot)) as [E|E].
  - rewrite E. destruct (decide _) as [Hne|_]; [by destruct Hne; apply Hfmt|reflexivity].
  - by destruct (separator fmt).
Qed.

Section layout.
Variable print : string -> factor -> result string.
Variable fmt : unit_symbol_formatting.
Hypothesis Hfmt : separator fmt = dot -> encoding fmt = unicode_encoding.

Lemma print_factors_rest (l : list factor) (ts : list string) :
  Forall2 (fun f t => forall out, print out f = Ok (out +:+ t)) l ts ->
  forall idx out, (0 < idx)%nat ->
    print_factors print fmt l idx out
    = Ok (out +:+ String.concat "" ((fun x => separator_text fmt +:+ x) <$> ts)).
Proof.
  induction 1 as [|f t l ts Hf Hl IH]; intros idx out Hidx; cbn [print_factors].
  - by rewrite string_app_nil_r.
  - destruct (decide (0 < idx)%nat); [|lia].
    rewrite print_separator_text by exact Hfmt. cbn [bind]. rewrite Hf. cbn [bind].
    rewrite IH by lia. cbn [fmap list_fmap]. f_equal.
    destruct ts as [|t' ts].
    + cbn [fmap list_fmap String.concat]. by rewrite !string_app_nil_r, string_app_assoc.
    + change (String.concat "" ((separator_text fmt +:+ t) ::
                                ((fun x => separator_text fmt +:+ x) <$> (t' :: ts))))
        with ((separator_text fmt +:+ t) +:+ "" +:+
              String.concat "" ((fun x => separator_text fmt +:+ x) <$> (t' :: ts))).
      by rewrite !string_app_assoc.
Qed.

Lemma print_factors_concat (l : list factor) (ts : list string) (out : string) :
  Forall2 (fun f t => forall out, print out f = Ok (out +:+ t)) l ts ->
  print_factors print fmt l 0 out = Ok (out +:+ String.concat (separator_text fmt) ts).
Proof.
  destruct 1 as [|f t l ts Hf Hl]; cbn [print_factors].
  - by rewrite string_app_nil_r.
  - destruct (decide (0 < 0)%nat); [lia|]. cbn [bind]. rewrite Hf. cbn [bind].
    rewrite (print_factors_rest l ts Hl) by lia. by rewrite concat_cons, string_app_assoc.
Qed.
End layout.

Lemma negative_powers_flag (fmt : unit_symbol_formatting) (dens : list factor) :
  bool_decide (denominator fmt = always_negative \/
               (denominator fmt = solidus_one /\ (1 < length dens)%nat))
  = negative_powers fmt dens.
Proof.
  unfold negative_powers. destruct (denominator fmt).
  - apply bool_decide_ext. split; [intros [?|[_ ?]]; done|by right].
  - apply bool_decide_eq_false. intros [?|[? _]]; done.
  - apply bool_decide_eq_true. by left.
Qed.

Lemma print_fraction_text (print : bool -> string -> factor -> result string)
    (fmt : unit_symbol_formatting) (ns ds : list factor) (tn td : list string) :
  (separator fmt = dot -> encoding fmt = unicode_encoding) ->
  Forall2 (fun f t => forall out, print false out f = Ok (out +:+ t)) ns tn ->
  Forall2 (fun f t => forall out, print (negative_powers fmt ds) out f = Ok (out +:+ t)) ds td ->
  print_fraction print fmt ns ds ""
  = Ok (match td with
        | [] => String.concat (separator_text fmt) tn
        | _ => fraction_text fmt tn td
        end).
Proof.
  intros Hfmt Hn Hd. unfold print_fraction.
  pose proof (Forall2_length _ _ _ Hn) as Ln. pose proof (Forall2_length _ _ _ Hd) as Ld.
  destruct ds as [|d ds].
  { apply Forall2_nil_inv_l in Hd as ->.
    destruct ns as [|n ns]; [by apply Forall2_nil_inv_l in Hn as ->|].
    by rewrite (print_factors_concat _ fmt Hfmt _ tn). }
  destruct td as [|t td]; [discriminate Ld|].
  assert (G : (out1 <- print_factors (print false) fmt ns 0 "" ;;
               out2 <- (if decide (denominator fmt = always_solidus \/
                                   (denominator fmt = solidus_one /\ length (d :: ds) = 1%nat))
                        then Ok ((if decide (length ns = 0%nat) then out1 +:+ "1" else out1) +:+ "/")
                        else print_separator out1 fmt) ;;
               let out3 := if decide (denominator fmt = always_solidus /\ (1 < length (d :: ds))%nat)
                           then out2 +:+ "(" else out2 in
               let negative_power :=
                 bool_decide (denominator fmt = always_negative \/
                              (denominator fmt = solidus_one /\ (1 < length (d :: ds))%nat)) in
               out4 <- print_factors (print negative_power) fmt (d :: ds) 0 out3 ;;
               Ok (if decide (denominator fmt = always_solidus /\ (1 < length (d :: ds))%nat)
                   then out4 +:+ ")" else out4))
              = Ok (fraction_text fmt tn (t :: td))).
  { rewrite (print_factors_concat _ fmt Hfmt ns tn "" Hn).
    change ("" +:+ String.concat (separator_text fmt) tn)
      with (String.concat (separator_text fmt) tn).
    cbn [bind]. cbv zeta.
    rewrite negative_powers_flag.
    assert (Hone : (if decide (length ns = 0%nat)
                    then String.concat (separator_text fmt) tn +:+ "1"
                    else String.concat (separator_text fmt) tn)
                   = match tn with [] => "1" | _ => String.concat (separator_text fmt) tn end).
    { destruct tn as [|x tn], ns as [|y ns]; try discriminate Ln; reflexivity. }
    unfold fraction_text, negative_powers in *. cbv zeta. rewrite <- Ld.
    destruct (denominator fmt) eqn:Eden.
    - destruct (decide (length (d :: ds) = 1%nat)) as [E1|E1].
      + rewrite decide_True by (by right). cbn [bind].
        rewrite decide_False by (by intros [? _]).
        rewrite (print_factors_concat _ fmt Hfmt (d :: ds) (t :: td) _ Hd). cbn [bind].
        rewrite decide_False by (by intros [? _]).
        rewrite bool_decide_eq_true_2 by exact E1. by rewrite Hone.
      + rewrite decide_False by (intros [?|[_ ?]]; done).
        rewrite print_separator_text by exact Hfmt. cbn [bind].
        rewrite decide_False by (by intros [? _]).
        rewrite (print_factors_concat _ fmt Hfmt (d :: ds) (t :: td) _ Hd). cbn [bind].
        rewrite decide_False by (by intros [? _]).
        rewrite bool_decide_eq_false_2 by exact E1. by rewrite !string_app_assoc.
    - rewrite decide_True by (by left). cbn [bind].
      destruct (decide (1 < length (d :: ds))%nat) as [E1|E1].
      + rewrite decide_True by done.
        rewrite (print_factors_concat _ fmt Hfmt (d :: ds) (t :: td) _ Hd). cbn [bind].
        rewrite decide_True by done.
        rewrite bool_decide_eq_true_2 by exact E1. rewrite Hone. by rewrite !string_app_assoc.
      + rewrite decide_False by (by intros [_ ?]).
        rewrite (print_factors_concat _ fmt Hfmt (d :: ds) (t :: td) _ Hd). cbn [bind].
        rewrite decide_False by (by intros [_ ?]).
        rewrite bool_decide_eq_false_2 by exact E1. by rewrite Hone.
    - rewrite decide_False by (intros [?|[? _]]; done).
      rewrite print_separator_text by exact Hfmt. cbn [bind].
      rewrite decide_False by (by intros [? _]).
      rewrite (print_factors_concat _ fmt Hfmt (d :: ds) (t :: td) _ Hd). cbn [bind].
      rewrite decide_False by (by intros [? _]). by rewrite !string_app_assoc. }
  destruct ns; exact G.
Qed.

(** The text that [unit_symbol] gives for a derived unit, from the texts of
    the factors. *)
Lemma derived_unit_symbol_text (c : char_type) (fmt : unit_symbol_formatting)
    (nums dens : list factor) (tn td : list string) :
  (separator fmt = dot -> encoding fmt = unicode_encoding) ->
  Forall2 (fun f t => factor_symbol_impl c "" f fmt false = Ok t) (num_list nums dens) tn ->
  Forall2 (fun f t => factor_symbol_impl c "" f fmt (negative_powers fmt dens) = Ok t) dens td ->
  unit_symbol c (derived_unit nums dens) fmt
  = Ok (match td with
        | [] => String.concat (separator_text fmt) tn
        | _ => fraction_text fmt tn td
        end).
Proof.
  intros Hfmt Hn Hd. unfold unit_symbol, unit_symbol_to. rewrite unit_symbol_derived.
  apply print_fraction_text; [exact Hfmt|..].
  - eapply Forall2_impl; [exact Hn|]. intros f t Hf out. cbv beta in Hf.
    rewrite (proj2 (appends_unit_symbol_impl c fmt) f false out), Hf. reflexivity.
  - eapply Forall2_impl; [exact Hd|]. intros f t Hf out. cbv beta in Hf.
    rewrite (proj2 (appends_unit_symbol_impl c fmt) f _ out), Hf. reflexivity.
Qed.

(** X14.  The symbol of a derived unit, from the texts of its factors.  When
    the formatting can print its separator, the symbol of a unit without
    denominator is the texts of its factors joined by the separator.  With
    a denominator, it is: the numerator ([1] when it is empty), the solidus
    and the denominator, in parentheses when it has several factors, under
    [always_solidus], and under [solidus_one] when the denominator is a
    single factor; otherwise numerator, separator and denominator, whose
    factors are then printed with negative exponents. *)
Theorem unit_symbol_layout (c : char_type) (fmt : unit_symbol_formatting)
    (nums dens : list factor) (tn td : list string) :
  (separator fmt = dot -> encoding fmt = unicode_encoding) ->
  Forall2 (fun f t => factor_symbol_impl c "" f fmt false = Ok t) (num_list nums dens) tn ->
  Forall2 (fun f t => factor_symbol_impl c "" f fmt (negative_powers fmt dens) = Ok t) dens td ->
  unit_symbol c (derived_unit nums dens) fmt
  = Ok (match td with
        | [] => String.concat (separator_text fmt) tn
        | _ => fraction_text fmt tn td
        end).
Proof. apply derived_unit_symbol_text. Qed.

Lemma unit_symbol_layout_witness :
  let kg_per_m_s := derived_unit [bare si.kilogram] [bare si.metre; power si.second 2 None] in
  unit_symbol char kg_per_m_s default_formatting = Ok "kg m⁻¹ s⁻²" /\
  unit_symbol char kg_per_m_s
    {| encoding := ascii_encoding; denominator := always_solidus; separator := space |}
  = Ok "kg/(m s^2)".
Proof.
  intros kg_per_m_s. split.
  - refine (unit_symbol_layout char default_formatting
              [bare si.kilogram] [bare si.metre; power si.second 2 None]
              ["kg"] ["m⁻¹"; "s⁻²"] _ _ _).
    + discriminate.
    + repeat constructor.
    + repeat constructor.
  - refine (unit_symbol_layout char
              {| encoding := ascii_encoding; denominator := always_solidus; separator := space |}
              [bare si.kilogram] [bare si.metre; power si.second 2 None]
              ["kg"] ["m"; "s^2"] _ _ _).
    + discriminate.
    + repeat constructor.
    + repeat constructor.
Defined.

(** ** The failures of the formatter *)

Lemma bind_err {A B : Type} (r : result A) (k : A -> result B) (e : error) :
  bind r k = Err e -> r = Err e \/ exists a, r = Ok a /\ k a = Err e.
Proof. destruct r as [a|e']; cbn [bind]; [eauto|]. intros [= ->]. by left. Qed.

Lemma print_separator_err (out : string) (fmt : unit_symbol_formatting) (e : error) :
  print_separator out fmt = Err e ->
  e = UnsupportedOption /\ separator fmt = dot /\ encoding fmt = ascii_encoding.
Proof.
  unfold print_separator. destruct (decide (separator fmt = dot)) as [Hs|]; [|discriminate].
  destruct (decide (encoding fmt <> unicode_encoding)) as [He|]; [|discriminate].
  intros [= <-]. by destruct (encoding fmt).
Qed.

Lemma magnitude_text_err (M : magnitude) (e : error) :
  magnitude_text M = Err e -> e = PrintingNotSupported \/ e = IllFormed.
Proof.
  unfold magnitude_text. cbv zeta. destruct (negb _); [intros [= <-]; by left|].
  destruct (get_value _) as [n|]; [|intros [= <-]; by right].
  destruct (get_value _) as [d|]; [|intros [= <-]; by right].
  repeat destruct (decide _); discriminate.
Qed.

(** The texts that the formatter makes are texts over [char]. *)
Lemma superscript_char (v : Z) : unicode_char (superscript v) = char.
Proof. unfold superscript. by destruct (decide (v < 0)). Qed.

Lemma magnitude_text_char (M : magnitude) (txt : basic_symbol_text) :
  magnitude_text M = Ok txt -> unicode_char txt = char.
Proof.
  unfold magnitude_text. cbv zeta. destruct (negb _); [discriminate|].
  destruct (get_value _) as [n|]; [|discriminate].
  destruct (get_value _) as [d|]; [|discriminate].
  repeat destruct (decide _); by intros [= <-].
Qed.

Lemma copyable_char (txt : basic_symbol_text) (enc : text_encoding) :
  unicode_char txt = char -> copyable char txt enc = true.
Proof. intros E. unfold copyable. rewrite E. by destruct enc. Qed.

Lemma copy_err (c : char_type) (txt : basic_symbol_text) (enc : text_encoding)
    (out : string) (e : error) :
  copy c txt enc out = Err e -> copyable c txt enc = false /\ e = UnsupportedOption.
Proof. rewrite copy_copyable. destruct (copyable c txt enc); [discriminate|]. by intros [= <-]. Qed.

(** What [unit_symbol_impl] does for a unit with a symbol. *)
Lemma unit_symbol_impl_symbol (c : char_type) (u : unit) (fmt : unit_symbol_formatting)
    (np : bool) (out : string) :
  has_symbol u = true ->
  unit_symbol_impl c out u fmt np
  = (out1 <- copy c (symbol u) (encoding fmt) out ;;
     if np then copy c (superscript (-1)) (encoding fmt) out1 else Ok out1).
Proof. by destruct u. Qed.

Lemma symbols_copyable_symbol (c : char_type) (enc : text_encoding) (u : unit) :
  has_symbol u = true -> symbols_copyable c enc u = copyable c (symbol u) enc.
Proof.
  destruct u; try discriminate; reflexivity.
Qed.

Section unsupported.
Variable fmt : unit_symbol_formatting.

Let ascii_dot : Prop := separator fmt = dot /\ encoding fmt = ascii_encoding.

Lemma print_factors_unsupported (print : string -> factor -> result string) (l : list factor) :
  Forall (fun f => forall out, print out f = Err UnsupportedOption -> ascii_dot) l ->
  forall idx out, print_factors print fmt l idx out = Err UnsupportedOption -> ascii_dot.
Proof.
  induction 1 as [|m l Hm Hl IH]; intros idx out; cbn [print_factors]; [discriminate|].
  intros [Hsep|(out1 & _ & [Hp|(out2 & _ & Hrest)]%bind_err)]%bind_err.
  - destruct (decide (0 < idx)%nat); [|discriminate]. by apply print_separator_err in Hsep as [_ ?].
  - by apply (Hm out1).
  - by apply (IH _ _ Hrest).
Qed.

Lemma print_fraction_unsupported (print : bool -> string -> factor -> result string)
    (nums dens : list factor) (out : string) :
  (forall np, Forall (fun f => forall out, print np out f = Err UnsupportedOption -> ascii_dot) nums) ->
  (forall np, Forall (fun f => forall out, print np out f = Err UnsupportedOption -> ascii_dot) dens) ->
  print_fraction print fmt nums dens out = Err UnsupportedOption -> ascii_dot.
Proof.
  intros Hn Hd. unfold print_fraction.
  assert (G : forall r : result string,
             (r = print_factors (print false) fmt nums 0 out) ->
             (out1 <- r ;;
              out2 <- (if decide (denominator fmt = always_solidus \/
                                  (denominator fmt = solidus_one /\ length dens = 1%nat))
                       then Ok ((if decide (length nums = 0%nat) then out1 +:+ "1" else out1) +:+ "/")
                       else print_separator out1 fmt) ;;
              let out3 := if decide (denominator fmt = always_solidus /\ (1 < length dens)%nat)
                          then out2 +:+ "(" else out2 in
              let negative_power :=
                bool_decide (denominator fmt = always_negative \/
                             (denominator fmt = solidus_one /\ (1 < length dens)%nat)) in
              out4 <- print_factors (print negative_power) fmt dens 0 out3 ;;
              Ok (if decide (denominator fmt = always_solidus /\ (1 < length dens)%nat)
                  then out4 +:+ ")" else out4)) = Err UnsupportedOption -> ascii_dot).
  { intros r -> [Hnum|(out1 & _ & [Hsep|(out2 & _ & Hrest)]%bind_err)]%bind_err.
    - by apply (print_factors_unsupported _ _ (Hn false)) in Hnum.
    - destruct (decide _); [discriminate|]. by apply print_separator_err in Hsep as [_ ?].
    - cbv zeta in Hrest. apply bind_err in Hrest as [Hden|(out4 & _ & [=])].
      by apply (print_factors_unsupported _ _ (Hd _)) in Hden. }
  destruct nums as [|n nums], dens as [|d dens]; try (by apply G).
  - discriminate.
  - apply (print_factors_unsupported _ _ (Hn false)).
Qed.

Lemma unit_symbol_impl_unsupported :
  (forall u np out,
      symbols_copyable char (encoding fmt) u = true ->
      unit_symbol_impl char out u fmt np = Err UnsupportedOption -> ascii_dot) /\
  (forall f np out,
      factor_symbols_copyable char (encoding fmt) f = true ->
      factor_symbol_impl char out f fmt np = Err UnsupportedOption -> ascii_dot).
Proof.
  assert (Hsup : forall v out e, copy char (superscript v) (encoding fmt) out <> Err e).
  { intros v out e [He _]%copy_err. by rewrite copyable_char in He by apply superscript_char. }
  assert (Hs : forall u np out,
             has_symbol u = true ->
             symbols_copyable char (encoding fmt) u = true ->
             unit_symbol_impl char out u fmt np = Err UnsupportedOption -> ascii_dot).
  { intros u np out Hu Hc. rewrite unit_symbol_impl_symbol by exact Hu.
    rewrite symbols_copyable_symbol in Hc by exact Hu.
    intros [[He _]%copy_err|(out1 & _ & Hrest)]%bind_err; [congruence|].
    destruct np; [by apply Hsup in Hrest|discriminate]. }
  apply unit_factor_ind.
  - intros name Symbol np out. by apply Hs.
  - intros name Symbol U _ np out. by apply Hs.
  - intros name Symbol M U _ np out. by apply Hs.
  - intros M U IH np out Hc. cbn [unit_symbol_impl]. cbn [symbols_copyable] in Hc.
    destruct (mag_eqb M mag_one); [by apply IH|].
    intros [Hm|(txt & Htxt & [[He _]%copy_err|(out1 & _ & Hrest)]%bind_err)]%bind_err.
    + apply magnitude_text_err in Hm as [|]; discriminate.
    + rewrite copyable_char in He by (by apply (magnitude_text_char M)). discriminate.
    + destruct (derived_from U (derived_unit [] [])); [discriminate|]. by apply IH in Hrest.
  - intros nums dens Hn Hd np out Hc. destruct np; [discriminate|].
    cbn [symbols_copyable] in Hc. apply andb_true_iff in Hc as [Hcn Hcd].
    rewrite forallb_forall in Hcn, Hcd.
    rewrite unit_symbol_derived. apply print_fraction_unsupported.
    + intros np. apply Forall_forall. intros f Hf%num_list_elem_of.
      rewrite Forall_forall in Hn. intros o. apply Hn; [exact Hf|].
      by apply Hcn, list_elem_of_In.
    + intros np. apply Forall_forall. intros f Hf. rewrite Forall_forall in Hd.
      intros o. apply Hd; [exact Hf|]. by apply Hcd, list_elem_of_In.
  - intros np out _. cbn [unit_symbol_impl]. by destruct np.
  - intros U IH np out. apply IH.
  - intros F Num Den IH np out Hc. cbn [factor_symbol_impl].
    intros [HF|(out1 & _ & Hrest)]%bind_err; [by apply IH in HF|].
    cbv zeta in Hrest. destruct (decide _).
    { apply copy_err in Hrest as [He _]. by rewrite copyable_char in He. }
    destruct (decide _); [by apply Hsup in Hrest|discriminate].
Qed.
End unsupported.

(** X15.  When the characters written are of type [char] and every symbol
    of the unit can be copied (it is a text over [char], or the encoding is
    ASCII), the formatter fails with [UnsupportedOption] only for the dot
    separator under the ASCII encoding, whatever the unit and the buffer.
    And [UnsupportedOption] is what it fails with for a unit with a symbol
    that cannot be copied, [detail::copy] throwing
    [std::invalid_argument]: under the ASCII encoding for every type of
    characters other than [char]. *)
Theorem unsupported_option_only_ascii_dot :
  (forall (out : string) (u : unit) (fmt : unit_symbol_formatting),
      symbols_copyable char (encoding fmt) u = true ->
      unit_symbol_to char out u fmt = Err UnsupportedOption ->
      separator fmt = dot /\ encoding fmt = ascii_encoding) /\
  (forall (c : char_type) (out : string) (u : unit) (fmt : unit_symbol_formatting),
      has_symbol u = true ->
      copyable c (symbol u) (encoding fmt) = false ->
      unit_symbol_to c out u fmt = Err UnsupportedOption) /\
  (forall (c : char_type) (txt : basic_symbol_text),
      copyable c txt ascii_encoding = false <-> c <> char).
Proof.
  split; [|split].
  - intros out u fmt. apply (proj1 (unit_symbol_impl_unsupported fmt)).
  - intros c out u fmt Hu Hc. unfold unit_symbol_to.
    rewrite unit_symbol_impl_symbol by exact Hu. by rewrite copy_copyable, Hc.
  - intros c txt. cbn [copyable]. apply bool_decide_eq_false.
Qed.

Lemma unsupported_option_only_ascii_dot_witness :
  let fmt := {| encoding := ascii_encoding; denominator := solidus_one; separator := dot |} in
  symbols_copyable char ascii_encoding (derived_unit [bare si.metre; bare si.second] []) = true /\
  unit_symbol_to char "" (derived_unit [bare si.metre; bare si.second] []) fmt
  = Err UnsupportedOption /\
  (separator fmt = dot /\ encoding fmt = ascii_encoding) /\
  unit_symbol_to wchar_t "" si.metre default_formatting = Err UnsupportedOption.
Proof.
  intros fmt.
  assert (Hc : symbols_copyable char (encoding fmt)
                 (derived_unit [bare si.metre; bare si.second] []) = true) by reflexivity.
  assert (He : unit_symbol_to char "" (derived_unit [bare si.metre; bare si.second] []) fmt
               = Err UnsupportedOption) by reflexivity.
  split; [exact Hc|]. split; [exact He|]. split.
  - exact (proj1 unsupported_option_only_ascii_dot "" _ fmt Hc He).
  - exact (proj1 (proj2 unsupported_option_only_ascii_dot) wchar_t "" si.metre default_formatting
             eq_refl eq_refl).
Defined.

(** ** Exponents in a denominator printed with negative exponents *)

(** X16.  Where the factors of a denominator are printed with negative
    exponents, a factor with a fractional exponent is printed as it is in a
    numerator: the sign is put on integral exponents only.  So under
    [always_negative] the inverse of a root is printed as the root is, after
    the separator that stands where the numerator ends. *)
Theorem fractional_exponent_sign (c : char_type)
    (F : unit) (Num : Z) (Den : option Z) (fmt : unit_symbol_formatting) :
  ratio_den (power_exponent Num Den) <> 1 ->
  (forall out : string,
      factor_symbol_impl c out (power F Num Den) fmt true
      = factor_symbol_impl c out (power F Num Den) fmt false) /\
  (denominator fmt = always_negative ->
   (separator fmt = dot -> encoding fmt = unicode_encoding) ->
   forall s : string,
     unit_symbol c (derived_unit [power F Num Den] []) fmt = Ok s ->
     unit_symbol c (derived_unit [bare one] [power F Num Den]) fmt
     = Ok (separator_text fmt +:+ s)).
Proof.
  intros Hden.
  assert (Hnp : forall out, factor_symbol_impl c out (power F Num Den) fmt true
                            = factor_symbol_impl c out (power F Num Den) fmt false).
  { intros out. cbn [factor_symbol_impl]. destruct (unit_symbol_impl c out F fmt false); [|reflexivity].
    cbn [bind]. cbv zeta. by destruct (decide (ratio_den (power_exponent Num Den) <> 1)). }
  split; [exact Hnp|]. intros Hneg Hfmt s Hs.
  unfold unit_symbol, unit_symbol_to in Hs. rewrite unit_symbol_derived in Hs.
  cbn [num_list print_fraction print_factors] in Hs.
  destruct (decide (0 < 0)%nat); [lia|]. cbn [bind] in Hs.
  apply bind_ok in Hs as (t & Ht & [= <-]).
  rewrite (derived_unit_symbol_text c fmt [bare one] [power F Num Den] [] [t] Hfmt).
  - unfold fraction_text. cbv zeta. by rewrite Hneg.
  - constructor.
  - constructor; [|constructor]. unfold negative_powers. by rewrite Hneg, Hnp.
Qed.

Lemma fractional_exponent_sign_witness :
  let fmt := {| encoding := ascii_encoding; denominator := always_negative; separator := space |} in
  ratio_den (power_exponent 1 (Some 2)) <> 1 /\
  unit_symbol char (derived_unit [power si.metre 1 (Some 2)] []) fmt = Ok "m^(1/2)" /\
  unit_symbol char (derived_unit [bare one] [power si.metre 1 (Some 2)]) fmt = Ok " m^(1/2)".
Proof.
  intros fmt.
  assert (Hden : ratio_den (power_exponent 1 (Some 2)) <> 1) by (vm_compute; discriminate).
  assert (Hs : unit_symbol char (derived_unit [power si.metre 1 (Some 2)] []) fmt = Ok "m^(1/2)")
    by reflexivity.
  split; [exact Hden|]. split; [exact Hs|].
  refine (proj2 (fractional_exponent_sign char si.metre 1 (Some 2) fmt Hden) eq_refl _ _ Hs).
  discriminate.
Defined.

(** ** Units with symbols that can be copied are always printed *)

Lemma copy_char (txt : basic_symbol_text) (enc : text_encoding) (out : string) :
  unicode_char txt = char -> copy char txt enc out = Ok (out +:+ rendering txt enc).
Proof. intros E. by rewrite copy_copyable, copyable_char. Qed.

Lemma unit_text_exists (U : unit) (fmt : unit_symbol_formatting) (np : bool) :
  has_symbol U = true -> copyable char (symbol U) (encoding fmt) = true ->
  exists t, unit_symbol_impl char "" U fmt np = Ok t.
Proof.
  intros Hs Hc. rewrite unit_symbol_impl_symbol by exact Hs.
  rewrite copy_copyable, Hc. cbn [bind].
  destruct np; [|eauto]. rewrite copy_char by apply superscript_char. eauto.
Qed.

Lemma factor_text_exists (f : factor) (fmt : unit_symbol_formatting) (np : bool) :
  has_symbol (expr_type f) = true ->
  copyable char (symbol (expr_type f)) (encoding fmt) = true ->
  exists t, factor_symbol_impl char "" f fmt np = Ok t.
Proof.
  destruct f as [U|F Num Den]; cbn [expr_type factor_symbol_impl]; intros Hs Hc.
  - by apply unit_text_exists.
  - destruct (unit_text_exists F fmt false Hs Hc) as [t ->]. cbn [bind]. cbv zeta.
    destruct (decide _); [rewrite copy_char by reflexivity; eauto|].
    destruct (decide _); [rewrite copy_char by apply superscript_char|]; eauto.
Qed.

Lemma factor_texts_exist (l : list factor) (fmt : unit_symbol_formatting) (np : bool) :
  Forall (fun f => has_symbol (expr_type f) = true /\
                   copyable char (symbol (expr_type f)) (encoding fmt) = true) l ->
  exists ts, Forall2 (fun f t => factor_symbol_impl char "" f fmt np = Ok t) l ts.
Proof.
  induction 1 as [|f l [Hf Hc] Hl [ts IH]]; [by exists []|].
  destruct (factor_text_exists f fmt np Hf Hc) as [t Ht]. exists (t :: ts). by constructor.
Qed.

(** X17.  When the characters written are of type [char], the symbol of a
    derived unit whose factors are units, or powers of units, with symbols
    that can be copied (texts over [char], or any under the ASCII encoding)
    is always produced, whatever the formatting, unless it asks for the dot
    separator under the ASCII encoding. *)
Theorem unit_symbol_of_named_factors (fmt : unit_symbol_formatting)
    (nums dens : list factor) :
  Forall (fun f => has_symbol (expr_type f) = true /\
                   copyable char (symbol (expr_type f)) (encoding fmt) = true) nums ->
  Forall (fun f => has_symbol (expr_type f) = true /\
                   copyable char (symbol (expr_type f)) (encoding fmt) = true) dens ->
  (separator fmt = dot -> encoding fmt = unicode_encoding) ->
  exists s : string, unit_symbol char (derived_unit nums dens) fmt = Ok s.
Proof.
  intros Hn Hd Hfmt.
  assert (Hn' : Forall (fun f => has_symbol (expr_type f) = true /\
                                 copyable char (symbol (expr_type f)) (encoding fmt) = true)
                  (num_list nums dens)).
  { apply Forall_forall. intros f Hf%num_list_elem_of. rewrite Forall_forall in Hn. by apply Hn. }
  destruct (factor_texts_exist _ fmt false Hn') as [tn Htn].
  destruct (factor_texts_exist _ fmt (negative_powers fmt dens) Hd) as [td Htd].
  eexists. by apply (derived_unit_symbol_text char fmt nums dens tn td).
Qed.

Lemma unit_symbol_of_named_factors_witness :
  exists s : string,
    unit_symbol char (derived_unit [bare si.kilogram; bare si.metre] [power si.second 2 None])
      {| encoding := unicode_encoding; denominator := always_solidus; separator := dot |}
    = Ok s.
Proof.
  apply unit_symbol_of_named_factors.
  - repeat constructor.
  - repeat constructor.
  - reflexivity.
Defined.

(** ** The text of a power of ten *)

Lemma ratio_of_Z_zero (k : Z) : ratio_of_Z k = 0%Qc -> k = 0.
Proof. intros E. apply (f_equal ratio_num) in E. by rewrite ratio_num_of_Z in E. Qed.

Lemma nonzero_power_of_ten (k : Z) :
  k <> 0 -> nonzero (ratio_of_Z k * 1)%Qc = Some (ratio_of_Z k).
Proof.
  intros Hk. unfold nonzero. destruct (decide _) as [E|_].
  - destruct Hk. apply ratio_of_Z_zero. rewrite <- E. ring.
  - f_equal. ring.
Qed.

Lemma mag_power_10 (k : Z) :
  k <> 0 ->
  mag_power 10 (ratio_of_Z k)
  = <[prime_base 2 := ratio_of_Z k]> {[prime_base 5 := ratio_of_Z k]}.
Proof.
  intros Hk. unfold mag_power, mag_pow. rewrite mag_of_10.
  rewrite (omap_insert_Some _ _ _ _ (ratio_of_Z k)) by (by apply nonzero_power_of_ten).
  by rewrite (omap_singleton_Some _ _ _ (ratio_of_Z k)) by (by apply nonzero_power_of_ten).
Qed.

Lemma extract_power_of_10_power (k : Z) :
  k <> 0 -> extract_power_of_10 (mag_power 10 (ratio_of_Z k)) = k.
Proof.
  intros Hk. rewrite mag_power_10 by exact Hk. unfold extract_power_of_10, get_power.
  rewrite lookup_insert_eq, lookup_insert_ne, lookup_singleton_eq by discriminate.
  cbn [default from_option id]. cbv zeta.
  rewrite ratio_of_Z_mul, ratio_num_of_Z.
  destruct (decide (k * k <= 0)) as [Hle|_]; [nia|].
  destruct (decide _) as [Hlt|_]; [by apply Qclt_not_le in Hlt; destruct Hlt; apply Qcle_refl|].
  unfold ratio_integer_part. rewrite ratio_num_of_Z, ratio_den_of_Z. apply Z.quot_1_r.
Qed.

Lemma mag_div_self (m : magnitude) :
  (forall i, m !! i <> Some 0%Qc) -> mag_div m m = mag_one.
Proof.
  intros Hm. apply map_eq. intros i. unfold mag_div, mag_mul, mag_pow, mag_one.
  rewrite lookup_merge, lookup_omap, lookup_empty. specialize (Hm i).
  destruct (m !! i) as [e|]; [|reflexivity]. cbn. unfold nonzero.
  destruct (decide ((-1 * e)%Qc = 0%Qc)) as [E|_].
  - destruct Hm. f_equal. replace e with (- (-1 * e))%Qc by ring. rewrite E. ring.
  - cbn. destruct (decide _) as [_|Hne]; [reflexivity|]. destruct Hne. ring.
Qed.

(** X18.  The symbol of a scaled unit [M * U], where the text of [M] is
    produced and can be copied: for a unit [U] with a symbol that does not
    derive from [derived_unit<>] it is the text of [M], a space and the
    symbol of [U] when that symbol can be copied, and the formatting fails
    with [UnsupportedOption] when it cannot; for a unit [U] that derives
    from [derived_unit<>] ([one], or a unit named after [one]) it is the
    text of [M] alone: the symbol of [U], should it have one, is not
    printed. *)
Theorem scaled_unit_symbol (c : char_type)
    (M : magnitude) (U : unit) (fmt : unit_symbol_formatting) (txt : basic_symbol_text) :
  M <> mag_one -> magnitude_text M = Ok txt ->
  copyable c txt (encoding fmt) = true ->
  (has_symbol U = true -> derived_from U (derived_unit [] []) = false ->
   unit_symbol c (mag_times M U) fmt
   = if copyable c (symbol U) (encoding fmt)
     then Ok (rendering txt (encoding fmt) +:+ " " +:+ rendering (symbol U) (encoding fmt))
     else Err UnsupportedOption) /\
  (derived_from U (derived_unit [] []) = true ->
   unit_symbol c (mag_times M U) fmt = Ok (rendering txt (encoding fmt))).
Proof.
  intros HM Htxt Hc.
  assert (E : mag_eqb M mag_one = false) by (by apply bool_decide_eq_false).
  unfold mag_times, unit_symbol, unit_symbol_to. rewrite E. cbn [unit_symbol_impl].
  rewrite E, Htxt. cbn [bind]. rewrite copy_copyable, Hc. cbn [bind]. split.
  - intros Hs ->. rewrite unit_symbol_impl_symbol by exact Hs.
    rewrite copy_copyable. destruct (copyable c (symbol U) (encoding fmt)); [|reflexivity].
    cbn [bind]. by rewrite string_app_assoc.
  - by intros ->.
Qed.

Lemma scaled_unit_symbol_witness :
  let radian := named_unit_of "radian" (symbol_text_of "rad") one in
  mag_ratio 1 1000 <> mag_one /\
  unit_symbol char (mag_times (mag_ratio 1 1000) si.metre) default_formatting = Ok "× 10⁻³ m" /\
  unit_symbol char (mag_times (mag_ratio 1 1000) radian) default_formatting = Ok "× 10⁻³".
Proof.
  intros radian.
  assert (HM : mag_ratio 1 1000 <> mag_one).
  { intros E. apply (f_equal (fun m => bool_decide (m = mag_one))) in E.
    vm_compute in E. discriminate. }
  assert (Ht : magnitude_text (mag_ratio 1 1000)
               = Ok (symbol_append base_multiplier (superscript (-3))))
    by (vm_compute; reflexivity).
  split; [exact HM|]. split.
  - exact (proj1 (scaled_unit_symbol char _ si.metre default_formatting _ HM Ht eq_refl)
             eq_refl eq_refl).
  - exact (proj2 (scaled_unit_symbol char _ radian default_formatting _ HM Ht eq_refl)
             eq_refl).
Defined.

(** X19.  The text of a power of ten other than one is the multiplier with
    the exponent, without brackets: [× 10^k], [x 10^k] in ASCII. *)
Theorem power_of_ten_text (k : Z) :
  k <> 0 ->
  magnitude_text (mag_power 10 (ratio_of_Z k))
  = Ok (symbol_append base_multiplier (superscript k)).
Proof.
  intros Hk. unfold magnitude_text. cbv zeta. rewrite extract_power_of_10_power by exact Hk.
  rewrite mag_div_self.
  - change (mag_eqb mag_one (mag_div (mag_numerator mag_one) (mag_denominator mag_one))) with true.
    change (get_value (mag_numerator mag_one)) with (Some 1).
    change (get_value (mag_denominator mag_one)) with (Some 1).
    cbn [negb]. by rewrite decide_True by done.
  - intros i. rewrite mag_power_10 by exact Hk. intros E.
    apply lookup_insert_Some in E as [[_ E]|[_ E]].
    + by apply ratio_of_Z_zero in E.
    + apply lookup_singleton_Some in E as [_ E]. by apply ratio_of_Z_zero in E.
Qed.

Lemma power_of_ten_text_witness :
  magnitude_text (mag_power 10 (ratio_of_Z 6))
  = Ok (symbol_append base_multiplier (superscript 6)).
Proof. apply power_of_ten_text. discriminate. Defined.

(** ** Printing through a back inserter *)

Section back_inserter.
Existing Instance back_inserter.

Lemma copy_to_back (c : char_type) (txt : basic_symbol_text) (enc : text_encoding)
    (o : ()) (w : string) :
  copy_to c txt enc o w = inserted (copy c txt enc w).
Proof. unfold copy_to, copy. destruct o, enc; by destruct (decide _). Qed.

Lemma print_separator_to_back (fmt : unit_symbol_formatting) (o : ()) (w : string) :
  print_separator_to o fmt w = inserted (print_separator w fmt).
Proof.
  unfold print_separator_to, print_separator. destruct o. by repeat destruct (decide _).
Qed.

Lemma inserted_bind (r : result string) (k : string -> result string)
    (k' : () * string -> result (() * string)) :
  (forall s, k' (tt, s) = inserted (k s)) ->
  bind (inserted r) k' = inserted (bind r k).
Proof. intros Hk. destruct r as [s|e]; [apply Hk|reflexivity]. Qed.

Lemma print_factors_to_back (print : string -> factor -> result string)
    (print' : () -> string -> factor -> result (() * string))
    (fmt : unit_symbol_formatting) (l : list factor) :
  Forall (fun f => forall w, print' tt w f = inserted (print w f)) l ->
  forall idx w, print_factors_to print' fmt l idx tt w = inserted (print_factors print fmt l idx w).
Proof.
  induction 1 as [|m l Hm Hl IH]; intros idx w; cbn [print_factors_to print_factors];
    [reflexivity|].
  assert (Hsep : (if decide (0 < idx)%nat then print_separator_to tt fmt w else Ok (tt, w))
                 = inserted (if decide (0 < idx)%nat then print_separator w fmt else Ok w)).
  { destruct (decide _); [apply print_separator_to_back|reflexivity]. }
  rewrite Hsep. apply inserted_bind. intros w1. cbn [fst snd]. rewrite Hm.
  apply inserted_bind. intros w2. apply IH.
Qed.

Lemma print_fraction_to_back (print : bool -> string -> factor -> result string)
    (print' : bool -> () -> string -> factor -> result (() * string))
    (fmt : unit_symbol_formatting) (nums dens : list factor) (w : string) :
  (forall np, Forall (fun f => forall w, print' np tt w f = inserted (print np w f)) nums) ->
  (forall np, Forall (fun f => forall w, print' np tt w f = inserted (print np w f)) dens) ->
  print_fraction_to print' fmt nums dens tt w = inserted (print_fraction print fmt nums dens w).
Proof.
  intros Hn Hd. unfold print_fraction_to, print_fraction.
  destruct nums as [|n nums], dens as [|d dens]; try reflexivity;
    try (by apply print_factors_to_back).
  - rewrite (print_factors_to_back (print false)) by apply Hn.
    apply inserted_bind. intros w1. cbn [fst snd].
    destruct (decide (denominator fmt = always_solidus \/ _)).
    + cbn [bind]. cbv zeta. destruct (decide (length [] = 0%nat)); [|done].
      cbn [fst snd write back_inserter]. unfold write, back_inserter. cbn [fst snd].
      destruct (decide (denominator fmt = always_solidus /\ _)); cbn [fst snd];
        rewrite (print_factors_to_back (print _)) by apply Hd;
        apply inserted_bind; intros w4; reflexivity.
    + rewrite print_separator_to_back. apply inserted_bind. intros w2. cbv zeta.
      destruct (decide (denominator fmt = always_solidus /\ _)); cbn [fst snd];
        unfold write, back_inserter; cbn [fst snd];
        rewrite (print_factors_to_back (print _)) by apply Hd;
        apply inserted_bind; intros w4; reflexivity.
  - rewrite (print_factors_to_back (print false)) by apply Hn.
    apply inserted_bind. intros w1. cbn [fst snd].
    destruct (decide (denominator fmt = always_solidus \/ _)).
    + cbn [bind]. cbv zeta. destruct (decide (length (n :: nums) = 0%nat)); [done|].
      unfold write, back_inserter. cbn [fst snd].
      destruct (decide (denominator fmt = always_solidus /\ _)); cbn [fst snd];
        rewrite (print_factors_to_back (print _)) by apply Hd;
        apply inserted_bind; intros w4; reflexivity.
    + rewrite print_separator_to_back. apply inserted_bind. intros w2. cbv zeta.
      destruct (decide (denominator fmt = always_solidus /\ _)); cbn [fst snd];
        unfold write, back_inserter; cbn [fst snd];
        rewrite (print_factors_to_back (print _)) by apply Hd;
        apply inserted_bind; intros w4; reflexivity.
Qed.

Lemma unit_symbol_impl_to_back (c : char_type) (fmt : unit_symbol_formatting) :
  (forall u np w,
      unit_symbol_impl_to c tt w u fmt np = inserted (unit_symbol_impl c w u fmt np)) /\
  (forall f np w,
      factor_symbol_impl_to c tt w f fmt np = inserted (factor_symbol_impl c w f fmt np)).
Proof.
  assert (Hs : forall u np w,
             (p <- copy_to c (symbol u) (encoding fmt) tt w ;;
              if np : bool then copy_to c (superscript (-1)) (encoding fmt) p.1 p.2 else Ok p)
             = inserted (out1 <- copy c (symbol u) (encoding fmt) w ;;
                         if np then copy c (superscript (-1)) (encoding fmt) out1 else Ok out1)).
  { intros u np w. rewrite copy_to_back. apply inserted_bind. intros w1. cbn [fst snd].
    destruct np; [apply copy_to_back|reflexivity]. }
  apply unit_factor_ind.
  - intros name Symbol np w. apply Hs.
  - intros name Symbol U _ np w. apply Hs.
  - intros name Symbol M U _ np w. apply Hs.
  - intros M U IH np w. cbn [unit_symbol_impl_to unit_symbol_impl].
    destruct (mag_eqb M mag_one); [apply IH|].
    destruct (magnitude_text M) as [mag_txt|e]; cbn [bind]; [|reflexivity].
    rewrite copy_to_back. apply inserted_bind. intros w1. cbn [fst snd].
    destruct (derived_from U (derived_unit [] [])); [reflexivity|].
    cbv zeta. unfold write at 1 2, back_inserter at 1 2. cbn [fst snd]. apply IH.
  - intros nums dens Hn Hd np w. cbn [unit_symbol_impl_to unit_symbol_impl].
    destruct np; [reflexivity|].
    assert (Hn' : forall np, Forall (fun f => forall w,
                    factor_symbol_impl_to c tt w f fmt np
                    = inserted (factor_symbol_impl c w f fmt np))
                    nums).
    { intros np. eapply Forall_impl; [exact Hn|]. intros f Hf w'. apply Hf. }
    assert (Hd' : forall np, Forall (fun f => forall w,
                    factor_symbol_impl_to c tt w f fmt np
                    = inserted (factor_symbol_impl c w f fmt np))
                    dens).
    { intros np. eapply Forall_impl; [exact Hd|]. intros f Hf w'. apply Hf. }
    assert (G : forall ns, (forall np, Forall (fun f => forall w,
                    factor_symbol_impl_to c tt w f fmt np
                    = inserted (factor_symbol_impl c w f fmt np))
                    ns) ->
                print_fraction_to (fun np o s f => factor_symbol_impl_to c o s f fmt np)
                  fmt ns dens tt w
                = inserted (print_fraction (fun np o f => factor_symbol_impl c o f fmt np)
                              fmt ns dens w)).
    { intros ns Hns.
      apply (print_fraction_to_back (fun np o f => factor_symbol_impl c o f fmt np)
               (fun np o s f => factor_symbol_impl_to c o s f fmt np)); [exact Hns|exact Hd']. }
    destruct nums as [|[U|F x y] [|g nums]], dens as [|d dens]; try (by apply G).
    destruct (derived_from U (derived_unit [] [])); apply G; [by constructor|done].
  - intros np w. by destruct np.
  - intros U IH np w. apply IH.
  - intros F Num Den IH np w. cbn [factor_symbol_impl_to factor_symbol_impl].
    rewrite IH. apply inserted_bind. intros w1. cbn [fst snd]. cbv zeta.
    repeat destruct (decide _); rewrite ?copy_to_back; reflexivity.
Qed.
End back_inserter.

(** X20.  Through a back inserter, as [unit_symbol] calls it,
    [unit_symbol_to] appends to the string what [unit_symbol_to] is
    modelled to append to its buffer, and fails as it does: the iterators
    that the source does not keep make no difference there. *)
Theorem unit_symbol_through_back_inserter
    (c : char_type) (w : string) (u : unit) (fmt : unit_symbol_formatting) :
  @unit_symbol_through () string back_inserter c tt w u fmt =
    match unit_symbol_to c w u fmt with
    | Ok s => Ok (tt, s)
    | Err e => Err e
    end.
Proof. apply (proj1 (unit_symbol_impl_to_back c fmt)). Qed.

(** ** Printing through a pointer *)

(** X21.  Through a pointer into an array of characters [unit_symbol_to]
    loses what it does not keep.  For units [a] and [b] with symbols that
    can be copied, [a] not deriving from [derived_unit<>]: the numerator of
    [a / b] is written, and then overwritten by the solidus and the
    denominator, the pointer that the call for the numerator returned being
    dropped; the pointer returned is advanced by the solidus and the symbol
    of [b] only (for a formatting that puts the denominator after a
    solidus, any but [always_negative]).  And the dot separator is
    overwritten by the factor that follows it, the pointer that the copy of
    the dot returned being dropped too. *)
Theorem unit_symbol_through_pointer
    (c : char_type) (a b : unit) (fmt : unit_symbol_formatting) (p : nat) (w : string) :
  has_symbol a = true -> has_symbol b = true ->
  derived_from a (derived_unit [] []) = false ->
  copyable c (symbol a) (encoding fmt) = true ->
  copyable c (symbol b) (encoding fmt) = true ->
  let sa := rendering (symbol a) (encoding fmt) in
  let sb := rendering (symbol b) (encoding fmt) in
  (denominator fmt <> always_negative ->
   @unit_symbol_through nat string char_pointer c p w (derived_unit [bare a] [bare b]) fmt
   = Ok ((p + 1 + String.length sb)%nat,
         overwrite (p + 1) sb (overwrite p "/" (overwrite p sa w)))) /\
  (separator fmt = dot -> encoding fmt = unicode_encoding ->
   @unit_symbol_through nat string char_pointer c p w (derived_unit [bare a; bare b] []) fmt
   = Ok ((p + String.length sa + String.length sb)%nat,
         overwrite (p + String.length sa) sb
           (overwrite (p + String.length sa) "⋅" (overwrite p sa w)))).
Proof.
  intros Ha Hb Hda Hca Hcb sa sb.
  assert (Hsym : forall u q s, has_symbol u = true ->
             copyable c (symbol u) (encoding fmt) = true ->
             @unit_symbol_impl_to nat string char_pointer c q s u fmt false
             = Ok ((q + String.length (rendering (symbol u) (encoding fmt)))%nat,
                   overwrite q (rendering (symbol u) (encoding fmt)) s)).
  { intros u q s Hu Hc.
    assert (Hcopy : @copy_to nat string char_pointer c (symbol u) (encoding fmt) q s
                    = Ok ((q + String.length (rendering (symbol u) (encoding fmt)))%nat,
                          overwrite q (rendering (symbol u) (encoding fmt)) s)).
    { unfold copy_to, copyable, rendering in *.
      destruct (encoding fmt); apply bool_decide_eq_true in Hc;
        by rewrite decide_True by exact Hc. }
    destruct u; try discriminate; cbn [unit_symbol_impl_to]; by rewrite Hcopy. }
  split.
  - intros Hden. unfold unit_symbol_through. cbn [unit_symbol_impl_to]. rewrite Hda.
    unfold print_fraction_to. cbn [print_factors_to factor_symbol_impl_to length].
    destruct (decide (0 < 0)%nat); [lia|]. cbn [bind fst snd].
    rewrite Hsym by done. cbn [bind fst snd].
    rewrite decide_True by (destruct (denominator fmt); [by right|by left|done]).
    cbv zeta. rewrite decide_False by done. cbn [bind fst snd].
    rewrite decide_False by (intros [_ ?]; lia).
    rewrite bool_decide_eq_false_2 by (intros [?|[_ ?]]; [done|lia]).
    destruct (decide (0 < 0)%nat); [lia|]. cbn [bind fst snd].
    unfold write, char_pointer. cbn [String.length fst snd].
    rewrite Hsym by done. cbn [bind fst snd].
    rewrite decide_False by (intros [_ ?]; lia). reflexivity.
  - intros Hdot Henc. unfold unit_symbol_through. cbn [unit_symbol_impl_to].
    unfold print_fraction_to. cbn [print_factors_to factor_symbol_impl_to].
    destruct (decide (0 < 0)%nat); [lia|]. cbn [bind fst snd].
    rewrite Hsym by done. cbn [bind fst snd].
    destruct (decide (0 < 1)%nat); [|lia]. unfold print_separator_to.
    rewrite decide_True by done. rewrite decide_False by (intros Hne; by destruct Hne).
    cbn [bind fst snd]. rewrite Hsym by done. cbn [bind fst snd].
    reflexivity.
Qed.

Lemma unit_symbol_through_pointer_witness :
  @unit_symbol_through nat string char_pointer char 0%nat ""
    (derived_unit [bare si.metre] [bare si.second]) default_formatting
  = Ok (2%nat, "/s") /\
  unit_symbol char (derived_unit [bare si.metre] [bare si.second]) default_formatting = Ok "m/s".
Proof.
  split; [|reflexivity].
  exact (proj1 (unit_symbol_through_pointer char si.metre si.second
                  default_formatting 0%nat "" eq_refl eq_refl eq_refl eq_refl eq_refl)
           ltac:(discriminate)).
Defined.
